(** * Pintos synchronisation layer: semaphores, locks with priority
      donation, condition variables and the timed sleep queue.

    Shallow embedding of [threads/synch.c] and [devices/timer.c].
    Kernel code is written in a small state monad whose results
    distinguish a normal return, a suspension of the running thread in
    [thread_block], and a failed [ASSERT].  Each function of the
    source is embedded as it reads, from its first statement to its
    return or to the [thread_block] that suspends it; what a thread
    does after [thread_block] returns is a separate piece of code,
    entered when the scheduler runs the thread again.  The modules
    [Preempt], [SleepPreempt] and [SemaSched] cut the functions at the
    points where the running thread can lose the CPU, by preemption
    while interrupts are on or in [thread_yield], and let the pieces
    of different threads interleave.

    The first half of the file holds the model and the statements'
    vocabulary, the second half the proofs. *)

From Stdlib Require Import ZArith List Bool Lia Sorted.
From stdpp Require Import base option list gmap.

Local Open Scope Z_scope.

(** ** C integers *)

Module CInt.

Definition INT64_MAX : Z := 2 ^ 63 - 1.
Definition INT64_MIN : Z := - 2 ^ 63.
Definition UINT_MAX : Z := 2 ^ 32 - 1.

(** [int64_t] arithmetic, two's complement wrap-around. *)
Definition wrap64 (z : Z) : Z := (z + 2 ^ 63) mod 2 ^ 64 - 2 ^ 63.

(** [unsigned] arithmetic. *)
Definition wrapu32 (z : Z) : Z := z mod 2 ^ 32.

End CInt.

(** ** The kernel monad *)

Module Kernel.

(** Outcome of running a piece of kernel code from a state [s]:
    it returns, or the running thread is suspended inside
    [thread_block] (the state is the one it leaves behind), or an
    [ASSERT] fails and the kernel panics. *)
Inductive res (S A : Type) : Type :=
| Ret (a : A) (s : S)
| Blk (s : S)
| Panic.
Arguments Ret {S A} a s.
Arguments Blk {S A} s.
Arguments Panic {S A}.

Definition M (S A : Type) : Type := S -> res S A.

Definition ret {S A} (a : A) : M S A := fun s => Ret a s.

Definition bind {S A B} (m : M S A) (f : A -> M S B) : M S B :=
  fun s =>
    match m s with
    | Ret a s' => f a s'
    | Blk s' => Blk s'
    | Panic => Panic
    end.

Definition get {S} : M S S := fun s => Ret s s.
Definition gets {S A} (f : S -> A) : M S A := fun s => Ret (f s) s.
Definition modify {S} (f : S -> S) : M S unit := fun s => Ret tt (f s).
Definition panic {S A} : M S A := fun _ => Panic.
Definition suspend {S A} : M S A := fun s => Blk s.

Definition ASSERT {S} (b : bool) : M S unit :=
  if b then ret tt else panic.

(** Run code written against a part [T] of the state [S]. *)
Definition zoom {S T A} (proj : S -> T) (upd : T -> S -> S)
    (m : M T A) : M S A :=
  fun s =>
    match m (proj s) with
    | Ret a t => Ret a (upd t s)
    | Blk t => Blk (upd t s)
    | Panic => Panic
    end.

(** Same, for a part that may be absent (an invalid pointer). *)
Definition zoom_opt {S T A} (proj : S -> option T) (upd : T -> S -> S)
    (m : M T A) : M S A :=
  fun s =>
    match proj s with
    | Some t0 =>
        match m t0 with
        | Ret a t => Ret a (upd t s)
        | Blk t => Blk (upd t s)
        | Panic => Panic
        end
    | None => Panic
    end.

End Kernel.

Export Kernel.

Declare Scope kernel_scope.
Delimit Scope kernel_scope with kernel.
Notation "x <- m ;; k" := (bind m (fun x => k))
  (at level 100, m at next level, right associativity) : kernel_scope.
Notation "m ;;; k" := (bind m (fun _ => k))
  (at level 100, right associativity) : kernel_scope.
Local Open Scope kernel_scope.

(** ** Threads and the scheduler interface *)

Abbreviation tid := nat.

Inductive thread_status : Type :=
| THREAD_RUNNING
| THREAD_READY
| THREAD_BLOCKED.

Inductive intr_level : Type := INTR_OFF | INTR_ON.

Record thread : Type := mkThread {
  status : thread_status;
  priority : Z;
  eff_priority : Z;
  wakeup_time : Z
}.

Definition set_status (st : thread_status) (t : thread) : thread :=
  mkThread st (priority t) (eff_priority t) (wakeup_time t).
Definition set_eff_priority (p : Z) (t : thread) : thread :=
  mkThread (status t) (priority t) p (wakeup_time t).
Definition set_wakeup_time (w : Z) (t : thread) : thread :=
  mkThread (status t) (priority t) (eff_priority t) w.

(** Calls into the external scheduler, in the order they are made. *)
Inductive sched_call : Type :=
| CallBlock (t : tid)
| CallUnblock (t : tid)
| CallYield (t : tid)
| CallTick.

(** What the synchronisation code sees of the rest of the kernel: the
    thread structures (by address), the running thread, whether an
    external interrupt is being handled, the interrupt level and the
    scheduler calls made so far. *)
Record kctx : Type := mkCtx {
  threads : gmap tid thread;
  cur : tid;
  in_intr : bool;
  level : intr_level;
  calls : list sched_call
}.

Definition with_threads (f : gmap tid thread -> gmap tid thread)
    (c : kctx) : kctx :=
  mkCtx (f (threads c)) (cur c) (in_intr c) (level c) (calls c).
Definition with_level (l : intr_level) (c : kctx) : kctx :=
  mkCtx (threads c) (cur c) (in_intr c) l (calls c).
Definition with_call (e : sched_call) (c : kctx) : kctx :=
  mkCtx (threads c) (cur c) (in_intr c) (level c) (calls c ++ [e]).
Definition with_cur (t : tid) (c : kctx) : kctx :=
  mkCtx (threads c) t (in_intr c) (level c) (calls c).

(** Dereference of a [struct thread *].  An address at which there is
    no thread reads as a thread that never runs. *)
Definition idle_thread : thread := mkThread THREAD_BLOCKED 0 0 0.

Definition thread_at (ts : gmap tid thread) (t : tid) : thread :=
  default idle_thread (ts !! t).

(** The expression
    [(t->eff_priority > t->priority) ? t->eff_priority : t->priority]
    that every reader of a thread's priority in synch.c uses. *)
Definition effective_priority (t : thread) : Z :=
  if eff_priority t >? priority t then eff_priority t else priority t.

Definition priority_of (ts : gmap tid thread) (t : tid) : Z :=
  effective_priority (thread_at ts t).

Definition is_blocked (ts : gmap tid thread) (t : tid) : bool :=
  match status (thread_at ts t) with
  | THREAD_BLOCKED => true
  | _ => false
  end.

Section Scheduler.
Context {S : Type}.
Variable ctx : S -> kctx.
Variable upd_ctx : kctx -> S -> S.

Definition on_ctx (f : kctx -> kctx) : M S unit :=
  modify (fun s => upd_ctx (f (ctx s)) s).

Definition thread_current : M S tid := gets (fun s => cur (ctx s)).
Definition intr_context : M S bool := gets (fun s => in_intr (ctx s)).
Definition intr_get_level : M S intr_level := gets (fun s => level (ctx s)).

Definition intr_set_level (l : intr_level) : M S unit :=
  on_ctx (with_level l).

Definition intr_disable : M S intr_level :=
  old <- intr_get_level ;;
  intr_set_level INTR_OFF ;;;
  ret old.

(** Modelled from the spec: [thread_block] of threads/thread.c, the
    scheduler's block-current-thread primitive: "removes from ready
    set, returns only once unblocked".  The caller is marked blocked
    and its execution stops here. *)
Definition thread_block : M S unit :=
  t <- thread_current ;;
  on_ctx (fun c => with_call (CallBlock t)
                     (with_threads (alter (set_status THREAD_BLOCKED) t) c)) ;;;
  suspend.

(** Modelled from the spec: [thread_unblock] of threads/thread.c,
    "unblock(thread)", which marks a blocked thread runnable and is
    callable from interrupt context. *)
Definition thread_unblock (t : tid) : M S unit :=
  on_ctx (fun c => with_call (CallUnblock t)
                     (with_threads (alter (set_status THREAD_READY) t) c)).

(** Modelled from the spec: [thread_yield] of threads/thread.c, a
    scheduling point at which the running thread gives up the CPU and
    stays runnable. *)
Definition thread_yield : M S unit :=
  t <- thread_current ;;
  on_ctx (with_call (CallYield t)).

(** Modelled from the spec: [thread_tick] of threads/thread.c, "the
    external per-tick scheduler accounting hook". *)
Definition thread_tick : M S unit :=
  on_ctx (with_call CallTick).

End Scheduler.

(** ** lib/kernel/list.h *)

Module KList.
Section Ordered.
Context {A : Type}.
Variable less : A -> A -> bool.

(** Modelled from the spec: [list_insert_ordered] of
    lib/kernel/list.c.  The new element goes in front of the first
    element it is [less] than, hence behind every element it ties
    with: "ordered ... FIFO among ties". *)
Fixpoint list_insert_ordered (l : list A) (x : A) : list A :=
  match l with
  | [] => [x]
  | e :: l' =>
      if less x e then x :: e :: l'
      else e :: list_insert_ordered l' x
  end.

(** The queue that results when the elements of [arr] arrive in
    that order. *)
Definition enqueue_all (arr : list A) : list A :=
  fold_left list_insert_ordered arr [].

End Ordered.
End KList.

Export KList.

(** ** Semaphores (threads/synch.c) *)

Record semaphore : Type := mkSema {
  value : Z;
  waiters : list tid;
  sema_priority : Z
}.

Definition set_value (v : Z) (s : semaphore) : semaphore :=
  mkSema v (waiters s) (sema_priority s).
Definition set_waiters (w : list tid) (s : semaphore) : semaphore :=
  mkSema (value s) w (sema_priority s).
Definition set_sema_priority (p : Z) (s : semaphore) : semaphore :=
  mkSema (value s) (waiters s) p.

(** Code that works on one [struct semaphore] sees the kernel context
    and that semaphore. *)
Abbreviation sema_state := (kctx * semaphore)%type.

Module Sema.

Definition sctx (s : sema_state) : kctx := fst s.
Definition upd_sctx (c : kctx) (s : sema_state) : sema_state := (c, snd s).
Definition on_sema (f : semaphore -> semaphore) : M sema_state unit :=
  modify (fun s => (fst s, f (snd s))).

Definition sema_init (v : Z) : M sema_state unit :=
  on_sema (set_value v) ;;;
  on_sema (set_waiters []).

(** [priority_ordering_wait]: true when [a]'s priority is strictly
    greater than [b]'s. *)
Definition priority_ordering_wait (ts : gmap tid thread) (a b : tid) : bool :=
  priority_of ts a >? priority_of ts b.

(** [sema_down] from the test of its [while] loop on.  A thread that
    [thread_block] suspended inside the loop continues here when it
    runs again. *)
Definition sema_down_loop (old_level : intr_level) : M sema_state unit :=
  v <- gets (fun s => value (snd s)) ;;
  if v =? 0 then
    t <- thread_current sctx ;;
    modify (fun s =>
      (fst s,
       set_waiters
         (list_insert_ordered (priority_ordering_wait (threads (fst s)))
            (waiters (snd s)) t)
         (snd s))) ;;;
    thread_block sctx upd_sctx
  else
    on_sema (fun s => set_value (CInt.wrapu32 (value s - 1)) s) ;;;
    intr_set_level sctx upd_sctx old_level.

Definition sema_down : M sema_state unit :=
  intr <- intr_context sctx ;;
  ASSERT (negb intr) ;;;
  old_level <- intr_disable sctx upd_sctx ;;
  sema_down_loop old_level.

Definition sema_try_down : M sema_state bool :=
  old_level <- intr_disable sctx upd_sctx ;;
  v <- gets (fun s => value (snd s)) ;;
  success <- (if v >? 0 then
                on_sema (fun s => set_value (CInt.wrapu32 (value s - 1)) s) ;;;
                ret true
              else ret false) ;;
  intr_set_level sctx upd_sctx old_level ;;;
  ret success.

(** [sema_up].  Before the final [thread_yield] the C code reads the
    priorities of the woken and of the running thread into two locals
    that it does not use. *)
Definition sema_up : M sema_state unit :=
  old_level <- intr_disable sctx upd_sctx ;;
  w <- gets (fun s => waiters (snd s)) ;;
  unwait <- (match w with
             | t :: rest =>
                 on_sema (set_waiters rest) ;;;
                 thread_unblock sctx upd_sctx t ;;;
                 ret (Some t)
             | [] => ret None
             end) ;;
  on_sema (fun s => set_value (CInt.wrapu32 (value s + 1)) s) ;;;
  intr_set_level sctx upd_sctx old_level ;;;
  match unwait with
  | Some _ => thread_yield sctx upd_sctx
  | None => ret tt
  end.

End Sema.

Export Sema.

(** ** Locks (threads/synch.c) *)

(** [priority_ordering_donators]: the same order as
    [priority_ordering_wait], written for a list of donators linked
    through [donatorselem].  No function of synch.c calls it. *)
Definition priority_ordering_donators (ts : gmap tid thread) (a b : tid) : bool :=
  let priority_a :=
    if priority (thread_at ts a) <? eff_priority (thread_at ts a)
    then eff_priority (thread_at ts a) else priority (thread_at ts a) in
  let priority_b :=
    if priority (thread_at ts b) <? eff_priority (thread_at ts b)
    then eff_priority (thread_at ts b) else priority (thread_at ts b) in
  priority_a >? priority_b.

Record lock : Type := mkLock {
  holder : option tid;
  semaphore_of : semaphore
}.

Definition set_holder (h : option tid) (l : lock) : lock :=
  mkLock h (semaphore_of l).
Definition set_semaphore (s : semaphore) (l : lock) : lock :=
  mkLock (holder l) s.

Abbreviation lock_state := (kctx * lock)%type.

Module Lock.

Definition lctx (s : lock_state) : kctx := fst s.
Definition upd_lctx (c : kctx) (s : lock_state) : lock_state := (c, snd s).
Definition on_lock (f : lock -> lock) : M lock_state unit :=
  modify (fun s => (fst s, f (snd s))).

(** [&lock->semaphore] *)
Definition in_semaphore {A} (m : M sema_state A) : M lock_state A :=
  zoom (fun s : lock_state => (fst s, semaphore_of (snd s)))
       (fun (t : sema_state) (s : lock_state) =>
          (fst t, set_semaphore (snd t) (snd s)))
       m.

Definition lock_init : M lock_state unit :=
  on_lock (set_holder None) ;;;
  in_semaphore (sema_init 1).

Definition lock_held_by_current_thread : M lock_state bool :=
  h <- gets (fun s => holder (snd s)) ;;
  t <- thread_current lctx ;;
  ret (bool_decide (h = Some t)).

(** The donation step of [lock_acquire]. *)
Definition lock_donate : M lock_state unit :=
  h <- gets (fun s => holder (snd s)) ;;
  match h with
  | Some hd =>
      t <- thread_current lctx ;;
      donation <- gets (fun s => priority_of (threads (fst s)) t) ;;
      on_ctx lctx upd_lctx
        (with_threads (alter (set_eff_priority donation) hd))
  | None => ret tt
  end.

(** What [lock_acquire] does once [sema_down] has returned. *)
Definition lock_take : M lock_state unit :=
  t <- thread_current lctx ;;
  on_lock (set_holder (Some t)).

Definition lock_acquire : M lock_state unit :=
  intr <- intr_context lctx ;;
  ASSERT (negb intr) ;;;
  held <- lock_held_by_current_thread ;;
  ASSERT (negb held) ;;;
  lock_donate ;;;
  in_semaphore sema_down ;;;
  lock_take.

(** A thread suspended inside [lock_acquire] continues in the loop of
    [sema_down] and then takes the lock. *)
Definition lock_acquire_resume (old_level : intr_level) : M lock_state unit :=
  in_semaphore (sema_down_loop old_level) ;;;
  lock_take.

Definition lock_try_acquire : M lock_state bool :=
  held <- lock_held_by_current_thread ;;
  ASSERT (negb held) ;;;
  success <- in_semaphore sema_try_down ;;
  (if success : bool then lock_take else ret tt) ;;;
  ret success.

Definition lock_release : M lock_state unit :=
  held <- lock_held_by_current_thread ;;
  ASSERT held ;;;
  h <- gets (fun s => holder (snd s)) ;;
  match h with
  | Some hd =>
      on_ctx lctx upd_lctx (with_threads (alter (set_eff_priority 0) hd))
  | None => panic
  end ;;;
  on_lock (set_holder None) ;;;
  in_semaphore sema_up.

End Lock.

Export Lock.

(** ** A kernel with several locks and threads *)

Abbreviation lid := nat.

(** The locks by address, and for every thread suspended inside
    [lock_acquire] the lock it waits for and the [old_level] saved in
    its [sema_down] frame. *)
Record system : Type := mkSystem {
  kc : kctx;
  locks : gmap lid lock;
  pending : gmap tid (lid * intr_level)
}.

Module Sys.

Definition with_pending (f : gmap tid (lid * intr_level) ->
                             gmap tid (lid * intr_level))
    (s : system) : system :=
  mkSystem (kc s) (locks s) (f (pending s)).

(** Run lock code on the lock at address [l]. *)
Definition at_lock {A} (l : lid) (m : M lock_state A) : M system A :=
  zoom_opt (fun s : system => pair (kc s) <$> locks s !! l)
           (fun (t : lock_state) (s : system) =>
              mkSystem (fst t) (<[l := snd t]> (locks s)) (pending s))
           m.

(** [lock_init] writes a fresh lock at [l], whatever was there. *)
Definition init_lock (l : lid) : M system unit :=
  fun s =>
    match lock_init (kc s, mkLock None (mkSema 0 [] 0)) with
    | Ret a t => Ret a (mkSystem (fst t) (<[l := snd t]> (locks s)) (pending s))
    | Blk t => Blk (mkSystem (fst t) (<[l := snd t]> (locks s)) (pending s))
    | Panic => Panic
    end.

Inductive event : Type :=
| EvInit (l : lid)
| EvAcquire (t : tid) (l : lid)
| EvResume (t : tid)
| EvTryAcquire (t : tid) (l : lid)
| EvRelease (t : tid) (l : lid).

(** Thread [t] gets the CPU with interrupt level [lv]. *)
Definition dispatch (t : tid) (lv : intr_level) (s : system) : system :=
  mkSystem (with_level lv (with_cur t (kc s))) (locks s) (pending s).

(** A thread can run when it is not blocked. *)
Definition runnable (s : system) (t : tid) : bool :=
  negb (is_blocked (threads (kc s)) t).

Definition idle (s : system) (t : tid) : bool :=
  runnable s t && bool_decide (pending s !! t = None).

(** One scheduling segment: an operation run up to its return or up
    to the [thread_block] that suspends it.  [None] when the kernel
    panics or the event is not one the scheduler can produce. *)
Definition step (s : system) (e : event) : option system :=
  match e with
  | EvInit l =>
      match init_lock l s with
      | Ret _ s' => Some s'
      | _ => None
      end
  | EvAcquire t l =>
      if idle s t then
        match at_lock l lock_acquire (dispatch t INTR_ON s) with
        | Ret _ s' => Some s'
        | Blk s' => Some (with_pending <[t := (l, INTR_ON)]> s')
        | Panic => None
        end
      else None
  | EvResume t =>
      match pending s !! t with
      | Some (l, old_level) =>
          if runnable s t then
            match at_lock l (lock_acquire_resume old_level)
                    (dispatch t INTR_OFF s) with
            | Ret _ s' => Some (with_pending (delete t) s')
            | Blk s' => Some s'
            | Panic => None
            end
          else None
      | None => None
      end
  | EvTryAcquire t l =>
      if idle s t then
        match at_lock l lock_try_acquire (dispatch t INTR_ON s) with
        | Ret _ s' => Some s'
        | _ => None
        end
      else None
  | EvRelease t l =>
      if idle s t then
        match at_lock l lock_release (dispatch t INTR_ON s) with
        | Ret _ s' => Some s'
        | _ => None
        end
      else None
  end.

Fixpoint run (s : system) (evs : list event) : option system :=
  match evs with
  | [] => Some s
  | e :: evs' =>
      match step s e with
      | Some s' => run s' evs'
      | None => None
      end
  end.

(** Threads with the given base priorities, all runnable, nothing
    donated, no lock initialised yet. *)
Definition boot (prios : list (tid * Z)) : system :=
  mkSystem
    (mkCtx
       (list_to_map
          (map (fun p => (fst p, mkThread THREAD_READY (snd p) 0 0)) prios))
       0%nat false INTR_ON [])
    ∅ ∅.

Definition prio (s : system) (t : tid) : Z := priority_of (threads (kc s)) t.

End Sys.


(** ** Priority donation as the design describes it *)

Module Donation.
Import Sys.

(** The donors of a lock are the threads blocked trying to acquire
    it, the waiters of its semaphore. *)
Definition donors (lk : lock) : list tid := waiters (semaphore_of lk).

(** The locks other than [l] that [t] holds. *)
Definition other_locks_held (s : system) (t : tid) (l : lid) : list lock :=
  map snd
    (List.filter (fun p => negb (fst p =? l)%nat
                          && bool_decide (holder (snd p) = Some t))
       (map_to_list (locks s))).

Definition max_list (z : Z) (l : list Z) : Z := fold_right Z.max z l.

(** "max(base_priority, priorities of donors from any OTHER locks it
    still holds)": the value the releasing thread's effective
    priority is to have after it releases [l]. *)
Definition release_target (s : system) (t : tid) (l : lid) : Z :=
  max_list (priority (thread_at (threads (kc s)) t))
    (map (prio s) (concat (map donors (other_locks_held s t l)))).

(** The holders along the wait-for chain that starts at thread [h]:
    [h], then the holder of the lock [h] is blocked on, and so on. *)
Fixpoint wait_for_chain (fuel : nat) (s : system) (h : tid) : list tid :=
  match fuel with
  | O => []
  | S fuel' =>
      h :: match pending s !! h with
           | Some (l, _) =>
               match locks s !! l with
               | Some lk =>
                   match holder lk with
                   | Some h' => wait_for_chain fuel' s h'
                   | None => []
                   end
               | None => []
               end
           | None => []
           end
  end.

(** Every holder on the chain has at least priority [p]. *)
Definition chain_raised (s : system) (h : tid) (p : Z) : bool :=
  forallb (fun t => p <=? prio s t)
    (wait_for_chain (size (threads (kc s))) s h).

(** Thread 1 (base priority 1) holds locks 1 and 2; thread 2
    (priority 10) is blocked on lock 2. *)
Definition two_locks_held : system :=
  default (boot [])
    (run (boot [(1%nat, 1); (2%nat, 10)])
       [EvInit 1; EvInit 2; EvAcquire 1 1; EvAcquire 1 2; EvAcquire 2 2]).

Definition one_lock_released : system :=
  default (boot []) (step two_locks_held (EvRelease 1 1)).

(** Thread 1 (priority 1) holds lock 1; thread 2 (priority 5) holds
    lock 2 and is blocked on lock 1. *)
Definition chain_of_two : system :=
  default (boot [])
    (run (boot [(1%nat, 1); (2%nat, 5); (3%nat, 10)])
       [EvInit 1; EvInit 2; EvAcquire 1 1; EvAcquire 2 2; EvAcquire 2 1]).

Definition chain_of_three : system :=
  default (boot []) (step chain_of_two (EvAcquire 3 2)).

(** Thread 1 (priority 1) holds lock 1; thread 2 (priority 10) is
    blocked on it. *)
Definition one_donor : system :=
  default (boot [])
    (run (boot [(1%nat, 1); (2%nat, 10); (3%nat, 5)])
       [EvInit 1; EvAcquire 1 1; EvAcquire 2 1]).

Definition two_donors : system :=
  default (boot []) (step one_donor (EvAcquire 3 1)).

End Donation.

(** ** The timed sleep queue (devices/timer.c) *)

Record timer : Type := mkTimer {
  ticks : Z;
  sleeping_threads : list tid
}.

Definition set_ticks (n : Z) (t : timer) : timer :=
  mkTimer n (sleeping_threads t).
Definition set_sleeping_threads (q : list tid) (t : timer) : timer :=
  mkTimer (ticks t) q.

Abbreviation timer_state := (kctx * timer)%type.

Module Timer.

Definition tctx (s : timer_state) : kctx := fst s.
Definition upd_tctx (c : kctx) (s : timer_state) : timer_state := (c, snd s).
Definition on_timer (f : timer -> timer) : M timer_state unit :=
  modify (fun s => (fst s, f (snd s))).

Definition timer_init : M timer_state unit :=
  on_timer (set_sleeping_threads []).

Definition timer_ticks : M timer_state Z :=
  old_level <- intr_disable tctx upd_tctx ;;
  t <- gets (fun s => ticks (snd s)) ;;
  intr_set_level tctx upd_tctx old_level ;;;
  ret t.

(** [compare]: ascending order of wake-up time. *)
Definition compare (ts : gmap tid thread) (a b : tid) : bool :=
  wakeup_time (thread_at ts a) <? wakeup_time (thread_at ts b).

Definition timer_sleep (nticks : Z) : M timer_state unit :=
  if nticks <=? 0 then ret tt
  else
    start <- timer_ticks ;;
    sleepy <- thread_current tctx ;;
    on_ctx tctx upd_tctx
      (with_threads
         (alter (set_wakeup_time (CInt.wrap64 (start + nticks))) sleepy)) ;;;
    modify (fun s =>
      (fst s,
       set_sleeping_threads
         (list_insert_ordered (compare (threads (fst s)))
            (sleeping_threads (snd s)) sleepy)
         (snd s))) ;;;
    old_level <- intr_disable tctx upd_tctx ;;
    thread_block tctx upd_tctx ;;;
    intr_set_level tctx upd_tctx old_level.

(** The [while] loop of [timer_interrupt]; [q] is the sleep queue as
    the loop finds it. *)
Fixpoint timer_wake (q : list tid) : M timer_state unit :=
  match q with
  | [] => ret tt
  | wakey :: rest =>
      now <- gets (fun s => ticks (snd s)) ;;
      due <- gets (fun s => wakeup_time (thread_at (threads (fst s)) wakey)) ;;
      if now >=? due then
        on_timer (set_sleeping_threads rest) ;;;
        thread_unblock tctx upd_tctx wakey ;;;
        timer_wake rest
      else ret tt
  end.

Definition timer_interrupt : M timer_state unit :=
  on_timer (fun t => set_ticks (CInt.wrap64 (ticks t + 1)) t) ;;;
  thread_tick tctx upd_tctx ;;;
  q <- gets (fun s => sleeping_threads (snd s)) ;;
  timer_wake q.

(** *** Runs of the sleep queue *)

Inductive event : Type :=
| EvSleep (t : tid) (nticks : Z)
| EvTick.

(** Thread [t] gets the CPU, interrupts on. *)
Definition dispatch (t : tid) (s : timer_state) : timer_state :=
  (mkCtx (threads (fst s)) t false INTR_ON (calls (fst s)), snd s).

(** The timer interrupt arrives: handlers run in interrupt context
    with interrupts off. *)
Definition enter_intr (s : timer_state) : timer_state :=
  (mkCtx (threads (fst s)) (cur (fst s)) true INTR_OFF (calls (fst s)), snd s).
Definition leave_intr (s : timer_state) : timer_state :=
  (mkCtx (threads (fst s)) (cur (fst s)) false INTR_ON (calls (fst s)), snd s).

Definition step (s : timer_state) (e : event) : option timer_state :=
  match e with
  | EvSleep t nticks =>
      if is_blocked (threads (fst s)) t then None
      else
        match timer_sleep nticks (dispatch t s) with
        | Ret _ s' => Some s'
        | Blk s' => Some s'
        | Panic => None
        end
  | EvTick =>
      match timer_interrupt (enter_intr s) with
      | Ret _ s' => Some (leave_intr s')
      | _ => None
      end
  end.

Fixpoint run (s : timer_state) (evs : list event) : option timer_state :=
  match evs with
  | [] => Some s
  | e :: evs' =>
      match step s e with
      | Some s' => run s' evs'
      | None => None
      end
  end.

(** The state that [timer_init] leaves at boot: the given threads, all
    runnable, tick counter 0, nobody asleep. *)
Definition boot (ts : list tid) : timer_state :=
  (mkCtx (list_to_map (map (fun t => (t, mkThread THREAD_READY 31 0 0)) ts))
         0%nat false INTR_ON [],
   mkTimer 0 []).

Definition deadline (s : timer_state) (t : tid) : Z :=
  wakeup_time (thread_at (threads (fst s)) t).

End Timer.

(** ** Condition variables (threads/synch.c) *)

Abbreviation addr := nat.

(** A monitor: the condition's queue of [struct semaphore_elem]
    addresses, the lock it is used with, and the memory that holds the
    semaphore of each [semaphore_elem]. *)
Record monitor : Type := mkMonitor {
  cond_waiters : list addr;
  cond_lock : lock;
  elems : gmap addr semaphore
}.

Abbreviation cond_state := (kctx * monitor)%type.

Module Cond.

Definition cctx (s : cond_state) : kctx := fst s.
Definition upd_cctx (c : kctx) (s : cond_state) : cond_state := (c, snd s).

Definition set_cond_waiters (q : list addr) (m : monitor) : monitor :=
  mkMonitor q (cond_lock m) (elems m).
Definition set_elem (w : addr) (e : semaphore) (m : monitor) : monitor :=
  mkMonitor (cond_waiters m) (cond_lock m) (<[w := e]> (elems m)).

Definition on_monitor (f : monitor -> monitor) : M cond_state unit :=
  modify (fun s => (fst s, f (snd s))).

(** The priority tag of the [semaphore_elem] at [w]. *)
Definition tag (m : gmap addr semaphore) (w : addr) : Z :=
  sema_priority (default (mkSema 0 [] 0) (m !! w)).

Definition in_lock {A} (m : M lock_state A) : M cond_state A :=
  zoom (fun s : cond_state => (fst s, cond_lock (snd s)))
       (fun (t : lock_state) (s : cond_state) =>
          (fst t, mkMonitor (cond_waiters (snd s)) (snd t) (elems (snd s))))
       m.

(** [&waiter.semaphore] for the [semaphore_elem] at [w]. *)
Definition at_elem {A} (w : addr) (m : M sema_state A) : M cond_state A :=
  zoom_opt (fun s : cond_state => pair (fst s) <$> elems (snd s) !! w)
           (fun (t : sema_state) (s : cond_state) =>
              (fst t, set_elem w (snd t) (snd s)))
           m.

Definition cond_init : M cond_state unit :=
  on_monitor (set_cond_waiters []).

Definition priority_sort_cond_waiter (m : gmap addr semaphore)
    (a b : addr) : bool :=
  tag m a >? tag m b.

(** [cond_wait]; [w] is the address of the local [waiter]. *)
Definition cond_wait (w : addr) : M cond_state unit :=
  intr <- intr_context cctx ;;
  ASSERT (negb intr) ;;;
  held <- in_lock lock_held_by_current_thread ;;
  ASSERT held ;;;
  on_monitor (set_elem w (mkSema 0 [] 0)) ;;;
  at_elem w (sema_init 0) ;;;
  t <- thread_current cctx ;;
  curr_priority <- gets (fun s => priority_of (threads (fst s)) t) ;;
  at_elem w (on_sema (set_sema_priority curr_priority)) ;;;
  on_monitor (fun m =>
    set_cond_waiters
      (list_insert_ordered (priority_sort_cond_waiter (elems m))
         (cond_waiters m) w) m) ;;;
  in_lock lock_release ;;;
  at_elem w sema_down ;;;
  in_lock lock_acquire.

Definition cond_signal : M cond_state unit :=
  intr <- intr_context cctx ;;
  ASSERT (negb intr) ;;;
  held <- in_lock lock_held_by_current_thread ;;
  ASSERT held ;;;
  q <- gets (fun s => cond_waiters (snd s)) ;;
  match q with
  | w :: rest =>
      on_monitor (set_cond_waiters rest) ;;;
      at_elem w sema_up
  | [] => ret tt
  end.

End Cond.

(** ** Properties of queues *)

Module Queue.
Section Keyed.
Context {A : Type}.
Variable key : A -> Z.

(** No element has a higher key than one in front of it. *)
Definition descending (l : list A) : Prop :=
  StronglySorted (fun x y => key y <= key x) l.

(** [t] has the highest key of the arrivals [arr] and is the first to
    have arrived among those that have it: everything that came before
    has a strictly lower key, nothing that came after has a higher one. *)
Definition first_highest (arr : list A) (t : A) : Prop :=
  exists pre post,
    arr = pre ++ t :: post /\
    Forall (fun x => key x < key t) pre /\
    Forall (fun x => key x <= key t) post.

End Keyed.
End Queue.

Module TimerInv.
Import Timer.

(** The sleep queue is in ascending order of wake-up time. *)
Definition ascending (ts : gmap tid thread) (q : list tid) : Prop :=
  StronglySorted
    (fun a b => wakeup_time (thread_at ts a) <= wakeup_time (thread_at ts b)) q.

(** What holds of the sleep queue between operations: it is sorted,
    every member is blocked and appears once, and the tick counter is
    an [int64_t]. *)
Record sleep_ok (s : timer_state) : Prop := mkSleepOk {
  ok_sorted : ascending (threads (fst s)) (sleeping_threads (snd s));
  ok_blocked : Forall (fun t => is_blocked (threads (fst s)) t = true)
                 (sleeping_threads (snd s));
  ok_nodup : List.NoDup (sleeping_threads (snd s));
  ok_ticks : CInt.INT64_MIN <= ticks (snd s) <= CInt.INT64_MAX
}.

(** The thread table after [thread_unblock] of each of [woken]. *)
Definition unblock_all (woken : list tid) (ts : gmap tid thread) :
    gmap tid thread :=
  fold_left (fun m t => alter (set_status THREAD_READY) t m) woken ts.

Definition due_at (s : timer_state) (now : Z) (t : tid) : bool :=
  deadline s t <=? now.

(** Three threads go to sleep for 5, 1 and 3 ticks, then two ticks
    pass. *)
Definition naps : list event :=
  [EvSleep 1 5; EvSleep 2 1; EvSleep 3 3; EvTick; EvTick].

Definition nap_state : timer_state :=
  default (boot []) (run (boot [1; 2; 3]%nat) naps).

End TimerInv.

(** ** Scenarios and statements about the semaphore queue *)

Module Scenario.

(** The state a piece of code leaves behind, whether it returned or
    suspended its thread. *)
Definition after {S A} (r : res S A) (d : S) : S :=
  match r with
  | Ret _ s => s
  | Blk s => s
  | Panic => d
  end.

(** Thread [t] runs, interrupts on, not in an interrupt handler. *)
Definition as_thread (t : tid) (c : kctx) : kctx :=
  mkCtx (threads c) t false INTR_ON (calls c).

Definition four_threads : kctx :=
  mkCtx (list_to_map
           [(1%nat, mkThread THREAD_READY 5 0 0);
            (2%nat, mkThread THREAD_READY 7 0 0);
            (3%nat, mkThread THREAD_READY 10 0 0);
            (4%nat, mkThread THREAD_READY 1 0 0)])
        4%nat false INTR_ON [].

(** Thread 1 (priority 5) takes a lock; thread 2 (priority 7) and then
    thread 1 block on a semaphore whose count is 0; thread 3 (priority
    10) tries to take the lock and donates to thread 1.  The result is
    the kernel context and the semaphore as thread 4 finds them. *)
Definition stale_queue : sema_state :=
  let s1 := after (lock_acquire (as_thread 1 four_threads,
                                 mkLock None (mkSema 1 [] 0)))
              (four_threads, mkLock None (mkSema 1 [] 0)) in
  let s2 := after (sema_down (as_thread 2 (fst s1), mkSema 0 [] 0))
              (fst s1, mkSema 0 [] 0) in
  let s3 := after (sema_down (as_thread 1 (fst s2), snd s2)) s2 in
  let s4 := after (lock_acquire (as_thread 3 (fst s3), snd s1))
              (fst s3, snd s1) in
  (as_thread 4 (fst s4), snd s3).

(** The thread [sema_up] takes out of the waiter queue, the one that
    is in the queue before and not after, has the highest effective
    priority of the threads in the queue at that moment. *)
Definition wakes_highest (s : sema_state) : Prop :=
  forall s' t,
    sema_up s = Ret tt s' ->
    In t (waiters (snd s)) -> ~ In t (waiters (snd s')) ->
    forall x, In x (waiters (snd s)) ->
      priority_of (threads (fst s)) x <= priority_of (threads (fst s)) t.

(** Scheduler calls that must not be made while an interrupt is being
    handled: those that block the running thread or make it yield. *)
Definition forbidden_in_intr (e : sched_call) : bool :=
  match e with
  | CallBlock _ | CallYield _ => true
  | CallUnblock _ | CallTick => false
  end.

(** The state [sema_up] returns in. *)
Definition sema_up_result (c : kctx) (s : semaphore) : sema_state :=
  match waiters s with
  | [] =>
      (mkCtx (threads c) (cur c) (in_intr c) (level c) (calls c),
       mkSema (CInt.wrapu32 (value s + 1)) [] (sema_priority s))
  | t :: rest =>
      (mkCtx (alter (set_status THREAD_READY) t (threads c))
             (cur c) (in_intr c) (level c)
             (calls c ++ [CallUnblock t; CallYield (cur c)]),
       mkSema (CInt.wrapu32 (value s + 1)) rest (sema_priority s))
  end.

(** A monitor whose lock thread 4 holds.  Thread 1 waited first, with
    priority tag 5, then thread 2 and then thread 3, both with tag 7;
    each is blocked on the semaphore of its own [semaphore_elem]. *)
Definition three_waiters : monitor :=
  mkMonitor [2; 3; 1]%nat
    (mkLock (Some 4%nat) (mkSema 0 [] 0))
    (list_to_map
       [(1%nat, mkSema 0 [1%nat] 5);
        (2%nat, mkSema 0 [2%nat] 7);
        (3%nat, mkSema 0 [3%nat] 7)]).

End Scenario.

(** ** The lock invariant *)

Module LockInv.
Import Sys.

(** A lock is either free with count 1 or held with count 0. *)
Definition lock_ok (lk : lock) : Prop :=
  (holder lk = None /\ value (semaphore_of lk) = 1) \/
  (holder lk <> None /\ value (semaphore_of lk) = 0).

(** "holder set iff count == 0" *)
Definition holder_iff_zero (lk : lock) : Prop :=
  holder lk <> None <-> value (semaphore_of lk) = 0.

(** A piece of lock code keeps [lock_ok] at its return and at the
    point where it suspends. *)
Definition keeps_ok {A} (m : M lock_state A) : Prop :=
  forall c lk, lock_ok lk ->
    match m (c, lk) with
    | Ret _ s' => lock_ok (snd s')
    | Blk s' => lock_ok (snd s')
    | Panic => True
    end.

Definition sys_ok (s : system) : Prop :=
  forall l lk, locks s !! l = Some lk -> lock_ok lk.

(** Thread 1 takes lock 7 without blocking, thread 2 blocks on it,
    thread 1 releases it and thread 2 gets it. *)
Definition handover : list event :=
  [EvInit 7; EvTryAcquire 1 7; EvAcquire 2 7; EvRelease 1 7; EvResume 2].

Definition handover_state : system :=
  default (boot []) (run (boot [(1%nat, 1); (2%nat, 10)]) handover).

End LockInv.

(** ** The rest of threads/synch.c and devices/timer.c *)

(** Operations run several times in a row. *)
Module Batch.
Import Scenario.

(** [k] calls of [sema_try_down], with their results. *)
Fixpoint try_downs (k : nat) (s : sema_state) : list bool * sema_state :=
  match k with
  | O => ([], s)
  | S k' =>
      match sema_try_down s with
      | Ret b s' => (b :: fst (try_downs k' s'), snd (try_downs k' s'))
      | _ => ([], s)
      end
  end.

(** The threads of [arr] call [sema_down], one after the other. *)
Definition downs (arr : list tid) (s : sema_state) : sema_state :=
  fold_left (fun s t => after (sema_down (as_thread t (fst s), snd s)) s)
    arr s.

End Batch.

Module CondMore.
Import Cond.

(** [cond_wait] from the point where the caller, woken, is back in the
    loop of [sema_down] on its own semaphore. *)
Definition cond_wait_resume (w : addr) (old_level : intr_level) :
    M cond_state unit :=
  at_elem w (sema_down_loop old_level) ;;;
  in_lock lock_acquire.

(** [cond_wait] up to the return of its [lock_release].  When a
    thread waits for the lock, [lock_release] ends in the
    [thread_yield] of [sema_up], at which other threads run before
    the caller goes on to its [sema_down]. *)
Definition cond_wait_enter (w : addr) : M cond_state unit :=
  intr <- intr_context cctx ;;
  ASSERT (negb intr) ;;;
  held <- in_lock lock_held_by_current_thread ;;
  ASSERT held ;;;
  on_monitor (set_elem w (mkSema 0 [] 0)) ;;;
  at_elem w (sema_init 0) ;;;
  t <- thread_current cctx ;;
  curr_priority <- gets (fun s => priority_of (threads (fst s)) t) ;;
  at_elem w (on_sema (set_sema_priority curr_priority)) ;;;
  on_monitor (fun m =>
    set_cond_waiters
      (list_insert_ordered (priority_sort_cond_waiter (elems m))
         (cond_waiters m) w) m) ;;;
  in_lock lock_release.

(** One turn of the [while] loop of [cond_broadcast]: the test of the
    queue and, when it is not empty, [cond_signal].  The result is
    nothing when the loop ends, and otherwise the entry at the head of
    the queue with its semaphore as the turn finds them, which is the
    entry [cond_signal] takes. *)
Definition cond_broadcast_turn :
    M cond_state (option (addr * option semaphore)) :=
  q <- gets (fun s => cond_waiters (snd s)) ;;
  match q with
  | [] => ret None
  | w :: _ =>
      e <- gets (fun s => elems (snd s) !! w) ;;
      cond_signal ;;;
      ret (Some (w, e))
  end.

(** [cond_broadcast], run together with the rest of the kernel.  The
    caller can lose the CPU in every turn of the loop, at the
    [thread_yield] that ends [cond_signal] or by preemption;
    [others] gives, turn after turn, what the threads that run
    meanwhile make of the state before the caller tests the queue
    again.  The result is the list of the entries signalled with the
    outcome of the call, and nothing when [others] is used up before
    the loop ends. *)
Fixpoint cond_broadcast (others : list (cond_state -> cond_state))
    (s : cond_state) :
    option (list (addr * option semaphore) * res cond_state unit) :=
  match cond_broadcast_turn s with
  | Ret (Some we) s' =>
      match others with
      | f :: rest =>
          match cond_broadcast rest (f s') with
          | Some (log, r) => Some (we :: log, r)
          | None => None
          end
      | [] => None
      end
  | Ret None s' => Some ([], Ret tt s')
  | Blk s' => Some ([], Blk s')
  | Panic => Some ([], Panic)
  end.

(** What the caller of [cond_broadcast] finds when it has the CPU
    back in [s'] after losing it in [s].  It is the running thread
    again, outside interrupt context.  The lock is still its own, so
    that no other thread can have waited on the condition or
    signalled it.  The entries still in the queue, each on the stack
    of a thread that is blocked on it, are as they were. *)
Definition undisturbed (s s' : cond_state) : Prop :=
  cur (fst s') = cur (fst s) /\
  in_intr (fst s') = in_intr (fst s) /\
  holder (cond_lock (snd s')) = holder (cond_lock (snd s)) /\
  cond_waiters (snd s') = cond_waiters (snd s) /\
  forall w, In w (cond_waiters (snd s)) ->
    elems (snd s') !! w = elems (snd s) !! w.

(** [others] leaves the caller undisturbed each time it runs. *)
Fixpoint relies (others : list (cond_state -> cond_state))
    (s : cond_state) : Prop :=
  match others with
  | [] => True
  | f :: rest =>
      match cond_broadcast_turn s with
      | Ret (Some _) s' => undisturbed s' (f s') /\ relies rest (f s')
      | _ => True
      end
  end.

(** The thread [t] that a signal on entry [w] has woken runs: it
    goes on in [cond_wait] as far as it gets; then thread [b] has the
    CPU again. *)
Definition waiter_runs (t : tid) (w : addr) (b : tid)
    (s : cond_state) : cond_state :=
  let s1 :=
    Scenario.after
      (cond_wait_resume w INTR_ON
         (mkCtx (threads (fst s)) t false INTR_OFF (calls (fst s)), snd s))
      s in
  (mkCtx (threads (fst s1)) b false INTR_ON (calls (fst s1)), snd s1).

(** A broadcast by thread 4 to the three waiters of
    [three_waiters]: thread 2, the first to be woken, runs at the
    first [thread_yield], the others do not run before the broadcast
    is over.  The states are those at the first yield, at the second
    test of the queue, at the second yield and at the end. *)
Definition broadcast_start : cond_state :=
  (Scenario.four_threads, Scenario.three_waiters).
Definition broadcast_others : list (cond_state -> cond_state) :=
  [waiter_runs 2 2 4; fun s => s; fun s => s].
Definition first_yield : cond_state :=
  Scenario.after (cond_broadcast_turn broadcast_start) broadcast_start.
Definition second_test : cond_state := waiter_runs 2 2 4 first_yield.
Definition second_yield : cond_state :=
  Scenario.after (cond_broadcast_turn second_test) second_test.
Definition broadcast_end : cond_state :=
  Scenario.after (cond_broadcast_turn second_yield) second_yield.

End CondMore.

Module TimerMore.
Import Timer.

Definition timer_elapsed (then_ : Z) : M timer_state Z :=
  t <- timer_ticks ;;
  ret (CInt.wrap64 (t - then_)).

(** The number of timer interrupts in a run. *)
Definition interrupts (evs : list event) : Z :=
  Z.of_nat (length (List.filter (fun e => match e with EvTick => true | _ => false end) evs)).

Section RealTime.

(** [TIMER_FREQ] of devices/timer.h, which timer.c requires to lie
    between 19 and 1000, and [loops_per_tick], the static variable
    that [timer_calibrate] sets at boot. *)
Variable TIMER_FREQ : Z.
Variable loops_per_tick : Z.

(** [barrier ()] is a compiler barrier: no code runs. *)
Definition barrier : M timer_state unit := ret tt.

(** [while (loops-- > 0) barrier ();] runs its body [n] times. *)
Fixpoint busy_wait_loop (n : nat) : M timer_state unit :=
  match n with
  | O => ret tt
  | S n' => barrier ;;; busy_wait_loop n'
  end.

Definition busy_wait (loops : Z) : M timer_state unit :=
  busy_wait_loop (Z.to_nat loops).

(** [int64_t] multiplication and division (truncating). *)
Definition mul64 (a b : Z) : Z := CInt.wrap64 (a * b).
Definition div64 (a b : Z) : Z := CInt.wrap64 (Z.quot a b).

Definition real_time_delay (num denom : Z) : M timer_state unit :=
  ASSERT (Z.rem denom 1000 =? 0) ;;;
  busy_wait
    (div64 (mul64 (div64 (mul64 loops_per_tick num) 1000) TIMER_FREQ)
       (Z.quot denom 1000)).

Definition real_time_sleep (num denom : Z) : M timer_state unit :=
  let nticks := div64 (mul64 num TIMER_FREQ) denom in
  lv <- intr_get_level tctx ;;
  ASSERT (match lv with INTR_ON => true | INTR_OFF => false end) ;;;
  if nticks >? 0 then timer_sleep nticks
  else real_time_delay num denom.

Definition timer_msleep (ms : Z) : M timer_state unit :=
  real_time_sleep ms 1000.
Definition timer_usleep (us : Z) : M timer_state unit :=
  real_time_sleep us (1000 * 1000).
Definition timer_nsleep (ns : Z) : M timer_state unit :=
  real_time_sleep ns (1000 * 1000 * 1000).

Definition timer_mdelay (ms : Z) : M timer_state unit :=
  real_time_delay ms 1000.
Definition timer_udelay (us : Z) : M timer_state unit :=
  real_time_delay us (1000 * 1000).
Definition timer_ndelay (ns : Z) : M timer_state unit :=
  real_time_delay ns (1000 * 1000 * 1000).

End RealTime.

End TimerMore.

(** ** What the waiter queues of locks hold *)

Module WaitInv.

(** For every lock: no thread is queued twice; every queued thread is
    blocked and is suspended in [lock_acquire] on this very lock; the
    holder is not suspended in [lock_acquire] on the lock it holds. *)
Definition waiters_ok (ts : gmap tid thread) (lks : gmap lid lock)
    (pd : gmap tid (lid * intr_level)) : Prop :=
  forall l lk, lks !! l = Some lk ->
    List.NoDup (waiters (semaphore_of lk)) /\
    (forall t, In t (waiters (semaphore_of lk)) ->
       is_blocked ts t = true /\ exists old, pd !! t = Some (l, old)) /\
    (forall h old, holder lk = Some h -> pd !! h <> Some (l, old)).

(** The invariant on a whole system state. *)
Definition sys_waiters_ok (s : system) : Prop :=
  waiters_ok (threads (kc s)) (locks s) (pending s).

(** Three threads and two locks: threads 1 and 2 each take a lock,
    thread 3 blocks on lock 1 and thread 2 on lock 1 as well. *)
Definition contention : list Sys.event :=
  [Sys.EvInit 1; Sys.EvInit 2; Sys.EvAcquire 1 1; Sys.EvAcquire 2 2;
   Sys.EvAcquire 3 1; Sys.EvAcquire 2 1].

Definition contention_state : system :=
  default (Sys.boot [])
    (Sys.run (Sys.boot [(1%nat, 1); (2%nat, 5); (3%nat, 10)]) contention).

End WaitInv.

(** ** A semaphore and the threads woken on it *)

(** [sema_up] ends in [thread_yield] when it has woken a thread: the
    woken thread, and any thread woken earlier, may run there and go
    on in its [sema_down] before the caller of [sema_up] runs again.
    The semaphore operations themselves run with interrupts off. *)
Module SemaSched.

(** The kernel and the semaphore, and for every thread suspended in
    [sema_down] on it the [old_level] of its frame. *)
Record sched : Type := mkSched {
  sstate : sema_state;
  saved : gmap tid intr_level
}.

Inductive event : Type :=
| EvUp (u : tid)       (* thread u calls sema_up *)
| EvResume (t : tid).  (* a woken thread goes on in sema_down *)

Definition step (p : sched) (e : event) : option sched :=
  match e with
  | EvUp u =>
      if negb (is_blocked (threads (fst (sstate p))) u)
         && bool_decide (saved p !! u = None)
      then
        match sema_up (Scenario.as_thread u (fst (sstate p)),
                       snd (sstate p)) with
        | Ret _ s' => Some (mkSched s' (saved p))
        | _ => None
        end
      else None
  | EvResume t =>
      match saved p !! t with
      | Some old_level =>
          if negb (is_blocked (threads (fst (sstate p))) t) then
            match sema_down_loop old_level
                    (mkCtx (threads (fst (sstate p))) t false INTR_OFF
                           (calls (fst (sstate p))),
                     snd (sstate p)) with
            | Ret _ s' => Some (mkSched s' (delete t (saved p)))
            | Blk s' => Some (mkSched s' (saved p))
            | Panic => None
            end
          else None
      | None => None
      end
  end.

Fixpoint run (p : sched) (evs : list event) : option sched :=
  match evs with
  | [] => Some p
  | e :: evs' =>
      match step p e with
      | Some p' => run p' evs'
      | None => None
      end
  end.

(** The numbers of [sema_up] calls and of resumptions in a run. *)
Definition ups (evs : list event) : nat :=
  length (List.filter (fun e => match e with EvUp _ => true | _ => false end)
            evs).
Definition resumes (evs : list event) : nat :=
  length (List.filter
            (fun e => match e with EvResume _ => true | _ => false end) evs).

(** The threads on which [thread_unblock] was called, in order. *)
Definition unblocked (cl : list sched_call) : list tid :=
  flat_map (fun e => match e with CallUnblock t => [t] | _ => [] end) cl.

(** The threads among [l] that are still suspended in [sema_down]. *)
Definition suspended (sv : gmap tid intr_level) (l : list tid) : list tid :=
  List.filter (fun t => bool_decide (sv !! t <> None)) l.

(** What holds after [k] calls of [sema_up] and [r] resumptions on a
    semaphore that had count [v] and queue [q]. *)
Record progress (q : list tid) (v : Z) (cl : list sched_call)
    (k r : nat) (p : sched) : Prop := mkProgress {
  pg_queue : waiters (snd (sstate p)) = skipn k q;
  pg_value : value (snd (sstate p)) = v + Z.of_nat k - Z.of_nat r;
  pg_woken : (r + length (suspended (saved p) (firstn k q)) =
              length (firstn k q))%nat;
  pg_blocked : forall t, In t (skipn k q) ->
    is_blocked (threads (fst (sstate p))) t = true /\ saved p !! t <> None;
  pg_saved : forall t, saved p !! t <> None -> In t q;
  pg_calls : unblocked (calls (fst (sstate p))) = unblocked cl ++ firstn k q
}.

(** Threads 1, 2 and 3 (priorities 5, 7 and 10) are blocked on a
    semaphore of count 0. *)
Definition three_blocked : sched :=
  mkSched (Batch.downs [1; 2; 3]%nat
             (Scenario.four_threads, mkSema 0 [] 0))
          (list_to_map [(1%nat, INTR_ON); (2%nat, INTR_ON); (3%nat, INTR_ON)]).

(** Thread 4 calls [sema_up] three times; thread 3 runs at the first
    yield and thread 2 at the third. *)
Definition three_ups : list event :=
  [EvUp 4; EvResume 3; EvUp 4; EvUp 4; EvResume 2].

Definition three_ups_end : sched :=
  default three_blocked (run three_blocked three_ups).

End SemaSched.

(** ** Locks under preemption *)

(** Outside the semaphore operations the lock code runs with
    interrupts on, so a thread can lose the CPU between any two of its
    statements.  Here every lock operation is cut into the pieces that
    do run without interruption: the opening assertions with the
    access to the thread structures that follows them, the semaphore
    operation (which disables interrupts itself), and each write of
    [lock->holder].  Any runnable thread may run its next piece. *)
Module Preempt.
Import Sys.

(** [lock_acquire] up to its call of [sema_down]. *)
Definition lock_acquire_enter : M lock_state unit :=
  intr <- intr_context lctx ;;
  ASSERT (negb intr) ;;;
  held <- lock_held_by_current_thread ;;
  ASSERT (negb held) ;;;
  lock_donate.

(** [lock_try_acquire] up to the return of [sema_try_down]. *)
Definition lock_try_acquire_enter : M lock_state bool :=
  held <- lock_held_by_current_thread ;;
  ASSERT (negb held) ;;;
  in_semaphore sema_try_down.

(** [lock_release] up to [lock->holder->eff_priority = 0]. *)
Definition lock_release_enter : M lock_state unit :=
  held <- lock_held_by_current_thread ;;
  ASSERT held ;;;
  h <- gets (fun s => holder (snd s)) ;;
  match h with
  | Some hd =>
      on_ctx lctx upd_lctx (with_threads (alter (set_eff_priority 0) hd))
  | None => panic
  end.

(** [lock->holder = NULL] in [lock_release]. *)
Definition lock_release_clear : M lock_state unit :=
  on_lock (set_holder None).

(** Where a thread stands inside a lock operation. *)
Inductive lock_stage : Type :=
| BeforeDown (l : lid)    (* lock_acquire: about to call sema_down *)
| BeforeTake (l : lid)    (* the semaphore is taken, lock->holder not yet written *)
| BeforeClear (l : lid)   (* lock_release: about to write lock->holder = NULL *)
| BeforeUp (l : lid).     (* lock_release: holder cleared, about to call sema_up *)

(** The lock a thread is working on. *)
Definition stage_lock (st : lock_stage) : lid :=
  match st with
  | BeforeDown l | BeforeTake l | BeforeClear l | BeforeUp l => l
  end.

(** The kernel, and for every thread that is inside a lock operation
    and not suspended the point it has reached. *)
Record psystem : Type := mkPSystem {
  sys : system;
  inflight : gmap tid lock_stage
}.

Inductive event : Type :=
| EvInit (l : lid)                     (* lock_init, on an unused lock *)
| EvAcquire (t : tid) (l : lid)        (* lock_acquire is entered *)
| EvDown (t : tid)                     (* its sema_down *)
| EvResume (t : tid)                   (* a woken thread goes on in sema_down *)
| EvTake (t : tid)                     (* lock->holder = thread_current () *)
| EvTryAcquire (t : tid) (l : lid)     (* lock_try_acquire up to sema_try_down *)
| EvRelease (t : tid) (l : lid)        (* lock_release is entered *)
| EvClear (t : tid)                    (* lock->holder = NULL *)
| EvUp (t : tid)                       (* sema_up of lock_release *)
| EvIntrTryAcquire (t : tid) (l : lid). (* lock_try_acquire in a handler *)

(** A thread can start an operation when it is runnable and inside
    none. *)
Definition free (p : psystem) (t : tid) : bool :=
  idle (sys p) t && bool_decide (inflight p !! t = None).

(** No thread is inside an operation on lock [l]: the lock can be
    initialised, for the first time or again. *)
Definition unused (p : psystem) (l : lid) : bool :=
  bool_decide (map_Forall (fun _ st => stage_lock st <> l) (inflight p)).

(** An external interrupt arrives while thread [t] runs: the handler
    runs in interrupt context with interrupts off. *)
Definition interrupt (t : tid) (s : system) : system :=
  mkSystem (mkCtx (threads (kc s)) t true INTR_OFF (calls (kc s)))
           (locks s) (pending s).

(** Thread [t] runs the piece [m] of an operation on lock [l] and
    reaches [next]. *)
Definition lock_piece (p : psystem) (t : tid) (l : lid) (m : M lock_state unit)
    (next : option lock_stage) : option psystem :=
  if runnable (sys p) t then
    match at_lock l m (dispatch t INTR_ON (sys p)) with
    | Ret _ s' =>
        Some (mkPSystem s'
                (match next with
                 | Some st => <[t := st]> (inflight p)
                 | None => delete t (inflight p)
                 end))
    | _ => None
    end
  else None.

(** One uninterrupted piece of code.  [None] when the kernel panics
    or no thread can be at that point. *)
Definition step (p : psystem) (e : event) : option psystem :=
  match e with
  | EvInit l =>
      if unused p l then
        match init_lock l (sys p) with
        | Ret _ s' => Some (mkPSystem s' (inflight p))
        | _ => None
        end
      else None
  | EvAcquire t l =>
      if free p t then lock_piece p t l lock_acquire_enter (Some (BeforeDown l))
      else None
  | EvDown t =>
      match inflight p !! t with
      | Some (BeforeDown l) =>
          if runnable (sys p) t then
            match at_lock l (in_semaphore sema_down)
                    (dispatch t INTR_ON (sys p)) with
            | Ret _ s' =>
                Some (mkPSystem s' (<[t := BeforeTake l]> (inflight p)))
            | Blk s' =>
                Some (mkPSystem (with_pending <[t := (l, INTR_ON)]> s')
                        (delete t (inflight p)))
            | Panic => None
            end
          else None
      | _ => None
      end
  | EvResume t =>
      match pending (sys p) !! t with
      | Some (l, old_level) =>
          if runnable (sys p) t then
            match at_lock l (in_semaphore (sema_down_loop old_level))
                    (dispatch t INTR_OFF (sys p)) with
            | Ret _ s' =>
                Some (mkPSystem (with_pending (delete t) s')
                        (<[t := BeforeTake l]> (inflight p)))
            | Blk s' => Some (mkPSystem s' (inflight p))
            | Panic => None
            end
          else None
      | None => None
      end
  | EvTake t =>
      match inflight p !! t with
      | Some (BeforeTake l) => lock_piece p t l lock_take None
      | _ => None
      end
  | EvTryAcquire t l =>
      if free p t then
        match at_lock l lock_try_acquire_enter
                (dispatch t INTR_ON (sys p)) with
        | Ret true s' =>
            Some (mkPSystem s' (<[t := BeforeTake l]> (inflight p)))
        | Ret false s' => Some (mkPSystem s' (inflight p))
        | _ => None
        end
      else None
  | EvRelease t l =>
      if free p t then lock_piece p t l lock_release_enter (Some (BeforeClear l))
      else None
  | EvClear t =>
      match inflight p !! t with
      | Some (BeforeClear l) =>
          lock_piece p t l lock_release_clear (Some (BeforeUp l))
      | _ => None
      end
  | EvUp t =>
      match inflight p !! t with
      | Some (BeforeUp l) => lock_piece p t l (in_semaphore sema_up) None
      | _ => None
      end
  | EvIntrTryAcquire t l =>
      if idle (sys p) t then
        match at_lock l lock_try_acquire (interrupt t (sys p)) with
        | Ret _ s' => Some (mkPSystem s' (inflight p))
        | _ => None
        end
      else None
  end.

Fixpoint run (p : psystem) (evs : list event) : option psystem :=
  match evs with
  | [] => Some p
  | e :: evs' =>
      match step p e with
      | Some p' => run p' evs'
      | None => None
      end
  end.

Definition boot (prios : list (tid * Z)) : psystem :=
  mkPSystem (Sys.boot prios) ∅.

(** Thread [t] has the semaphore of lock [l] in hand while
    [lock->holder] is null: it is between [sema_down] (or a successful
    [sema_try_down]) and the write of the holder, or between the
    clearing of the holder and [sema_up]. *)
Definition in_window (fl : gmap tid lock_stage) (l : lid) (t : tid) : Prop :=
  fl !! t = Some (BeforeTake l) \/ fl !! t = Some (BeforeUp l).

(** The three conditions a lock can be in: free; held by [h]; or in
    the hands of exactly one thread [t] that is inside a window. *)
Definition lock_mode (fl : gmap tid lock_stage) (l : lid) (lk : lock) : Prop :=
  (holder lk = None /\ value (semaphore_of lk) = 1 /\
   (forall t, ~ in_window fl l t) /\
   (forall t, fl !! t <> Some (BeforeClear l)))
  \/
  (exists h, holder lk = Some h /\ value (semaphore_of lk) = 0 /\
     (forall t, ~ in_window fl l t) /\
     (forall t, fl !! t = Some (BeforeClear l) -> t = h))
  \/
  (exists t, holder lk = None /\ value (semaphore_of lk) = 0 /\
     in_window fl l t /\
     (forall t', in_window fl l t' -> t' = t) /\
     (forall t', fl !! t' <> Some (BeforeClear l))).

(** What holds between any two pieces: every lock is in one of the
    three conditions, and no thread suspended in [sema_down] is
    recorded at another point as well. *)
Definition locks_ok (p : psystem) : Prop :=
  (forall l lk, locks (sys p) !! l = Some lk -> lock_mode (inflight p) l lk) /\
  (forall t, pending (sys p) !! t <> None -> inflight p !! t = None).

(** Thread 1 calls [lock_acquire] on the free lock 7 and is preempted
    when its [sema_down] has returned. *)
Definition preempted : list event :=
  [EvInit 7; EvAcquire 1 7; EvDown 1].

Definition preempted_state : psystem :=
  default (boot []) (run (boot [(1%nat, 1); (2%nat, 10)]) preempted).

(** Thread 2 then calls [lock_try_acquire]: the state in which the
    call returns. *)
Definition try_acquire_returns : system :=
  Scenario.after
    (at_lock 7 lock_try_acquire (dispatch 2 INTR_ON (sys preempted_state)))
    (Sys.boot []).

(** The same call as a piece of the run, after which thread 1 goes on
    and writes the holder. *)
Definition interleaved : list event :=
  preempted ++ [EvTryAcquire 2 7; EvTake 1].

Definition interleaved_state : psystem :=
  default (boot []) (run (boot [(1%nat, 1); (2%nat, 10)]) interleaved).

End Preempt.

(** ** The sleep queue under preemption *)

(** [timer_sleep] runs with interrupts on until it calls
    [intr_disable]: the timer interrupt, and with it other threads,
    can come between any two of its statements.  Here it is cut into
    these statements, the call of [list_insert_ordered] being one of
    them; the interrupt handler runs with interrupts off and is one
    piece. *)
Module SleepPreempt.
Import Timer.

(** [if (ticks <= 0) return;] and [start = timer_ticks ()]: the start
    tick, or nothing when [timer_sleep] returns at once. *)
Definition timer_sleep_enter (nticks : Z) : M timer_state (option Z) :=
  if nticks <=? 0 then ret None
  else
    start <- timer_ticks ;;
    ret (Some start).

(** [sleepy->wakeup_time = start + ticks] *)
Definition timer_sleep_store (start nticks : Z) : M timer_state unit :=
  sleepy <- thread_current tctx ;;
  on_ctx tctx upd_tctx
    (with_threads
       (alter (set_wakeup_time (CInt.wrap64 (start + nticks))) sleepy)).

(** [list_insert_ordered (&sleeping_threads, ...)] *)
Definition timer_sleep_insert : M timer_state unit :=
  sleepy <- thread_current tctx ;;
  modify (fun s =>
    (fst s,
     set_sleeping_threads
       (list_insert_ordered (compare (threads (fst s)))
          (sleeping_threads (snd s)) sleepy)
       (snd s))).

(** [intr_disable ()], [thread_block ()] and what follows it. *)
Definition timer_sleep_block : M timer_state unit :=
  old_level <- intr_disable tctx upd_tctx ;;
  thread_block tctx upd_tctx ;;;
  intr_set_level tctx upd_tctx old_level.

(** [timer_sleep] from the return of [thread_block] on. *)
Definition timer_sleep_wake (old_level : intr_level) : M timer_state unit :=
  intr_set_level tctx upd_tctx old_level.

(** Where a thread stands inside [timer_sleep]. *)
Inductive sleep_stage : Type :=
| HasStart (start nticks : Z)  (* timer_ticks () has returned *)
| HasDeadline                  (* wakeup_time is written *)
| Queued                       (* inserted; intr_disable () not yet called *)
| Asleep.                      (* in thread_block, or woken and not yet run *)

Global Instance sleep_stage_eq_dec : EqDecision sleep_stage.
Proof. solve_decision. Defined.

Record ptimer : Type := mkPTimer {
  tstate : timer_state;
  sleepers : gmap tid sleep_stage
}.

Inductive event : Type :=
| EvSleep (t : tid) (nticks : Z)   (* timer_sleep is called *)
| EvStore (t : tid)                (* the wake-up time is written *)
| EvInsert (t : tid)               (* the thread is put in the queue *)
| EvBlock (t : tid)                (* intr_disable (); thread_block () *)
| EvWake (t : tid)                 (* thread_block () returns *)
| EvTick.                          (* the timer interrupt *)

(** Thread [t], woken, gets the CPU back inside [thread_block], where
    interrupts are off. *)
Definition resume (t : tid) (s : timer_state) : timer_state :=
  (mkCtx (threads (fst s)) t false INTR_OFF (calls (fst s)), snd s).

(** Thread [t], which is at [from], runs the piece [m] and reaches
    [next]. *)
Definition sleep_piece (p : ptimer) (t : tid) (from : option sleep_stage)
    (m : M timer_state unit) (next : sleep_stage) : option ptimer :=
  if bool_decide (sleepers p !! t = from)
     && negb (is_blocked (threads (fst (tstate p))) t)
  then
    match m (dispatch t (tstate p)) with
    | Ret _ s' => Some (mkPTimer s' (<[t := next]> (sleepers p)))
    | Blk s' => Some (mkPTimer s' (<[t := next]> (sleepers p)))
    | Panic => None
    end
  else None.

Definition step (p : ptimer) (e : event) : option ptimer :=
  match e with
  | EvSleep t nticks =>
      if bool_decide (sleepers p !! t = None)
         && negb (is_blocked (threads (fst (tstate p))) t)
      then
        match timer_sleep_enter nticks (dispatch t (tstate p)) with
        | Ret (Some start) s' =>
            Some (mkPTimer s' (<[t := HasStart start nticks]> (sleepers p)))
        | Ret None s' => Some (mkPTimer s' (sleepers p))
        | _ => None
        end
      else None
  | EvStore t =>
      match sleepers p !! t with
      | Some (HasStart start nticks) =>
          sleep_piece p t (Some (HasStart start nticks))
            (timer_sleep_store start nticks) HasDeadline
      | _ => None
      end
  | EvInsert t => sleep_piece p t (Some HasDeadline) timer_sleep_insert Queued
  | EvBlock t => sleep_piece p t (Some Queued) timer_sleep_block Asleep
  | EvWake t =>
      if bool_decide (sleepers p !! t = Some Asleep)
         && negb (is_blocked (threads (fst (tstate p))) t)
      then
        match timer_sleep_wake INTR_ON (resume t (tstate p)) with
        | Ret _ s' => Some (mkPTimer s' (delete t (sleepers p)))
        | _ => None
        end
      else None
  | EvTick =>
      match timer_interrupt (enter_intr (tstate p)) with
      | Ret _ s' => Some (mkPTimer (leave_intr s') (sleepers p))
      | _ => None
      end
  end.

Fixpoint run (p : ptimer) (evs : list event) : option ptimer :=
  match evs with
  | [] => Some p
  | e :: evs' =>
      match step p e with
      | Some p' => run p' evs'
      | None => None
      end
  end.

Definition boot (ts : list tid) : ptimer := mkPTimer (Timer.boot ts) ∅.

(** The number of timer interrupts in a run. *)
Definition interrupts_in (evs : list event) : Z :=
  Z.of_nat
    (length (List.filter
               (fun e => match e with EvTick => true | _ => false end) evs)).

Definition queue (p : ptimer) : list tid := sleeping_threads (snd (tstate p)).
Definition now (p : ptimer) : Z := ticks (snd (tstate p)).
Definition blocked (p : ptimer) (t : tid) : bool :=
  is_blocked (threads (fst (tstate p))) t.

(** What holds of the sleep queue between any two pieces: it is in
    ascending order of wake-up time, no thread is in it twice, every
    member is either blocked in [thread_block] or still between its
    insertion and its [intr_disable], and the tick counter is an
    [int64_t]. *)
Record queue_ok (p : ptimer) : Prop := mkQueueOk {
  qok_sorted : TimerInv.ascending (threads (fst (tstate p))) (queue p);
  qok_nodup : List.NoDup (queue p);
  qok_member : forall t, In t (queue p) ->
    sleepers p !! t = Some Queued \/
    (sleepers p !! t = Some Asleep /\ blocked p t = true);
  qok_ticks : CInt.INT64_MIN <= now p <= CInt.INT64_MAX
}.

(** Thread [t] called [timer_sleep (n)] when the tick counter was
    [start] and has not returned. *)
Record sleeping (t : tid) (start n : Z) (p : ptimer) : Prop := mkSleeping {
  sl_ok : queue_ok p;
  sl_live : threads (fst (tstate p)) !! t <> None;
  sl_stage :
    sleepers p !! t = Some (HasStart start n) \/
    (sleepers p !! t = Some HasDeadline /\
     deadline (tstate p) t = start + n) \/
    ((sleepers p !! t = Some Queued \/ sleepers p !! t = Some Asleep) /\
     In t (queue p) /\ deadline (tstate p) t = start + n)
}.

(** Thread [t] is inside [timer_sleep] past its insertion, and the
    sleep queue does not hold it. *)
Record stranded (t : tid) (p : ptimer) : Prop := mkStranded {
  st_ok : queue_ok p;
  st_out : ~ In t (queue p);
  st_stage :
    sleepers p !! t = Some Queued \/
    (sleepers p !! t = Some Asleep /\ blocked p t = true)
}.

(** Thread 1 sleeps for 2 ticks and blocks before the first tick;
    thread 2 goes to sleep for 5 ticks and is interrupted by that tick
    between its insertion and its [intr_disable]. *)
Definition nap_start : ptimer :=
  default (boot []) (step (boot [1; 2; 3]%nat) (EvSleep 1 2)).

Definition nap : list event :=
  [EvStore 1; EvInsert 1; EvSleep 2 5; EvStore 2; EvBlock 1; EvInsert 2;
   EvTick].

Definition nap_end : ptimer := default (boot []) (run nap_start nap).

(** Thread 1 sleeps for 1 tick and the tick arrives between its
    insertion and its [intr_disable]. *)
Definition race_start : ptimer :=
  default (boot []) (step (boot [1; 2]%nat) (EvSleep 1 1)).

Definition race : list event := [EvStore 1; EvInsert 1].

Definition race_end : ptimer := default (boot []) (run race_start race).

End SleepPreempt.

(** * Proofs *)

(** Run a piece of kernel code symbolically: unfold the monad, the
    scheduler interface and the record updates, and nothing else. *)
Ltac kernel_eval :=
  cbv [Sema.sema_init Sema.sema_down Sema.sema_down_loop Sema.sema_try_down
       Sema.sema_up Sema.sctx Sema.upd_sctx Sema.on_sema
       Lock.lock_init Lock.lock_acquire Lock.lock_acquire_resume
       Lock.lock_try_acquire Lock.lock_release Lock.lock_donate
       Lock.lock_take Lock.lock_held_by_current_thread Lock.in_semaphore
       Lock.lctx Lock.upd_lctx Lock.on_lock
       Cond.cond_init Cond.cond_wait Cond.cond_signal Cond.in_lock
       Cond.cctx Cond.upd_cctx Cond.on_monitor Cond.set_cond_waiters
       thread_block thread_unblock thread_yield thread_tick thread_current
       intr_context intr_get_level intr_set_level intr_disable on_ctx
       Kernel.zoom Kernel.bind Kernel.ret Kernel.gets Kernel.get
       Kernel.modify Kernel.suspend Kernel.panic Kernel.ASSERT
       with_threads with_level with_call with_cur
       set_value set_waiters set_sema_priority set_holder set_semaphore
       threads cur in_intr level calls
       value waiters sema_priority holder semaphore_of
       cond_waiters cond_lock elems
       fst snd negb].

(** * C integers *)

Module CIntFacts.
Import CInt.

Lemma wrap64_id z : INT64_MIN <= z <= INT64_MAX -> wrap64 z = z.
Proof.
  unfold wrap64, INT64_MIN, INT64_MAX. intros Hz.
  rewrite Z.mod_small; lia.
Qed.

Lemma wrap64_range (z : Z) : INT64_MIN <= wrap64 z <= INT64_MAX.
Proof.
  unfold wrap64, INT64_MIN, INT64_MAX.
  pose proof (Z.mod_pos_bound (z + 2 ^ 63) (2 ^ 64) ltac:(lia)). lia.
Qed.

Lemma wrapu32_id z : 0 <= z <= UINT_MAX -> wrapu32 z = z.
Proof.
  unfold wrapu32, UINT_MAX. intros Hz. apply Z.mod_small. lia.
Qed.

End CIntFacts.

(** * Ordered insertion *)

Module QueueFacts.
Import Queue.
Section Keyed.
Context {A : Type}.
Variable key : A -> Z.
Variable less : A -> A -> bool.
Hypothesis less_spec : forall x y, less x y = (key y <? key x).

Lemma insert_In (l : list A) (x y : A) :
  In y (list_insert_ordered less l x) <-> y = x \/ In y l.
Proof.
  induction l as [| e l IH]; cbn.
  - intuition.
  - destruct (less x e); cbn; [intuition |].
    rewrite IH. intuition.
Qed.

Lemma insert_descending (l : list A) (x : A) :
  descending key l -> descending key (list_insert_ordered less l x).
Proof.
  unfold descending.
  induction l as [| e l IH]; cbn; intros Hl.
  - constructor; [constructor | constructor].
  - apply StronglySorted_inv in Hl. destruct Hl as [Hl He].
    destruct (less x e) eqn:Hx; rewrite less_spec in Hx.
    + apply Z.ltb_lt in Hx. constructor.
      * constructor; assumption.
      * constructor; [lia |].
        eapply List.Forall_impl; [| exact He]. cbn. intros a Ha. lia.
    + apply Z.ltb_ge in Hx. constructor; [apply IH; exact Hl |].
      apply List.Forall_forall. intros y Hy. apply insert_In in Hy.
      destruct Hy as [-> | Hy]; [exact Hx |].
      rewrite List.Forall_forall in He. apply He. exact Hy.
Qed.

Lemma enqueue_all_snoc (arr : list A) (x : A) :
  enqueue_all less (arr ++ [x]) =
  list_insert_ordered less (enqueue_all less arr) x.
Proof. unfold enqueue_all. rewrite fold_left_app. reflexivity. Qed.

Lemma enqueue_all_In (arr : list A) (y : A) :
  In y (enqueue_all less arr) <-> In y arr.
Proof.
  induction arr as [| x arr IH] using rev_ind.
  - reflexivity.
  - rewrite enqueue_all_snoc, insert_In, IH, in_app_iff. cbn. intuition.
Qed.

Lemma enqueue_all_descending (arr : list A) :
  descending key (enqueue_all less arr).
Proof.
  induction arr as [| x arr IH] using rev_ind.
  - constructor.
  - rewrite enqueue_all_snoc. apply insert_descending. exact IH.
Qed.

Lemma descending_head (t : A) (rest : list A) :
  descending key (t :: rest) -> Forall (fun x => key x <= key t) rest.
Proof. intros H. apply StronglySorted_inv in H. apply H. Qed.

(** A queue already in order is what its own elements, arriving in
    that order, build. *)
Lemma enqueue_all_sorted (q : list A) :
  descending key q -> enqueue_all less q = q.
Proof.
  induction q as [| x q IH] using rev_ind; [reflexivity |].
  intros Hq. rewrite enqueue_all_snoc.
  assert (Hq' : descending key q).
  { clear IH. induction q as [| e q IHq]; [constructor |].
    cbn in Hq. apply StronglySorted_inv in Hq. destruct Hq as [Hs Hf].
    constructor; [apply IHq; exact Hs |].
    apply List.Forall_app in Hf. apply Hf. }
  rewrite (IH Hq'). clear IH Hq'.
  induction q as [| e q IHq]; [reflexivity |].
  cbn in *. apply StronglySorted_inv in Hq. destruct Hq as [Hs Hf].
  apply List.Forall_app in Hf. destruct Hf as [_ Hx].
  apply List.Forall_inv in Hx.
  rewrite less_spec.
  destruct (key e <? key x) eqn:He; [apply Z.ltb_lt in He; lia |].
  f_equal. apply IHq. exact Hs.
Qed.

(** The head of the queue is the first of the highest arrivals. *)
Lemma enqueue_all_head (arr : list A) : forall t rest,
  enqueue_all less arr = t :: rest -> first_highest key arr t.
Proof.
  induction arr as [| x arr IH] using rev_ind; intros t rest.
  - discriminate.
  - rewrite enqueue_all_snoc.
    destruct (enqueue_all less arr) as [| t0 r0] eqn:Hq; cbn.
    + intros [= <- <-].
      assert (arr = []) as ->.
      { destruct arr as [| a arr']; [reflexivity |].
        assert (In a (enqueue_all less (a :: arr'))) as Hin
          by (apply enqueue_all_In; left; reflexivity).
        rewrite Hq in Hin. destruct Hin. }
      exists [], []. repeat split; constructor.
    + pose proof (enqueue_all_descending arr) as Hd. rewrite Hq in Hd.
      apply descending_head in Hd.
      destruct (IH t0 r0 eq_refl) as (pre & post & Harr & Hpre & Hpost).
      rewrite less_spec.
      destruct (key t0 <? key x) eqn:Hx.
      * apply Z.ltb_lt in Hx. intros [= <- <-].
        exists arr, []. split; [reflexivity |].
        split; [| constructor].
        apply List.Forall_forall. intros y Hy.
        assert (In y (t0 :: r0)) as Hin
          by (rewrite <- Hq; apply enqueue_all_In; exact Hy).
        destruct Hin as [<- | Hin]; [exact Hx |].
        rewrite List.Forall_forall in Hd. specialize (Hd y Hin). lia.
      * apply Z.ltb_ge in Hx. intros [= <- <-].
        exists pre, (post ++ [x]). subst arr.
        split; [rewrite <- app_assoc; reflexivity |].
        split; [exact Hpre |].
        apply List.Forall_app. split; [exact Hpost |].
        constructor; [exact Hx | constructor].
Qed.

(** The first of the highest arrivals goes to the head, and the rest
    of the queue is what the other arrivals, in their order, build. *)
Lemma enqueue_all_first (pre post : list A) (t : A) :
  Forall (fun x => key x < key t) pre ->
  Forall (fun x => key x <= key t) post ->
  enqueue_all less (pre ++ t :: post) = t :: enqueue_all less (pre ++ post).
Proof.
  intros Hpre. induction post as [| x post IH] using rev_ind; intros Hpost.
  - rewrite app_nil_r, enqueue_all_snoc.
    assert (Hall : Forall (fun x => key x < key t) (enqueue_all less pre)).
    { apply List.Forall_forall. intros y Hy. apply -> enqueue_all_In in Hy.
      rewrite List.Forall_forall in Hpre. apply Hpre. exact Hy. }
    destruct Hall as [| e l He _]; [reflexivity |].
    cbn. rewrite less_spec.
    destruct (Z.ltb_spec (key e) (key t)); [reflexivity | lia].
  - apply List.Forall_app in Hpost. destruct Hpost as [Hpost Hx].
    apply List.Forall_inv in Hx.
    replace (pre ++ t :: post ++ [x]) with ((pre ++ t :: post) ++ [x])
      by (rewrite <- app_assoc; reflexivity).
    rewrite enqueue_all_snoc, (IH Hpost). cbn. rewrite less_spec.
    destruct (Z.ltb_spec (key t) (key x)); [lia |].
    rewrite app_assoc, enqueue_all_snoc. reflexivity.
Qed.

(** Taking the head off the queue leaves the queue of the remaining
    arrivals. *)
Lemma enqueue_all_pop (arr : list A) (t : A) (rest : list A) :
  enqueue_all less arr = t :: rest ->
  exists pre post,
    arr = pre ++ t :: post /\
    Forall (fun x => key x < key t) pre /\
    Forall (fun x => key x <= key t) post /\
    rest = enqueue_all less (pre ++ post).
Proof.
  intros Hq. destruct (enqueue_all_head arr t rest Hq)
    as (pre & post & -> & Hpre & Hpost).
  exists pre, post. repeat split; try assumption.
  rewrite (enqueue_all_first pre post t Hpre Hpost) in Hq.
  congruence.
Qed.

End Keyed.

Lemma insert_ext {A} (less1 less2 : A -> A -> bool) (l : list A) (x : A) :
  (forall y, In y l -> less1 x y = less2 x y) ->
  list_insert_ordered less1 l x = list_insert_ordered less2 l x.
Proof.
  induction l as [| e l IH]; intros Heq; [reflexivity |].
  cbn. rewrite (Heq e (or_introl eq_refl)).
  destruct (less2 x e); [reflexivity |].
  f_equal. apply IH. intros y Hy. apply Heq. right. exact Hy.
Qed.

Lemma enqueue_all_ext {A} (less1 less2 : A -> A -> bool) (arr : list A) :
  (forall x y, In x arr -> In y arr -> less1 x y = less2 x y) ->
  enqueue_all less1 arr = enqueue_all less2 arr.
Proof.
  induction arr as [| x arr IH] using rev_ind; intros Heq; [reflexivity |].
  rewrite !enqueue_all_snoc, IH.
  - apply insert_ext. intros y Hy.
    apply (proj1 (enqueue_all_In less2 arr y)) in Hy.
    apply Heq; apply in_app_iff; [right; left; reflexivity | left; exact Hy].
  - intros a b Ha Hb. apply Heq; apply in_app_iff; left; assumption.
Qed.

End QueueFacts.

(** * Semaphores *)

Module SemaFacts.
Import Queue QueueFacts Scenario.

Lemma sema_up_spec (c : kctx) (s : semaphore) :
  sema_up (c, s) = Ret tt (sema_up_result c s).
Proof.
  destruct c as [ts cu ii lv cl], s as [v w p].
  unfold sema_up_result. destruct w as [| t rest]; kernel_eval.
  - reflexivity.
  - rewrite <- app_assoc. reflexivity.
Qed.

Lemma priority_ordering_wait_spec (ts : gmap tid thread) (a b : tid) :
  priority_ordering_wait ts a b = (priority_of ts b <? priority_of ts a).
Proof. unfold priority_ordering_wait. apply Z.gtb_ltb. Qed.

(** C3, amended.  [sema_up] always adds one to the count.  When the
    waiter queue is not empty it removes and unblocks the thread at
    the head of the queue.  A thread is put in its place in the queue
    when it blocks: the head has the highest effective priority of
    the waiters, and is the earliest arrival among those that have
    it, when the queue is the one that ordered insertion of the
    waiters, in their order of arrival, gives with the effective
    priorities they have at the moment of the wake event. *)
Theorem sema_up_wakes_head (c : kctx) (s : semaphore) :
  0 <= value s < CInt.UINT_MAX ->
  exists c' s',
    sema_up (c, s) = Ret tt (c', s') /\
    value s' = value s + 1 /\
    match waiters s with
    | [] =>
        waiters s' = [] /\ threads c' = threads c /\ calls c' = calls c
    | t :: rest =>
        waiters s' = rest /\
        threads c' = alter (set_status THREAD_READY) t (threads c) /\
        calls c' = calls c ++ [CallUnblock t; CallYield (cur c)] /\
        forall arr,
          enqueue_all (priority_ordering_wait (threads c)) arr = waiters s ->
          first_highest (priority_of (threads c)) arr t
    end.
Proof.
  intros Hv. rewrite sema_up_spec. unfold sema_up_result.
  destruct (waiters s) as [| t rest] eqn:Hw; eexists _, _;
    (split; [reflexivity |]); cbn [value waiters threads calls];
    (split; [apply CIntFacts.wrapu32_id; lia |]).
  - repeat split.
  - repeat split. intros arr Harr.
    eapply enqueue_all_head; [apply priority_ordering_wait_spec | exact Harr].
Qed.

Lemma sema_up_wakes_head_witness :
  exists c' s',
    sema_up (four_threads, mkSema 0 [3; 2; 1]%nat 0) = Ret tt (c', s') /\
    value s' = 1 /\
    waiters s' = [2; 1]%nat /\
    calls c' = [CallUnblock 3; CallYield 4] /\
    first_highest (priority_of (threads four_threads)) [1; 3; 2]%nat 3%nat.
Proof.
  destruct (sema_up_wakes_head four_threads (mkSema 0 [3; 2; 1]%nat 0))
    as (c' & s' & Hrun & Hval & Hq & _ & Hcalls & Hfifo).
  - unfold CInt.UINT_MAX. cbn. lia.
  - exists c', s'.
    split; [exact Hrun |]. split; [exact Hval |]. split; [exact Hq |].
    split; [exact Hcalls |].
    apply Hfifo. vm_compute. reflexivity.
Defined.

(** C3 as stated fails: in [stale_queue] thread 1 has effective
    priority 10 after the donation, but it sits behind thread 2, of
    priority 7, which is the one [sema_up] wakes. *)
Lemma sema_up_stale_queue :
  waiters (snd stale_queue) = [2; 1]%nat /\
  priority_of (threads (fst stale_queue)) 1%nat = 10 /\
  priority_of (threads (fst stale_queue)) 2%nat = 7 /\
  (exists s', sema_up stale_queue = Ret tt s' /\
              waiters (snd s') = [1%nat] /\
              calls (fst s') =
                calls (fst stale_queue) ++ [CallUnblock 2; CallYield 4]) /\
  ~ wakes_highest stale_queue.
Proof.
  split; [vm_compute; reflexivity |].
  split; [vm_compute; reflexivity |].
  split; [vm_compute; reflexivity |].
  split.
  - eexists. split; [vm_compute; reflexivity |].
    split; vm_compute; reflexivity.
  - intros H.
    specialize (H (sema_up_result (fst stale_queue) (snd stale_queue)) 2%nat).
    assert (Hle : priority_of (threads (fst stale_queue)) 1%nat <=
                  priority_of (threads (fst stale_queue)) 2%nat).
    { apply H.
      - destruct stale_queue as [c s]. apply sema_up_spec.
      - vm_compute. left. reflexivity.
      - vm_compute. intros [Heq | []]. discriminate.
      - vm_compute. right. left. reflexivity. }
    vm_compute in Hle. apply Hle. reflexivity.
Qed.

(** C5.  Called while an interrupt is handled, on a semaphore that has
    a waiter, [sema_up] unblocks the waiter and then calls
    [thread_yield]. *)
Theorem sema_up_yields_in_interrupt (c : kctx) (v p : Z) (t : tid)
    (rest : list tid) :
  exists c' s',
    sema_up (mkCtx (threads c) (cur c) true INTR_OFF (calls c),
             mkSema v (t :: rest) p) = Ret tt (c', s') /\
    in_intr c' = true /\
    calls c' = calls c ++ [CallUnblock t; CallYield (cur c)] /\
    existsb forbidden_in_intr [CallUnblock t; CallYield (cur c)] = true.
Proof.
  rewrite sema_up_spec. eexists _, _. split; [reflexivity |].
  cbn. repeat split.
Qed.

End SemaFacts.

(** * The lock invariant *)

Module LockInvFacts.
Import Sys LockInv.

(** Unfold the lock and semaphore code, keeping the kernel context
    abstract. *)
Ltac lock_eval :=
  unfold lock_init, lock_acquire, lock_acquire_resume, lock_try_acquire,
    lock_release, lock_donate, lock_take, lock_held_by_current_thread,
    in_semaphore, sema_init, sema_down, sema_down_loop, sema_try_down,
    sema_up, thread_block, thread_unblock, thread_yield, thread_current,
    intr_context, intr_disable, intr_set_level, intr_get_level, on_ctx,
    on_lock, on_sema, zoom, bind, ret, gets, modify, suspend, panic, ASSERT;
  cbn.

Lemma lock_ok_iff lk : lock_ok lk -> holder_iff_zero lk.
Proof.
  unfold lock_ok, holder_iff_zero.
  intros [[Hh Hv] | [Hh Hv]]; rewrite Hv; split; intros H;
    try congruence; try lia.
Qed.

Lemma lock_init_ok c lk :
  exists c' lk', lock_init (c, lk) = Ret tt (c', lk') /\ lock_ok lk'.
Proof.
  lock_eval. eexists _, _. split; [reflexivity |]. left. cbn. auto.
Qed.

Lemma lock_acquire_resume_ok old : keeps_ok (lock_acquire_resume old).
Proof.
  intros c [h [v w p]] Hok. lock_eval.
  destruct Hok as [[Hh Hv] | [Hh Hv]]; cbn in *; subst v; cbn.
  - right. cbn. split; [discriminate | reflexivity].
  - right. cbn. auto.
Qed.

Lemma lock_acquire_ok : keeps_ok lock_acquire.
Proof.
  intros c [h [v w p]] Hok. lock_eval.
  destruct (in_intr c) eqn:Hi; cbn; [exact I |].
  destruct (bool_decide (h = Some (cur c))); cbn; [exact I |].
  destruct Hok as [[Hh Hv] | [Hh Hv]]; cbn in *; subst v.
  - subst h. cbn. rewrite Hi. cbn. right. cbn.
    split; [discriminate | reflexivity].
  - destruct h as [hd |]; [| congruence]. cbn. rewrite Hi. cbn.
    right. cbn. auto.
Qed.

Lemma lock_try_acquire_ok : keeps_ok lock_try_acquire.
Proof.
  intros c [h [v w p]] Hok. lock_eval.
  destruct (bool_decide (h = Some (cur c))); cbn; [exact I |].
  destruct Hok as [[Hh Hv] | [Hh Hv]]; cbn in *; subst v; cbn.
  - right. cbn. split; [discriminate | reflexivity].
  - right. cbn. auto.
Qed.

Lemma lock_release_ok : keeps_ok lock_release.
Proof.
  intros c [h [v w p]] Hok. lock_eval.
  destruct (bool_decide_reflect (h = Some (cur c))) as [-> |]; cbn;
    [| exact I].
  destruct Hok as [[Hh Hv] | [Hh Hv]]; cbn in *; [discriminate |].
  subst v. destruct w as [| t w']; cbn; left; cbn; auto.
Qed.

(** The invariant is one of operation boundaries: inside
    [lock_acquire] on a free lock, when [sema_down] has returned and
    the holder is not yet written, the count is 0 and the holder is
    still null. *)
Remark holder_lags_count (c : kctx) :
  in_intr c = false ->
  in_semaphore sema_down (c, mkLock None (mkSema 1 [] 0)) =
  Ret tt (c, mkLock None (mkSema 0 [] 0)).
Proof.
  intros Hi. destruct c as [ts cu ii lv cl]. cbn in Hi. subst ii.
  reflexivity.
Qed.

Lemma sys_ok_insert s c l lk pd :
  sys_ok s -> lock_ok lk ->
  sys_ok (mkSystem c (<[l := lk]> (locks s)) pd).
Proof.
  intros Hs Hlk l' lk'. cbn. rewrite lookup_insert.
  case_decide; [intros [= <-]; exact Hlk | apply Hs].
Qed.

Lemma at_lock_keeps {A} l (m : M lock_state A) s :
  keeps_ok m -> sys_ok s ->
  match at_lock l m s with
  | Ret _ s' => sys_ok s'
  | Blk s' => sys_ok s'
  | Panic => True
  end.
Proof.
  intros Hm Hs. unfold at_lock, zoom_opt.
  destruct (locks s !! l) as [lk |] eqn:Hl; cbn; [| exact I].
  specialize (Hm (kc s) lk (Hs l lk Hl)).
  destruct (m (kc s, lk)) as [a [c' lk'] | [c' lk'] |]; cbn in *;
    try exact I; apply sys_ok_insert; assumption.
Qed.

Lemma sys_ok_dispatch t lv s : sys_ok s -> sys_ok (dispatch t lv s).
Proof. intros Hs. exact Hs. Qed.

Lemma sys_ok_with_pending f s : sys_ok s -> sys_ok (with_pending f s).
Proof. intros Hs. exact Hs. Qed.

Lemma step_ok s e s' : sys_ok s -> step s e = Some s' -> sys_ok s'.
Proof.
  intros Hs. destruct e as [l | t l | t | t l | t l]; unfold step.
  - unfold init_lock.
    destruct (lock_init_ok (kc s) (mkLock None (mkSema 0 [] 0)))
      as (c' & lk' & -> & Hok).
    intros [= <-]. apply sys_ok_insert; assumption.
  - destruct (idle s t); [| discriminate].
    pose proof (at_lock_keeps l lock_acquire (dispatch t INTR_ON s)
                  lock_acquire_ok (sys_ok_dispatch _ _ _ Hs)) as H.
    destruct (at_lock l lock_acquire (dispatch t INTR_ON s));
      intros [= <-]; try apply sys_ok_with_pending; exact H.
  - destruct (pending s !! t) as [[l old] |]; [| discriminate].
    destruct (runnable s t); [| discriminate].
    pose proof (at_lock_keeps l (lock_acquire_resume old)
                  (dispatch t INTR_OFF s)
                  (lock_acquire_resume_ok old)
                  (sys_ok_dispatch _ _ _ Hs)) as H.
    destruct (at_lock l (lock_acquire_resume old) (dispatch t INTR_OFF s));
      intros [= <-]; try apply sys_ok_with_pending; exact H.
  - destruct (idle s t); [| discriminate].
    pose proof (at_lock_keeps l lock_try_acquire (dispatch t INTR_ON s)
                  lock_try_acquire_ok (sys_ok_dispatch _ _ _ Hs)) as H.
    destruct (at_lock l lock_try_acquire (dispatch t INTR_ON s));
      intros [= <-]; exact H.
  - destruct (idle s t); [| discriminate].
    pose proof (at_lock_keeps l lock_release (dispatch t INTR_ON s)
                  lock_release_ok (sys_ok_dispatch _ _ _ Hs)) as H.
    destruct (at_lock l lock_release (dispatch t INTR_ON s));
      intros [= <-]; exact H.
Qed.

Lemma run_ok evs : forall s s',
  sys_ok s -> run s evs = Some s' -> sys_ok s'.
Proof.
  induction evs as [| e evs IH]; intros s s' Hs; cbn.
  - intros [= <-]. exact Hs.
  - destruct (step s e) as [s1 |] eqn:He; [| discriminate].
    apply IH. eapply step_ok; eassumption.
Qed.

(** Operations that are not preempted.  Start from a kernel in which
    no lock has been initialised and let threads call [lock_init],
    [lock_acquire], [lock_try_acquire] and [lock_release], each
    running to its return or to the point where it suspends its
    thread before another thread runs.  After every one of these
    operations, for every lock that exists, the holder is non-null if
    and only if the count of the lock's semaphore is 0. *)
Theorem lock_holder_iff_count_zero (s0 s : system) (evs : list event)
    (l : lid) (lk : lock) :
  locks s0 = ∅ ->
  run s0 evs = Some s ->
  locks s !! l = Some lk ->
  holder lk <> None <-> value (semaphore_of lk) = 0.
Proof.
  intros Hempty Hrun Hl.
  apply lock_ok_iff.
  apply (run_ok evs s0 s) with (l := l); [| exact Hrun | exact Hl].
  intros l' lk'. rewrite Hempty, lookup_empty. discriminate.
Qed.

Lemma lock_holder_iff_count_zero_witness :
  run (boot [(1%nat, 1); (2%nat, 10)]) handover = Some handover_state /\
  locks handover_state !! 7%nat = Some (mkLock (Some 2%nat) (mkSema 0 [] 0)) /\
  (holder (mkLock (Some 2%nat) (mkSema 0 [] 0)) <> None <->
   value (semaphore_of (mkLock (Some 2%nat) (mkSema 0 [] 0))) = 0).
Proof.
  split; [vm_compute; reflexivity |].
  split; [vm_compute; reflexivity |].
  apply (lock_holder_iff_count_zero
           (boot [(1%nat, 1); (2%nat, 10)]) handover_state handover 7%nat).
  - reflexivity.
  - vm_compute. reflexivity.
  - vm_compute. reflexivity.
Defined.

End LockInvFacts.

(** * Priority donation *)

Module DonationFacts.
Import Sys Donation Scenario.

Lemma effective_priority_max (t : thread) :
  effective_priority t = Z.max (eff_priority t) (priority t).
Proof.
  unfold effective_priority.
  destruct (Z.gtb_spec (eff_priority t) (priority t)); lia.
Qed.

(** The donation step writes the caller's effective priority into the
    holder's [eff_priority], whatever was there. *)
Lemma lock_donate_spec (c : kctx) (lk : lock) (hd : tid) :
  holder lk = Some hd ->
  lock_donate (c, lk) =
  Ret tt
    (mkCtx (alter (set_eff_priority (priority_of (threads c) (cur c))) hd
              (threads c))
           (cur c) (in_intr c) (level c) (calls c),
     lk).
Proof.
  intros Hh. destruct c, lk. cbn in Hh. subst. kernel_eval. reflexivity.
Qed.

(** After the donation step the holder's effective priority is the
    greater of its base priority and the caller's effective priority. *)
Lemma lock_donate_effective (c : kctx) (lk : lock) (hd : tid) (th : thread) :
  holder lk = Some hd ->
  threads c !! hd = Some th ->
  exists c',
    lock_donate (c, lk) = Ret tt (c', lk) /\
    priority_of (threads c') hd =
      Z.max (priority_of (threads c) (cur c)) (priority th).
Proof.
  intros Hh Hth. rewrite (lock_donate_spec c lk hd Hh).
  eexists. split; [reflexivity |].
  cbn [threads]. unfold priority_of at 1, thread_at.
  rewrite lookup_alter_eq, Hth. cbn.
  rewrite effective_priority_max. reflexivity.
Qed.

(** [lock_release] by the holder clears the holder and leaves the
    releasing thread with [eff_priority] 0, so with its base priority
    when that is not negative. *)
Lemma lock_release_effective (c : kctx) (lk : lock) (th : thread) :
  holder lk = Some (cur c) ->
  threads c !! cur c = Some th ->
  exists c' lk',
    lock_release (c, lk) = Ret tt (c', lk') /\
    holder lk' = None /\
    priority_of (threads c') (cur c) = Z.max 0 (priority th).
Proof.
  intros Hh Hth. destruct c as [ts cu ii lv cl], lk as [h [v w p]].
  cbn in Hh, Hth. subst h. kernel_eval.
  rewrite bool_decide_eq_true_2 by reflexivity.
  destruct w as [| t rest]; eexists _, _;
    (split; [reflexivity |]); (split; [reflexivity |]);
    unfold priority_of, thread_at.
  - rewrite lookup_alter_eq, Hth. cbn. rewrite effective_priority_max. reflexivity.
  - destruct (decide (t = cu)) as [-> | Hne].
    + rewrite !lookup_alter_eq, Hth. cbn. rewrite effective_priority_max. reflexivity.
    + rewrite lookup_alter_ne by exact Hne.
      rewrite lookup_alter_eq, Hth. cbn. rewrite effective_priority_max. reflexivity.
Qed.

(** C1.  In [two_locks_held] thread 1 (base priority 1) holds locks
    1 and 2 and thread 2 (priority 10) is blocked on lock 2, so
    thread 1 runs at priority 10.  When thread 1 releases lock 1 it
    should keep the priority of the donor on lock 2, which it still
    holds; it falls to its base priority. *)
Theorem lock_release_drops_other_donors :
  run (boot [(1%nat, 1); (2%nat, 10)])
      [EvInit 1; EvInit 2; EvAcquire 1 1; EvAcquire 1 2; EvAcquire 2 2]
    = Some two_locks_held /\
  other_locks_held two_locks_held 1 1
    = [mkLock (Some 1%nat) (mkSema 0 [2%nat] 0)] /\
  prio two_locks_held 1 = 10 /\
  release_target two_locks_held 1 1 = 10 /\
  step two_locks_held (EvRelease 1 1) = Some one_lock_released /\
  other_locks_held one_lock_released 1 1
    = [mkLock (Some 1%nat) (mkSema 0 [2%nat] 0)] /\
  prio one_lock_released 1 = 1.
Proof.
  repeat (split; [vm_compute; reflexivity |]). vm_compute. reflexivity.
Qed.

(** C2.  In [chain_of_two] thread 1 (priority 1) holds lock 1 and
    thread 2 (priority 5) holds lock 2 and is blocked on lock 1.
    Thread 3 (priority 10) calls [lock_acquire] on lock 2.  It is
    queued on lock 2 and thread 2 gets priority 10, but thread 1,
    further along the wait-for chain, stays at 5. *)
Theorem nested_donation_stops_at_holder :
  run (boot [(1%nat, 1); (2%nat, 5); (3%nat, 10)])
      [EvInit 1; EvInit 2; EvAcquire 1 1; EvAcquire 2 2; EvAcquire 2 1]
    = Some chain_of_two /\
  step chain_of_two (EvAcquire 3 2) = Some chain_of_three /\
  donors <$> locks chain_of_three !! 2%nat = Some [3%nat] /\
  wait_for_chain 3 chain_of_three 2 = [2; 1]%nat /\
  prio chain_of_three 3 = 10 /\
  prio chain_of_three 2 = 10 /\
  prio chain_of_three 1 = 5 /\
  chain_raised chain_of_three 2 (prio chain_of_three 3) = false.
Proof.
  repeat (split; [vm_compute; reflexivity |]). vm_compute. reflexivity.
Qed.

(** C4.  In [one_donor] thread 1 (priority 1) holds lock 1 and thread
    2 (priority 10) is blocked on it, so thread 1 runs at priority 10.
    Thread 3 (priority 5) then calls [lock_acquire] on the lock: the
    holder's effective priority should stay max(10, 5) = 10; the
    donation step overwrites it with 5. *)
Theorem donation_overwrites_higher :
  run (boot [(1%nat, 1); (2%nat, 10); (3%nat, 5)])
      [EvInit 1; EvAcquire 1 1; EvAcquire 2 1]
    = Some one_donor /\
  prio one_donor 1 = 10 /\
  prio one_donor 3 = 5 /\
  step one_donor (EvAcquire 3 1) = Some two_donors /\
  Z.max (prio one_donor 1) (prio one_donor 3) = 10 /\
  prio two_donors 1 = 5.
Proof.
  repeat (split; [vm_compute; reflexivity |]). vm_compute. reflexivity.
Qed.

End DonationFacts.

(** * Condition variables *)

Module CondFacts.
Import Queue QueueFacts Scenario Cond.

Ltac cond_eval :=
  repeat (kernel_eval;
          cbv [at_elem zoom_opt set_elem elems cond_waiters cond_lock fst snd];
          rewrite ?lookup_insert_eq, ?Z.eqb_refl;
          cbn [fmap option_fmap option_map list_insert_ordered];
          rewrite ?bool_decide_eq_true_2 by reflexivity);
  rewrite ?insert_insert_eq.

Lemma tag_insert_eq (el : gmap addr semaphore) (w : addr) (e : semaphore) :
  tag (<[w := e]> el) w = sema_priority e.
Proof. unfold tag. rewrite lookup_insert_eq. reflexivity. Qed.

Lemma tag_insert_ne (el : gmap addr semaphore) (w x : addr) (e : semaphore) :
  w <> x -> tag (<[w := e]> el) x = tag el x.
Proof. intros Hne. unfold tag. rewrite lookup_insert_ne by exact Hne. reflexivity. Qed.

Lemma priority_sort_cond_waiter_spec (el : gmap addr semaphore) (a b : addr) :
  priority_sort_cond_waiter el a b = (tag el b <? tag el a).
Proof. unfold priority_sort_cond_waiter. apply Z.gtb_ltb. Qed.

(** [cond_wait] up to the point where the caller blocks on its own
    semaphore. *)
Lemma cond_wait_spec (c : kctx) (m : monitor) (w : addr) :
  in_intr c = false ->
  holder (cond_lock m) = Some (cur c) ->
  exists c' lk',
    cond_wait w (c, m) =
    Blk (c',
         mkMonitor
           (list_insert_ordered
              (priority_sort_cond_waiter
                 (<[w := mkSema 0 [] (priority_of (threads c) (cur c))]>
                    (elems m)))
              (cond_waiters m) w)
           lk'
           (<[w := mkSema 0 [cur c] (priority_of (threads c) (cur c))]>
              (elems m))).
Proof.
  intros Hi Hh.
  destruct c as [ts cu ii lv cl], m as [q [h [v lw p]] el].
  cbn in Hi, Hh. subst.
  destruct lw as [| t rest]; cond_eval; eexists _, _; reflexivity.
Qed.

Lemma cond_signal_empty (c : kctx) (m : monitor) :
  in_intr c = false ->
  holder (cond_lock m) = Some (cur c) ->
  cond_waiters m = [] ->
  cond_signal (c, m) = Ret tt (c, m).
Proof.
  intros Hi Hh Hq. destruct c as [ts cu ii lv cl], m as [q [h s] el].
  cbn in Hi, Hh, Hq. subst. cond_eval. reflexivity.
Qed.

Lemma cond_signal_spec (c : kctx) (m : monitor) (w : addr)
    (rest : list addr) (e : semaphore) :
  in_intr c = false ->
  holder (cond_lock m) = Some (cur c) ->
  cond_waiters m = w :: rest ->
  elems m !! w = Some e ->
  cond_signal (c, m) =
  Ret tt
    (fst (sema_up_result c e),
     mkMonitor rest (cond_lock m)
       (<[w := snd (sema_up_result c e)]> (elems m))).
Proof.
  intros Hi Hh Hq He.
  destruct c as [ts cu ii lv cl], m as [q [h s] el], e as [v lw p].
  cbn in Hi, Hh, Hq, He. subst. unfold sema_up_result.
  destruct lw as [| t r]; cond_eval; rewrite He;
    cbn [fmap option_fmap option_map]; cond_eval.
  - reflexivity.
  - rewrite <- app_assoc. reflexivity.
Qed.

(** C8.  [cond_signal] is called by the thread that holds the lock,
    outside interrupt context; [arr] lists the entries of the waiter
    queue in the order in which they arrived.  On an empty queue
    nothing changes.  Otherwise the entry taken off the queue has the
    highest priority tag and is the earliest arrival among those that
    have it; [sema_up] is applied to the semaphore of that entry and
    to no other, so its count goes up by one and the thread blocked
    on it, and only that thread, is unblocked. *)
Theorem cond_signal_wakes_first_highest (c : kctx) (m : monitor)
    (arr : list addr) :
  in_intr c = false ->
  holder (cond_lock m) = Some (cur c) ->
  enqueue_all (priority_sort_cond_waiter (elems m)) arr = cond_waiters m ->
  match cond_waiters m with
  | [] => cond_signal (c, m) = Ret tt (c, m)
  | w :: rest =>
      first_highest (tag (elems m)) arr w /\
      forall e, elems m !! w = Some e -> 0 <= value e < CInt.UINT_MAX ->
        exists c' e',
          cond_signal (c, m) =
            Ret tt (c', mkMonitor rest (cond_lock m) (<[w := e']> (elems m))) /\
          sema_up (c, e) = Ret tt (c', e') /\
          value e' = value e + 1 /\
          waiters e' = tail (waiters e) /\
          threads c' =
            match waiters e with
            | [] => threads c
            | t :: _ => alter (set_status THREAD_READY) t (threads c)
            end /\
          calls c' =
            calls c ++
              match waiters e with
              | [] => []
              | t :: _ => [CallUnblock t; CallYield (cur c)]
              end
  end.
Proof.
  intros Hi Hh Harr.
  destruct (cond_waiters m) as [| w rest] eqn:Hq.
  - apply cond_signal_empty; assumption.
  - split.
    + eapply enqueue_all_head;
        [apply priority_sort_cond_waiter_spec | exact Harr].
    + intros e He Hv.
      rewrite (cond_signal_spec c m w rest e Hi Hh Hq He).
      rewrite SemaFacts.sema_up_spec.
      destruct (sema_up_result c e) as [c' e'] eqn:Hres.
      exists c', e'. split; [reflexivity |]. split; [reflexivity |].
      unfold sema_up_result in Hres.
      destruct (waiters e) as [| t r]; inversion Hres; subst; cbn;
        rewrite CIntFacts.wrapu32_id by lia; rewrite ?app_nil_r; repeat split.
Qed.

Lemma cond_signal_wakes_first_highest_witness :
  first_highest (tag (elems three_waiters)) [1; 2; 3]%nat 2%nat /\
  exists c' e',
    cond_signal (four_threads, three_waiters) =
      Ret tt (c', mkMonitor [3; 1]%nat (cond_lock three_waiters)
                    (<[2%nat := e']> (elems three_waiters))) /\
    value e' = 1 /\
    waiters e' = [] /\
    calls c' = [CallUnblock 2; CallYield 4].
Proof.
  pose proof (cond_signal_wakes_first_highest four_threads three_waiters
                [1; 2; 3]%nat eq_refl eq_refl) as H.
  cbn [cond_waiters three_waiters] in H.
  destruct H as [Hfirst Hpost]; [vm_compute; reflexivity |].
  split; [exact Hfirst |].
  destruct (Hpost (mkSema 0 [2%nat] 7)) as (c' & e' & Hrun & _ & Hv & Hw & _ & Hc).
  - vm_compute. reflexivity.
  - unfold CInt.UINT_MAX. cbn. lia.
  - exists c', e'.
    split; [exact Hrun |]. split; [exact Hv |]. split; [exact Hw | exact Hc].
Defined.

(** The arrival order is kept: a waiter that enters is added at the
    end of it, and the tags of the others stay as they are. *)
Lemma cond_wait_enqueues (c : kctx) (m : monitor) (w : addr)
    (arr : list addr) :
  in_intr c = false ->
  holder (cond_lock m) = Some (cur c) ->
  ~ In w arr ->
  enqueue_all (priority_sort_cond_waiter (elems m)) arr = cond_waiters m ->
  exists s',
    cond_wait w (c, m) = Blk s' /\
    enqueue_all (priority_sort_cond_waiter (elems (snd s'))) (arr ++ [w])
      = cond_waiters (snd s') /\
    tag (elems (snd s')) w = priority_of (threads c) (cur c) /\
    forall x, x <> w -> tag (elems (snd s')) x = tag (elems m) x.
Proof.
  intros Hi Hh Hw Harr.
  destruct (cond_wait_spec c m w Hi Hh) as (c' & lk' & ->).
  eexists. split; [reflexivity |]. cbn [snd elems cond_waiters].
  split; [| split].
  - rewrite enqueue_all_snoc.
    rewrite (enqueue_all_ext _ (priority_sort_cond_waiter (elems m))).
    + rewrite Harr. apply insert_ext. intros y _.
      unfold priority_sort_cond_waiter.
      destruct (decide (w = y)) as [<- | Hne].
      * rewrite !tag_insert_eq. reflexivity.
      * rewrite !tag_insert_eq, !tag_insert_ne by exact Hne. reflexivity.
    + intros x y Hx Hy. unfold priority_sort_cond_waiter.
      rewrite !tag_insert_ne; [reflexivity | |]; intros ->; contradiction.
  - apply tag_insert_eq.
  - intros x Hx. apply tag_insert_ne. congruence.
Qed.

(** A signal takes the first of the highest arrivals out of the
    arrival order and leaves the tags as they are. *)
Lemma cond_signal_dequeues (c : kctx) (m : monitor) (w : addr)
    (rest arr : list addr) (e : semaphore) :
  in_intr c = false ->
  holder (cond_lock m) = Some (cur c) ->
  cond_waiters m = w :: rest ->
  elems m !! w = Some e ->
  enqueue_all (priority_sort_cond_waiter (elems m)) arr = cond_waiters m ->
  exists s' pre post,
    cond_signal (c, m) = Ret tt s' /\
    arr = pre ++ w :: post /\
    enqueue_all (priority_sort_cond_waiter (elems (snd s'))) (pre ++ post)
      = cond_waiters (snd s') /\
    forall x, tag (elems (snd s')) x = tag (elems m) x.
Proof.
  intros Hi Hh Hq He Harr.
  rewrite (cond_signal_spec c m w rest e Hi Hh Hq He).
  rewrite Hq in Harr.
  destruct (enqueue_all_pop (tag (elems m)) _
              (priority_sort_cond_waiter_spec (elems m)) arr w rest Harr)
    as (pre & post & -> & _ & _ & ->).
  assert (Htag : forall x,
            tag (<[w := snd (sema_up_result c e)]> (elems m)) x =
            tag (elems m) x).
  { intros x. destruct (decide (w = x)) as [<- | Hne].
    - rewrite tag_insert_eq. unfold tag. rewrite He.
      unfold sema_up_result. destruct (waiters e); reflexivity.
    - apply tag_insert_ne. exact Hne. }
  eexists _, pre, post. split; [reflexivity |]. split; [reflexivity |].
  cbn [snd elems cond_waiters]. split; [| exact Htag].
  apply enqueue_all_ext. intros x y _ _.
  unfold priority_sort_cond_waiter. rewrite !Htag. reflexivity.
Qed.

End CondFacts.

(** * The sleep queue *)

Module TimerFacts.
Import Timer TimerInv Queue QueueFacts.

Lemma thread_at_alter_ne (f : thread -> thread) (t x : tid)
    (ts : gmap tid thread) :
  t <> x -> thread_at (alter f t ts) x = thread_at ts x.
Proof.
  intros Hne. unfold thread_at. rewrite lookup_alter_ne; [reflexivity | exact Hne].
Qed.

Lemma wakeup_alter_status (st : thread_status) (t x : tid)
    (ts : gmap tid thread) :
  wakeup_time (thread_at (alter (set_status st) t ts) x) =
  wakeup_time (thread_at ts x).
Proof.
  unfold thread_at. destruct (decide (t = x)) as [-> | Hne].
  - rewrite lookup_alter_eq. destruct (ts !! x); reflexivity.
  - rewrite lookup_alter_ne; [reflexivity | exact Hne].
Qed.

Lemma ascending_ext (ts ts' : gmap tid thread) (q : list tid) :
  (forall x, In x q ->
     wakeup_time (thread_at ts' x) = wakeup_time (thread_at ts x)) ->
  ascending ts q -> ascending ts' q.
Proof.
  unfold ascending. induction q as [| a q IH]; intros Heq Hs.
  - constructor.
  - apply StronglySorted_inv in Hs. destruct Hs as [Hs Ha].
    constructor.
    + apply IH; [| exact Hs]. intros x Hx. apply Heq. right. exact Hx.
    + rewrite List.Forall_forall in Ha |- *. intros x Hx.
      rewrite (Heq a (or_introl eq_refl)), (Heq x (or_intror Hx)).
      apply Ha. exact Hx.
Qed.

Lemma ascending_descending (ts : gmap tid thread) (q : list tid) :
  ascending ts q <->
  descending (fun t => - wakeup_time (thread_at ts t)) q.
Proof.
  unfold ascending, descending.
  split; intros H; induction H; constructor; try assumption;
    (eapply List.Forall_impl; [| eassumption]); cbn; intros; lia.
Qed.

Lemma compare_spec (ts : gmap tid thread) (a b : tid) :
  compare ts a b =
  (- wakeup_time (thread_at ts b) <? - wakeup_time (thread_at ts a)).
Proof.
  unfold compare.
  destruct (Z.ltb_spec (wakeup_time (thread_at ts a))
              (wakeup_time (thread_at ts b)));
    destruct (Z.ltb_spec (- wakeup_time (thread_at ts b))
                (- wakeup_time (thread_at ts a))); try reflexivity; lia.
Qed.

Lemma insert_ascending (ts : gmap tid thread) (q : list tid) (t : tid) :
  ascending ts q -> ascending ts (list_insert_ordered (compare ts) q t).
Proof.
  rewrite !ascending_descending.
  apply insert_descending. apply compare_spec.
Qed.

Lemma insert_NoDup {A} (less : A -> A -> bool) (l : list A) (x : A) :
  ~ In x l -> List.NoDup l -> List.NoDup (list_insert_ordered less l x).
Proof.
  induction l as [| e l IH]; cbn; intros Hx Hl.
  - constructor; [intros [] | constructor].
  - destruct (less x e).
    + constructor; [exact Hx | exact Hl].
    + apply List.NoDup_cons_iff in Hl. destruct Hl as [He Hl].
      apply List.NoDup_cons_iff. split.
      * intros Hin. apply (insert_In less) in Hin.
        destruct Hin as [-> | Hin]; [apply Hx; left; reflexivity | exact (He Hin)].
      * apply IH; [| exact Hl]. intros Hin. apply Hx. right. exact Hin.
Qed.

Lemma unblock_all_other (woken : list tid) : forall ts x,
  ~ In x woken -> thread_at (unblock_all woken ts) x = thread_at ts x.
Proof.
  induction woken as [| t woken IH]; intros ts x Hx; [reflexivity |].
  cbn. rewrite IH.
  - apply thread_at_alter_ne. intros ->. apply Hx. left. reflexivity.
  - intros Hin. apply Hx. right. exact Hin.
Qed.

Lemma unblock_all_wakeup (woken : list tid) : forall ts x,
  wakeup_time (thread_at (unblock_all woken ts) x) =
  wakeup_time (thread_at ts x).
Proof.
  induction woken as [| t woken IH]; intros ts x; [reflexivity |].
  cbn. rewrite IH. apply wakeup_alter_status.
Qed.

(** On a sorted queue, once the head is not due nothing is. *)
Lemma none_due (ts : gmap tid thread) (now : Z) (t : tid) (rest : list tid) :
  ascending ts (t :: rest) ->
  now < wakeup_time (thread_at ts t) ->
  List.filter (fun x => wakeup_time (thread_at ts x) <=? now) (t :: rest) = [] /\
  List.filter (fun x => negb (wakeup_time (thread_at ts x) <=? now)) (t :: rest)
    = t :: rest.
Proof.
  intros Hs Ht. apply StronglySorted_inv in Hs. destruct Hs as [_ Hall].
  assert (Hq : Forall (fun x => now < wakeup_time (thread_at ts x)) (t :: rest)).
  { constructor; [exact Ht |].
    eapply List.Forall_impl; [| exact Hall]. cbn. intros; lia. }
  clear Hall Ht. induction Hq as [| x l Hx Hl IH]; [split; reflexivity |].
  cbn. destruct (Z.leb_spec (wakeup_time (thread_at ts x)) now); [lia |].
  cbn. destruct IH as [-> ->]. split; reflexivity.
Qed.

(** The loop of [timer_interrupt] on a sorted queue: it takes off the
    front exactly the entries that are due and unblocks them in queue
    order. *)
Lemma timer_wake_spec (q : list tid) : forall c tm,
  sleeping_threads tm = q ->
  ascending (threads c) q ->
  timer_wake q (c, tm) =
  Ret tt
    (mkCtx
       (unblock_all (List.filter (due_at (c, tm) (ticks tm)) q) (threads c))
       (cur c) (in_intr c) (level c)
       (calls c ++ map CallUnblock (List.filter (due_at (c, tm) (ticks tm)) q)),
     mkTimer (ticks tm)
       (List.filter (fun t => negb (due_at (c, tm) (ticks tm) t)) q)).
Proof.
  unfold due_at, deadline. cbn [fst].
  induction q as [| t rest IH]; intros c tm Hq Hs.
  - cbn. unfold ret. destruct c, tm; cbn in *. subst.
    rewrite app_nil_r. reflexivity.
  - cbn [timer_wake].
    unfold bind at 1, gets at 1. unfold bind at 1, gets at 1. cbn [fst snd].
    rewrite Z.geb_leb.
    destruct (Z.leb_spec (wakeup_time (thread_at (threads c) t)) (ticks tm))
      as [Hdue | Hlate].
    + unfold bind, on_timer, thread_unblock, on_ctx, modify, upd_tctx, tctx.
      cbn [fst snd].
      pose proof Hs as Hs'. apply StronglySorted_inv in Hs'.
      destruct Hs' as [Hrest _].
      rewrite IH; cbn [threads cur in_intr level calls ticks sleeping_threads
                         with_call with_threads set_sleeping_threads];
        [| reflexivity
         | eapply ascending_ext; [| exact Hrest]; intros; apply wakeup_alter_status].
      assert (Hext : forall (f : Z -> bool),
                List.filter (fun x => f (wakeup_time
                   (thread_at (alter (set_status THREAD_READY) t (threads c)) x))) rest
                = List.filter (fun x => f (wakeup_time (thread_at (threads c) x))) rest).
      { intros f. apply List.filter_ext. intros x.
        rewrite wakeup_alter_status. reflexivity. }
      rewrite (Hext (fun w => w <=? ticks tm)).
      rewrite (Hext (fun w => negb (w <=? ticks tm))).
      cbn [List.filter].
      destruct (Z.leb_spec (wakeup_time (thread_at (threads c) t)) (ticks tm));
        [| lia].
      cbn [negb map unblock_all fold_left].
      rewrite <- app_assoc. reflexivity.
    + destruct (none_due (threads c) (ticks tm) t rest Hs Hlate) as [-> ->].
      unfold ret. cbn. rewrite app_nil_r. destruct c, tm; cbn in *. subst.
      reflexivity.
Qed.


Lemma timer_sleep_nonpos (n : Z) (s : timer_state) :
  n <= 0 -> timer_sleep n s = Ret tt s.
Proof.
  intros Hn. unfold timer_sleep.
  destruct (Z.leb_spec n 0); [reflexivity | lia].
Qed.

Lemma timer_sleep_pos (n : Z) (c : kctx) (tm : timer) :
  0 < n ->
  timer_sleep n (c, tm) =
  Blk
    (mkCtx
       (alter (set_status THREAD_BLOCKED) (cur c)
          (alter (set_wakeup_time (CInt.wrap64 (ticks tm + n))) (cur c)
             (threads c)))
       (cur c) (in_intr c) INTR_OFF (calls c ++ [CallBlock (cur c)]),
     mkTimer (ticks tm)
       (list_insert_ordered
          (compare
             (alter (set_wakeup_time (CInt.wrap64 (ticks tm + n))) (cur c)
                (threads c)))
          (sleeping_threads tm) (cur c))).
Proof.
  intros Hn. unfold timer_sleep.
  destruct (Z.leb_spec n 0); [lia |]. reflexivity.
Qed.

Lemma is_blocked_after_block (t x : tid) (ts : gmap tid thread) :
  is_blocked ts x = true ->
  is_blocked (alter (set_status THREAD_BLOCKED) t ts) x = true.
Proof.
  unfold is_blocked, thread_at. destruct (decide (t = x)) as [-> | Hne].
  - rewrite lookup_alter_eq. destruct (ts !! x); cbn; auto.
  - rewrite lookup_alter_ne; [auto | exact Hne].
Qed.

Lemma is_blocked_self (t : tid) (ts : gmap tid thread) :
  is_blocked (alter (set_status THREAD_BLOCKED) t ts) t = true.
Proof.
  unfold is_blocked, thread_at. rewrite lookup_alter_eq.
  destruct (ts !! t); reflexivity.
Qed.

Lemma sleep_ok_sleep (t : tid) (n : Z) (s s' : timer_state) :
  sleep_ok s ->
  is_blocked (threads (fst s)) t = false ->
  (timer_sleep n (dispatch t s) = Ret tt s' \/
   timer_sleep n (dispatch t s) = Blk s') ->
  sleep_ok s'.
Proof.
  intros [Hsort Hblk Hnd Htk] Ht Hrun.
  destruct s as [c tm]. cbn [fst snd] in *.
  destruct (Z.leb_spec n 0) as [Hn | Hn].
  - rewrite timer_sleep_nonpos in Hrun by exact Hn.
    destruct Hrun as [[= <-] | [=]].
    constructor; assumption.
  - unfold dispatch in Hrun. cbn [fst snd] in Hrun.
    rewrite timer_sleep_pos in Hrun by exact Hn.
    destruct Hrun as [[=] | [= <-]].
    cbn [threads cur calls] in *.
    assert (Hnotin : ~ In t (sleeping_threads tm)).
    { intros Hin. rewrite List.Forall_forall in Hblk.
      rewrite (Hblk t Hin) in Ht. discriminate. }
    set (ts1 := alter (set_wakeup_time (CInt.wrap64 (ticks tm + n))) t (threads c)).
    assert (Hsort1 : ascending ts1 (sleeping_threads tm)).
    { eapply ascending_ext; [| exact Hsort]. intros x Hx.
      unfold ts1. rewrite thread_at_alter_ne; [reflexivity |].
      intros ->. exact (Hnotin Hx). }
    constructor; cbn [fst snd threads ticks sleeping_threads].
    + eapply ascending_ext; [intros; apply wakeup_alter_status |].
      apply insert_ascending. exact Hsort1.
    + apply List.Forall_forall. intros x Hx.
      apply (insert_In (compare ts1)) in Hx.
      destruct Hx as [-> | Hx]; [apply is_blocked_self |].
      apply is_blocked_after_block.
      unfold is_blocked, ts1. rewrite thread_at_alter_ne.
      * rewrite List.Forall_forall in Hblk. apply (Hblk x Hx).
      * intros ->. exact (Hnotin Hx).
    + apply insert_NoDup; assumption.
    + exact Htk.
Qed.

Lemma filter_sorted {A} (R : A -> A -> Prop) (f : A -> bool) (l : list A) :
  StronglySorted R l -> StronglySorted R (List.filter f l).
Proof.
  induction 1 as [| a l Hl IH Ha]; cbn; [constructor |].
  destruct (f a); [| exact IH].
  constructor; [exact IH |].
  rewrite List.Forall_forall in Ha |- *. intros x Hx.
  apply List.filter_In in Hx. apply Ha, Hx.
Qed.

Lemma filter_split {A} (R : A -> A -> Prop) (f : A -> bool) (l : list A) :
  StronglySorted R l ->
  (forall a b, R a b -> f b = true -> f a = true) ->
  l = List.filter f l ++ List.filter (fun x => negb (f x)) l.
Proof.
  intros Hs Hmono. induction Hs as [| a l Hl IH Ha]; [reflexivity |].
  cbn. destruct (f a) eqn:Hfa; cbn.
  - f_equal. exact IH.
  - assert (Hnone : List.filter f l = []).
    { clear IH. rewrite List.Forall_forall in Ha.
      induction l as [| b l IHl]; [reflexivity |]. cbn.
      destruct (f b) eqn:Hfb.
      - rewrite (Hmono a b (Ha b (or_introl eq_refl)) Hfb) in Hfa. discriminate.
      - apply IHl.
        + apply StronglySorted_inv in Hl. apply Hl.
        + intros x Hx. apply Ha. right. exact Hx. }
    rewrite Hnone in IH |- *. cbn in *. f_equal. exact IH.
Qed.

(** What [timer_interrupt] does on a sorted sleep queue; [now] is the
    tick counter after the increment. *)
Lemma timer_interrupt_spec (c : kctx) (tm : timer) :
  ascending (threads c) (sleeping_threads tm) ->
  timer_interrupt (c, tm) =
  Ret tt
    (mkCtx
       (unblock_all
          (List.filter (due_at (c, tm) (CInt.wrap64 (ticks tm + 1)))
             (sleeping_threads tm))
          (threads c))
       (cur c) (in_intr c) (level c)
       (calls c ++ CallTick ::
          map CallUnblock
            (List.filter (due_at (c, tm) (CInt.wrap64 (ticks tm + 1)))
               (sleeping_threads tm))),
     mkTimer (CInt.wrap64 (ticks tm + 1))
       (List.filter
          (fun t => negb (due_at (c, tm) (CInt.wrap64 (ticks tm + 1)) t))
          (sleeping_threads tm))).
Proof.
  intros Hs. unfold timer_interrupt.
  unfold bind at 1, on_timer at 1, modify at 1.
  unfold bind at 1, thread_tick at 1, on_ctx, modify, upd_tctx, tctx.
  unfold bind at 1, gets at 1.
  cbn [fst snd sleeping_threads set_ticks ticks].
  rewrite timer_wake_spec; [| reflexivity | exact Hs].
  cbn [threads cur in_intr level calls ticks with_call].
  rewrite <- app_assoc. reflexivity.
Qed.

Lemma sleep_ok_tick (s s' : timer_state) :
  sleep_ok s -> step s EvTick = Some s' -> sleep_ok s'.
Proof.
  intros [Hsort Hblk Hnd Htk]. destruct s as [c tm].
  cbn [fst snd] in *. unfold step, enter_intr. cbn [fst snd].
  rewrite timer_interrupt_spec by exact Hsort.
  intros [= <-]. unfold leave_intr.
  constructor; cbn [fst snd threads ticks sleeping_threads].
  - eapply ascending_ext; [intros; apply unblock_all_wakeup |].
    apply filter_sorted. exact Hsort.
  - apply List.Forall_forall. intros x Hx.
    apply List.filter_In in Hx. destruct Hx as [Hx Hlate].
    unfold is_blocked. rewrite unblock_all_other.
    + rewrite List.Forall_forall in Hblk. apply (Hblk x Hx).
    + intros Hin. apply List.filter_In in Hin. destruct Hin as [_ Hdue].
      unfold due_at, deadline in *. cbn [fst threads] in *.
      rewrite Hdue in Hlate. discriminate.
  - apply List.NoDup_filter. exact Hnd.
  - apply CIntFacts.wrap64_range.
Qed.

Lemma sleep_ok_init (s : timer_state) :
  sleeping_threads (snd s) = [] ->
  CInt.INT64_MIN <= ticks (snd s) <= CInt.INT64_MAX ->
  sleep_ok s.
Proof.
  intros Hq Htk. constructor; rewrite ?Hq.
  - constructor.
  - constructor.
  - constructor.
  - exact Htk.
Qed.

Lemma sleep_ok_run (evs : list event) : forall s s',
  sleep_ok s -> run s evs = Some s' -> sleep_ok s'.
Proof.
  induction evs as [| e evs IH]; intros s s' Hok; cbn [run].
  - intros [= <-]. exact Hok.
  - destruct (step s e) as [s1 |] eqn:He; [| discriminate].
    apply IH. destruct e as [t n |].
    + unfold step in He.
      destruct (is_blocked (threads (fst s)) t) eqn:Hb; [discriminate |].
      destruct (timer_sleep n (dispatch t s)) as [[] s2 | s2 |] eqn:Hr;
        inversion He; subst s2;
        eapply sleep_ok_sleep; eauto.
    + eapply sleep_ok_tick; eassumption.
Qed.



(** C10.  For every duration that is zero or negative, [timer_sleep]
    returns at once: the caller is not suspended and the state it
    returns in (sleep queue, tick counter, threads, scheduler calls)
    is the state it was called in. *)
Theorem timer_sleep_nonpositive_returns (n : Z) (s : timer_state) :
  n <= 0 -> timer_sleep n s = Ret tt s.
Proof. apply timer_sleep_nonpos. Qed.

Lemma timer_sleep_nonpositive_returns_witness :
  timer_sleep (-1) nap_state = Ret tt nap_state.
Proof.
  apply (timer_sleep_nonpositive_returns (-1) nap_state). lia.
Defined.

(** C9.  [timer_sleep] does not look at the interrupt level: called
    with a positive duration while interrupts are disabled it goes on
    to put the caller in the sleep queue and to block it. *)
Theorem timer_sleep_unchecked_level (c : kctx) (tm : timer) (p : positive) :
  exists s',
    timer_sleep (Z.pos p) (with_level INTR_OFF c, tm) = Blk s' /\
    In (cur c) (sleeping_threads (snd s')) /\
    calls (fst s') = calls c ++ [CallBlock (cur c)].
Proof.
  rewrite timer_sleep_pos by lia. eexists. split; [reflexivity |].
  cbn [fst snd sleeping_threads calls with_level cur threads].
  split; [| reflexivity].
  apply (insert_In (compare
    (alter (set_wakeup_time (CInt.wrap64 (ticks tm + Z.pos p))) (cur c)
       (threads c)))).
  left. reflexivity.
Qed.

End TimerFacts.

(** * More on semaphores *)

Module SemaMore.
Import Queue QueueFacts Scenario Batch.

Section Position.
Context {A : Type}.
Variable key : A -> Z.
Variable less : A -> A -> bool.
Hypothesis less_spec : forall x y, less x y = (key y <? key x).

(** Where ordered insertion puts a new element: behind every element
    up to the first one with a strictly lower key. *)
Lemma insert_position (l : list A) (x : A) :
  exists pre post,
    l = pre ++ post /\
    list_insert_ordered less l x = pre ++ x :: post /\
    Forall (fun y => key x <= key y) pre /\
    (descending key l -> Forall (fun y => key y < key x) post).
Proof.
  induction l as [| e l IH]; cbn.
  - exists [], []. repeat split; constructor.
  - rewrite less_spec. destruct (Z.ltb_spec (key e) (key x)) as [Hlt | Hge].
    + exists [], (e :: l). repeat split; [constructor |].
      intros Hd. apply descending_head in Hd. constructor; [exact Hlt |].
      eapply List.Forall_impl; [| exact Hd]. cbn. intros; lia.
    + destruct IH as (pre & post & Hl & Hins & Hpre & Hpost).
      exists (e :: pre), post. rewrite Hins, Hl. repeat split.
      * constructor; assumption.
      * intros Hd. apply Hpost. apply StronglySorted_inv in Hd.
        rewrite Hl. apply Hd.
Qed.

End Position.

Lemma priority_of_alter_status (st : thread_status) (t x : tid)
    (ts : gmap tid thread) :
  priority_of (alter (set_status st) t ts) x = priority_of ts x.
Proof.
  unfold priority_of, thread_at.
  destruct (decide (t = x)) as [-> | Hne].
  - rewrite lookup_alter_eq. destruct (ts !! x); reflexivity.
  - rewrite lookup_alter_ne by exact Hne. reflexivity.
Qed.

Lemma sema_try_down_result (c : kctx) (s : semaphore) :
  0 <= value s <= CInt.UINT_MAX ->
  sema_try_down (c, s) =
  Ret (0 <? value s)
      (c, if 0 <? value s then set_value (value s - 1) s else s).
Proof.
  intros Hv. destruct c as [ts cu ii lv cl], s as [v w p]. cbn in Hv.
  kernel_eval. rewrite Z.gtb_ltb.
  destruct (Z.ltb_spec 0 v); kernel_eval; [| reflexivity].
  rewrite CIntFacts.wrapu32_id by lia. reflexivity.
Qed.

Lemma sema_down_positive (c : kctx) (s : semaphore) :
  in_intr c = false ->
  0 < value s <= CInt.UINT_MAX ->
  sema_down (c, s) = Ret tt (c, set_value (value s - 1) s).
Proof.
  intros Hi Hv. destruct c as [ts cu ii lv cl], s as [v w p].
  cbn in Hi, Hv. subst ii. kernel_eval.
  destruct (Z.eqb_spec v 0); [lia |]. kernel_eval.
  rewrite CIntFacts.wrapu32_id by lia. reflexivity.
Qed.

Lemma sema_down_zero (c : kctx) (s : semaphore) :
  in_intr c = false ->
  value s = 0 ->
  sema_down (c, s) =
  Blk (mkCtx (alter (set_status THREAD_BLOCKED) (cur c) (threads c))
             (cur c) false INTR_OFF (calls c ++ [CallBlock (cur c)]),
       set_waiters
         (list_insert_ordered (priority_ordering_wait (threads c))
            (waiters s) (cur c)) s).
Proof.
  intros Hi Hv. destruct c as [ts cu ii lv cl], s as [v w p].
  cbn in Hi, Hv. subst ii v. kernel_eval. reflexivity.
Qed.

(** X1.  [sema_try_down] on a semaphore whose count is an [unsigned]
    value: it returns true exactly when the count is positive and then
    takes one off the count; the waiter queue, the threads, the
    interrupt level and the scheduler are left as they were, in
    interrupt context as well as outside. *)
Theorem sema_try_down_spec (c : kctx) (s : semaphore) :
  0 <= value s <= CInt.UINT_MAX ->
  sema_try_down (c, s) =
  Ret (0 <? value s)
      (c, if 0 <? value s then set_value (value s - 1) s else s).
Proof. apply sema_try_down_result. Qed.

Lemma sema_try_down_spec_witness :
  sema_try_down (four_threads, mkSema 2 [] 0) =
  Ret true (four_threads, mkSema 1 [] 0).
Proof.
  apply (sema_try_down_spec four_threads (mkSema 2 [] 0)).
  unfold CInt.UINT_MAX. cbn. lia.
Defined.


Lemma try_downs_result (k : nat) : forall (n : nat) c s,
  Z.of_nat n <= CInt.UINT_MAX ->
  value s = Z.of_nat n ->
  try_downs k (c, s) =
  (repeat true (Nat.min k n) ++ repeat false (k - n),
   (c, set_value (Z.of_nat (n - k)) s)).
Proof.
  induction k as [| k IH]; intros n c s Hn Hv.
  - cbn. rewrite Nat.sub_0_r, <- Hv. destruct s; reflexivity.
  - cbn [try_downs]. rewrite sema_try_down_result by lia. rewrite Hv.
    destruct n as [| n].
    + change (0 <? Z.of_nat 0) with false. cbv iota.
      rewrite (IH 0%nat c s Hn Hv). rewrite Nat.min_0_r, Nat.sub_0_r.
      cbn. reflexivity.
    + replace (0 <? Z.of_nat (S n)) with true
        by (symmetry; apply Z.ltb_lt; lia).
      cbv iota.
      rewrite (IH n c (set_value (Z.of_nat (S n) - 1) s)); [| lia | cbn; lia].
      cbn [fst snd Nat.min Nat.sub repeat app].
      destruct s as [v w p]. cbn [set_value waiters sema_priority value].
      reflexivity.
Qed.

(** X2.  A semaphore initialised to [n] lets exactly [n] calls of
    [sema_try_down] succeed: of [k] calls in a row the first [n] (or
    all, when [k <= n]) return true and the others false, and the
    count ends at [n - k], or at 0. *)
Theorem sema_init_try_downs (c : kctx) (s0 : semaphore) (n k : nat) :
  Z.of_nat n <= CInt.UINT_MAX ->
  exists s1,
    sema_init (Z.of_nat n) (c, s0) = Ret tt (c, s1) /\
    waiters s1 = [] /\
    fst (try_downs k (c, s1)) =
      repeat true (Nat.min k n) ++ repeat false (k - n) /\
    snd (try_downs k (c, s1)) = (c, set_value (Z.of_nat (n - k)) s1).
Proof.
  intros Hn. destruct s0 as [v w p]. eexists. split; [reflexivity |].
  split; [reflexivity |].
  rewrite (try_downs_result k n) by (cbn; lia || reflexivity).
  split; reflexivity.
Qed.

Lemma sema_init_try_downs_witness :
  fst (try_downs 5 (after (sema_init 2 (four_threads, mkSema 0 [] 0))
                      (four_threads, mkSema 0 [] 0)))
  = [true; true; false; false; false].
Proof.
  destruct (sema_init_try_downs four_threads (mkSema 0 [] 0) 2 5)
    as (s1 & Hinit & _ & Hres & _).
  - unfold CInt.UINT_MAX. cbn. lia.
  - change (Z.of_nat 2) with 2 in Hinit. rewrite Hinit.
    cbn [after]. exact Hres.
Defined.

(** X3.  [sema_down] outside interrupt context on a semaphore with a
    positive count returns at once with the count one lower; nobody is
    queued or blocked, no scheduler call is made and the interrupt
    level is the caller's again. *)
Theorem sema_down_takes_count (c : kctx) (s : semaphore) :
  in_intr c = false ->
  0 < value s <= CInt.UINT_MAX ->
  sema_down (c, s) = Ret tt (c, set_value (value s - 1) s).
Proof. apply sema_down_positive. Qed.

Lemma sema_down_takes_count_witness :
  sema_down (four_threads, mkSema 1 [] 0) = Ret tt (four_threads, mkSema 0 [] 0).
Proof.
  apply (sema_down_takes_count four_threads (mkSema 1 [] 0)).
  - reflexivity.
  - unfold CInt.UINT_MAX. cbn. lia.
Defined.

(** X4.  [sema_down] outside interrupt context on a semaphore whose
    count is 0 suspends the caller with interrupts off: the count
    stays 0, the caller is marked blocked and is put in the waiter
    queue behind every waiter up to the first one of strictly lower
    effective priority; if the queue was in descending priority order,
    all the waiters behind the caller have a strictly lower priority
    and the queue still is in descending order. *)
Theorem sema_down_blocks_in_order (c : kctx) (s : semaphore) :
  in_intr c = false ->
  value s = 0 ->
  exists c' s' pre post,
    sema_down (c, s) = Blk (c', s') /\
    value s' = 0 /\
    waiters s = pre ++ post /\
    waiters s' = pre ++ cur c :: post /\
    Forall (fun x => priority_of (threads c) (cur c) <=
                     priority_of (threads c) x) pre /\
    (descending (priority_of (threads c)) (waiters s) ->
       Forall (fun x => priority_of (threads c) x <
                        priority_of (threads c) (cur c)) post /\
       descending (priority_of (threads c')) (waiters s')) /\
    is_blocked (threads c') (cur c) = true /\
    level c' = INTR_OFF /\
    calls c' = calls c ++ [CallBlock (cur c)].
Proof.
  intros Hi Hv. rewrite (sema_down_zero c s Hi Hv).
  destruct (insert_position (priority_of (threads c))
              (priority_ordering_wait (threads c))
              (SemaFacts.priority_ordering_wait_spec (threads c))
              (waiters s) (cur c))
    as (pre & post & Hq & Hins & Hpre & Hpost).
  eexists _, _, pre, post. split; [reflexivity |].
  cbn [value waiters set_waiters threads level calls].
  split; [exact Hv |]. split; [exact Hq |]. split; [exact Hins |].
  split; [exact Hpre |]. split; [| split; [| split; reflexivity]].
  - intros Hd. split; [exact (Hpost Hd) |].
    assert (Hd' : descending (priority_of (threads c))
                    (list_insert_ordered (priority_ordering_wait (threads c))
                       (waiters s) (cur c))).
    { apply insert_descending;
        [apply SemaFacts.priority_ordering_wait_spec | exact Hd]. }
    clear -Hd'. unfold descending in *.
    induction Hd' as [| a l Hl IHl Ha]; constructor; [exact IHl |].
    eapply List.Forall_impl; [| exact Ha]. cbn. intros x Hx.
    rewrite !priority_of_alter_status. exact Hx.
  - unfold is_blocked, thread_at. rewrite lookup_alter_eq.
    destruct (threads c !! cur c); reflexivity.
Qed.

Lemma sema_down_blocks_in_order_witness :
  exists c' s',
    sema_down (as_thread 2 four_threads, mkSema 0 [3; 1]%nat 0) = Blk (c', s') /\
    waiters s' = [3; 2; 1]%nat.
Proof.
  destruct (sema_down_blocks_in_order (as_thread 2 four_threads)
              (mkSema 0 [3; 1]%nat 0) eq_refl eq_refl)
    as (c' & s' & pre & post & Hrun & _).
  exists c', s'. split; [exact Hrun |].
  rewrite (sema_down_zero (as_thread 2 four_threads) (mkSema 0 [3; 1]%nat 0)
             eq_refl eq_refl) in Hrun.
  inversion Hrun. vm_compute. reflexivity.
Defined.


(** X5.  [sema_up] on a semaphore of count 0 with waiters, followed by
    the woken thread running again inside [sema_down]: the head of the
    queue is the thread unblocked, it finds the count at 1, takes it
    and returns with the interrupt level it had saved.  The semaphore
    is as before except that this thread has left the queue. *)
Theorem sema_up_then_resume (c : kctx) (s : semaphore) (t : tid)
    (rest : list tid) (old_level : intr_level) :
  value s = 0 ->
  waiters s = t :: rest ->
  exists c1 s1,
    sema_up (c, s) = Ret tt (c1, s1) /\
    value s1 = 1 /\
    sema_down_loop old_level
      (mkCtx (threads c1) t false INTR_OFF (calls c1), s1) =
    Ret tt
      (mkCtx (alter (set_status THREAD_READY) t (threads c)) t false old_level
             (calls c ++ [CallUnblock t; CallYield (cur c)]),
       set_waiters rest s).
Proof.
  intros Hv Hw. rewrite SemaFacts.sema_up_spec. unfold sema_up_result.
  rewrite Hw, Hv. eexists _, _. split; [reflexivity |].
  split; [reflexivity |].
  destruct c as [ts cu ii lv cl], s as [v w p]. cbn in Hv, Hw. subst v w.
  reflexivity.
Qed.

Lemma sema_up_then_resume_witness :
  exists c1 s1,
    sema_up (four_threads, mkSema 0 [3; 1]%nat 0) = Ret tt (c1, s1) /\
    sema_down_loop INTR_ON
      (mkCtx (threads c1) 3%nat false INTR_OFF (calls c1), s1) =
    Ret tt
      (mkCtx (alter (set_status THREAD_READY) 3%nat (threads four_threads))
             3%nat false INTR_ON [CallUnblock 3; CallYield 4],
       mkSema 0 [1%nat] 0).
Proof.
  destruct (sema_up_then_resume four_threads (mkSema 0 [3; 1]%nat 0)
              3%nat [1%nat] INTR_ON eq_refl eq_refl)
    as (c1 & s1 & Hup & _ & Hdown).
  exists c1, s1. split; [exact Hup | exact Hdown].
Defined.

Lemma fold_insert_ext {A} (less1 less2 : A -> A -> bool) (arr : list A) :
  (forall a b, less1 a b = less2 a b) ->
  forall q,
    fold_left (list_insert_ordered less1) arr q =
    fold_left (list_insert_ordered less2) arr q.
Proof.
  intros Heq. induction arr as [| x arr IH]; intros q; [reflexivity |].
  cbn. rewrite IH. f_equal. apply insert_ext. intros y _. apply Heq.
Qed.

Lemma downs_cons (t : tid) (arr : list tid) (s : sema_state) :
  downs (t :: arr) s =
  downs arr (after (sema_down (as_thread t (fst s), snd s)) s).
Proof. reflexivity. Qed.

Lemma downs_result (arr : list tid) : forall c s,
  value s = 0 ->
  exists c',
    downs arr (c, s) =
      (c', set_waiters
             (fold_left (list_insert_ordered (priority_ordering_wait (threads c)))
                arr (waiters s)) s) /\
    (forall x, priority_of (threads c') x = priority_of (threads c) x) /\
    (forall x, is_blocked (threads c) x = true \/ In x arr ->
               is_blocked (threads c') x = true) /\
    calls c' = calls c ++ map CallBlock arr.
Proof.
  induction arr as [| t arr IH]; intros c s Hv.
  - exists c. cbn. rewrite app_nil_r. destruct s. repeat split.
    intros x [Hx | []]. exact Hx.
  - rewrite downs_cons. cbn [fst snd].
    rewrite (sema_down_zero (as_thread t c) s eq_refl Hv).
    cbn [after fst snd as_thread threads cur calls].
    match goal with
    | |- context [downs arr (?c1, ?s1)] =>
        destruct (IH c1 s1 Hv) as (c' & Hrun & Hprio & Hblk & Hcalls)
    end.
    cbn [threads calls waiters set_waiters value sema_priority] in *.
    exists c'. rewrite Hrun. split; [| split; [| split]].
    + rewrite (fold_insert_ext _ (priority_ordering_wait (threads c))).
      * destruct s as [v w p]. reflexivity.
      * intros a b. unfold priority_ordering_wait.
        rewrite !priority_of_alter_status. reflexivity.
    + intros x. rewrite Hprio. apply priority_of_alter_status.
    + intros x Hx. apply Hblk. destruct Hx as [Hx | [<- | Hx]].
      * left. apply TimerFacts.is_blocked_after_block. exact Hx.
      * left. apply TimerFacts.is_blocked_self.
      * right. exact Hx.
    + rewrite Hcalls, <- app_assoc. reflexivity.
Qed.

(** X6.  Threads that call [sema_down] one after the other on a
    semaphore of count 0 with an empty queue all block, and the queue
    they leave is their stable sort by descending effective priority:
    it is in descending order and its head is the first of the
    highest-priority callers. *)
Theorem sema_downs_queue (arr : list tid) (c : kctx) (s : semaphore) :
  value s = 0 ->
  waiters s = [] ->
  exists c' s',
    downs arr (c, s) = (c', s') /\
    value s' = 0 /\
    waiters s' = enqueue_all (priority_ordering_wait (threads c)) arr /\
    descending (priority_of (threads c')) (waiters s') /\
    (forall t rest, waiters s' = t :: rest ->
       first_highest (priority_of (threads c')) arr t) /\
    Forall (fun t => is_blocked (threads c') t = true) arr /\
    calls c' = calls c ++ map CallBlock arr.
Proof.
  intros Hv Hw.
  destruct (downs_result arr c s Hv) as (c' & Hrun & Hprio & Hblk & Hcalls).
  rewrite Hw in Hrun. fold (enqueue_all (priority_ordering_wait (threads c)) arr) in Hrun.
  eexists _, _. split; [exact Hrun |].
  cbn [value waiters set_waiters]. split; [exact Hv |].
  split; [reflexivity |].
  assert (Hless : forall x y,
            priority_ordering_wait (threads c) x y =
            (priority_of (threads c') y <? priority_of (threads c') x)).
  { intros x y. rewrite !Hprio. apply SemaFacts.priority_ordering_wait_spec. }
  split; [apply (enqueue_all_descending _ _ Hless) |].
  split; [intros t rest Hq; exact (enqueue_all_head _ _ Hless arr t rest Hq) |].
  split; [| exact Hcalls].
  apply List.Forall_forall. intros x Hx. apply Hblk. right. exact Hx.
Qed.

Lemma sema_downs_queue_witness :
  exists c' s',
    downs [1; 2; 3; 4]%nat (four_threads, mkSema 0 [] 0) = (c', s') /\
    waiters s' = [3; 2; 1; 4]%nat.
Proof.
  destruct (sema_downs_queue [1; 2; 3; 4]%nat four_threads (mkSema 0 [] 0)
              eq_refl eq_refl)
    as (c' & s' & Hrun & _ & Hq & _).
  exists c', s'. split; [exact Hrun |]. rewrite Hq. vm_compute. reflexivity.
Defined.

End SemaMore.

(** * A semaphore and the threads woken on it *)

Module SemaSchedFacts.
Import Scenario SemaSched.

Lemma ups_cons (e : event) (evs : list event) :
  ups (e :: evs) = (match e with EvUp _ => 1 | _ => 0 end + ups evs)%nat.
Proof. unfold ups. destruct e; reflexivity. Qed.

Lemma resumes_cons (e : event) (evs : list event) :
  resumes (e :: evs) =
  (match e with EvResume _ => 1 | _ => 0 end + resumes evs)%nat.
Proof. unfold resumes. destruct e; reflexivity. Qed.

Lemma unblocked_app (cl cl' : list sched_call) :
  unblocked (cl ++ cl') = unblocked cl ++ unblocked cl'.
Proof. unfold unblocked. apply flat_map_app. Qed.

(** The queue after one more [sema_up]. *)
Lemma skipn_head {A} (k : nat) : forall (q : list A) t rest,
  skipn k q = t :: rest ->
  firstn (S k) q = firstn k q ++ [t] /\ skipn (S k) q = rest.
Proof.
  induction k as [| k IH]; intros q t rest H.
  - change (skipn 0 q) with q in H. subst q. split; reflexivity.
  - destruct q as [| x q]; [discriminate |].
    change (skipn (S k) (x :: q)) with (skipn k q) in H.
    destruct (IH q t rest H) as [Hf Hs].
    split; [| exact Hs].
    change (firstn (S (S k)) (x :: q)) with (x :: firstn (S k) q).
    rewrite Hf. reflexivity.
Qed.

Lemma skipn_done {A} (k : nat) : forall (q : list A),
  skipn k q = [] ->
  firstn (S k) q = firstn k q /\ skipn (S k) q = [].
Proof.
  induction k as [| k IH]; intros q H.
  - change (skipn 0 q) with q in H. subst q. split; reflexivity.
  - destruct q as [| x q]; [split; reflexivity |].
    change (skipn (S k) (x :: q)) with (skipn k q) in H.
    destruct (IH q H) as [Hf Hs].
    split; [| exact Hs].
    change (firstn (S (S k)) (x :: q)) with (x :: firstn (S k) q).
    rewrite Hf. reflexivity.
Qed.

(** A thread that returns from [sema_down] is one suspended thread
    less. *)
Lemma suspended_delete (sv : gmap tid intr_level) (t : tid) (l : list tid) :
  List.NoDup l -> In t l -> sv !! t <> None ->
  (length (suspended (delete t sv) l) + 1 = length (suspended sv l))%nat.
Proof.
  intros Hnd. induction Hnd as [| x l Hx Hnd IH]; intros Hin Ht;
    [destruct Hin |].
  unfold suspended in *. cbn [List.filter].
  destruct (decide (x = t)) as [-> | Hne].
  - rewrite lookup_delete_eq.
    rewrite bool_decide_eq_false_2 by auto.
    rewrite bool_decide_eq_true_2 by exact Ht.
    cbn [length].
    assert (Hsame : List.filter (fun t0 => bool_decide (delete t sv !! t0 <> None)) l
                    = List.filter (fun t0 => bool_decide (sv !! t0 <> None)) l).
    { apply List.filter_ext_in. intros y Hy.
      rewrite lookup_delete_ne by (intros ->; contradiction). reflexivity. }
    rewrite Hsame. lia.
  - rewrite lookup_delete_ne by auto.
    destruct Hin as [-> | Hin]; [congruence |].
    specialize (IH Hin Ht).
    destruct (bool_decide (sv !! x <> None)); cbn [length]; lia.
Qed.

Lemma sema_down_loop_positive (old_level : intr_level) (c : kctx)
    (s : semaphore) :
  0 < value s <= CInt.UINT_MAX ->
  sema_down_loop old_level (c, s) =
  Ret tt (with_level old_level c, set_value (value s - 1) s).
Proof.
  intros Hv. destruct c as [ts cu ii lv cl], s as [v w p].
  cbn in Hv. kernel_eval.
  destruct (Z.eqb_spec v 0); [lia |]. kernel_eval.
  rewrite CIntFacts.wrapu32_id by lia. reflexivity.
Qed.

Lemma is_blocked_unblock_ne (t x : tid) (ts : gmap tid thread) :
  t <> x ->
  is_blocked (alter (set_status THREAD_READY) t ts) x = is_blocked ts x.
Proof.
  intros Hne. unfold is_blocked.
  rewrite TimerFacts.thread_at_alter_ne by exact Hne. reflexivity.
Qed.

Section Progress.
Variable q : list tid.
Variable v : Z.
Variable cl : list sched_call.
Hypothesis Hnd : List.NoDup q.
Hypothesis Hv : 0 <= v.

Lemma progress_bounds k r p :
  progress q v cl k r p ->
  (r <= length (firstn k q))%nat /\ (length (firstn k q) <= k)%nat.
Proof.
  intros Hp. pose proof (pg_woken q v cl k r p Hp) as Hw.
  split; [lia | apply firstn_le_length].
Qed.

Lemma progress_up k r p u p' :
  progress q v cl k r p ->
  v + Z.of_nat k + 1 <= CInt.UINT_MAX ->
  step p (EvUp u) = Some p' ->
  progress q v cl (S k) r p'.
Proof.
  intros Hp Hmax. pose proof (progress_bounds k r p Hp) as [Hr Hk].
  destruct Hp as [Hq Hval Hw Hb Hs Hc].
  unfold step.
  destruct (negb (is_blocked (threads (fst (sstate p))) u)
            && bool_decide (saved p !! u = None)); [| discriminate].
  rewrite SemaFacts.sema_up_spec. intros [= <-].
  unfold sema_up_result, as_thread. cbn [fst snd]. rewrite Hq, Hval.
  rewrite CIntFacts.wrapu32_id by lia.
  cbn [threads cur in_intr level calls].
  destruct (skipn k q) as [| t rest] eqn:Hskip.
  - destruct (skipn_done k q Hskip) as [Hf Hs'].
    split; cbn [sstate saved fst snd threads calls value waiters];
      rewrite ?Hf, ?Hs'.
    + reflexivity.
    + lia.
    + exact Hw.
    + intros t [].
    + exact Hs.
    + exact Hc.
  - destruct (skipn_head k q t rest Hskip) as [Hf Hs'].
    assert (Hsplit : q = firstn k q ++ t :: rest)
      by (rewrite <- Hskip; symmetry; apply firstn_skipn).
    assert (Hnd' : List.NoDup (t :: rest)).
    { rewrite Hsplit in Hnd. apply List.NoDup_app_remove_l in Hnd. exact Hnd. }
    apply List.NoDup_cons_iff in Hnd' as [Ht Hnd'].
    split; cbn [sstate saved fst snd threads calls value waiters];
      rewrite ?Hf, ?Hs'.
    + reflexivity.
    + lia.
    + unfold suspended in *. rewrite List.filter_app, !length_app.
      cbn [List.filter].
      rewrite bool_decide_eq_true_2
        by (apply (Hb t); left; reflexivity).
      cbn [length]. lia.
    + intros x Hx. destruct (Hb x (or_intror Hx)) as [Hbx Hsx].
      split; [| exact Hsx].
      rewrite is_blocked_unblock_ne by (intros ->; contradiction).
      exact Hbx.
    + exact Hs.
    + rewrite unblocked_app, Hc, <- app_assoc. reflexivity.
Qed.

Lemma progress_resume k r p t p' :
  progress q v cl k r p ->
  v + Z.of_nat k <= CInt.UINT_MAX ->
  step p (EvResume t) = Some p' ->
  progress q v cl k (S r) p'.
Proof.
  intros Hp Hmax. pose proof (progress_bounds k r p Hp) as [Hr Hk].
  destruct Hp as [Hq Hval Hw Hb Hs Hc].
  unfold step.
  destruct (saved p !! t) as [old |] eqn:Hsv; [| discriminate].
  destruct (is_blocked (threads (fst (sstate p))) t) eqn:Hbt;
    [discriminate |].
  cbn [negb].
  assert (Hin : In t (firstn k q)).
  { assert (Hq' : In t q) by (apply Hs; congruence).
    rewrite <- (firstn_skipn k q) in Hq'. apply in_app_or in Hq'.
    destruct Hq' as [H | H]; [exact H |].
    destruct (Hb t H) as [Hbt' _]. congruence. }
  assert (Hndf : List.NoDup (firstn k q)).
  { rewrite <- (firstn_skipn k q) in Hnd.
    apply List.NoDup_app_remove_r in Hnd. exact Hnd. }
  pose proof (suspended_delete (saved p) t (firstn k q) Hndf Hin
                ltac:(congruence)) as Hdel.
  rewrite sema_down_loop_positive by (rewrite Hval; lia).
  intros [= <-].
  split; cbn [sstate saved fst snd threads calls value waiters with_level
              set_value].
  - exact Hq.
  - lia.
  - lia.
  - intros x Hx. destruct (Hb x Hx) as [Hbx Hsx].
    split; [exact Hbx |].
    rewrite lookup_delete_ne; [exact Hsx |].
    intros ->. congruence.
  - intros x Hx. apply Hs. intros Hn. apply Hx.
    destruct (decide (t = x)) as [-> | Hne];
      [apply lookup_delete_eq | rewrite lookup_delete_ne by exact Hne; exact Hn].
  - exact Hc.
Qed.

Lemma progress_run (evs : list event) : forall k r p p',
  progress q v cl k r p ->
  v + Z.of_nat k + Z.of_nat (ups evs) <= CInt.UINT_MAX ->
  run p evs = Some p' ->
  progress q v cl (k + ups evs) (r + resumes evs) p'.
Proof.
  induction evs as [| e evs IH]; intros k r p p' Hp Hmax Hrun.
  - cbn in Hrun. injection Hrun as <-.
    unfold ups, resumes. cbn. rewrite !Nat.add_0_r. exact Hp.
  - cbn [run] in Hrun. destruct (step p e) as [p1 |] eqn:He; [| discriminate].
    rewrite ups_cons in Hmax |- *. rewrite resumes_cons.
    destruct e as [u | t].
    + replace (k + (1 + ups evs))%nat with (S k + ups evs)%nat by lia.
      cbn [Nat.add]. apply (IH (S k) r p1); [| lia | exact Hrun].
      apply (progress_up k r p u); [exact Hp | lia | exact He].
    + replace (r + (1 + resumes evs))%nat with (S r + resumes evs)%nat by lia.
      cbn [Nat.add]. apply (IH k (S r) p1); [| lia | exact Hrun].
      apply (progress_resume k r p t); [exact Hp | lia | exact He].
Qed.

End Progress.

(** X7.  Calls of [sema_up] with the woken threads running in
    between.  On a semaphore whose waiters are blocked in [sema_down],
    take any run made of calls of [sema_up] and of resumptions of
    threads that were woken, in any order the scheduler allows (the
    count staying within [unsigned]).  After [k] calls and [r]
    resumptions the threads unblocked are the first [k] waiters, one
    per call and in queue order, and the waiters behind them are
    still queued; every thread that resumed found the count positive,
    took one and returned from [sema_down], so that the count has
    risen by [k - r]. *)
Theorem sema_ups_wake_in_order (p0 p : sched) (evs : list event) :
  0 <= value (snd (sstate p0)) ->
  value (snd (sstate p0)) + Z.of_nat (ups evs) <= CInt.UINT_MAX ->
  List.NoDup (waiters (snd (sstate p0))) ->
  (forall t, In t (waiters (snd (sstate p0))) ->
     is_blocked (threads (fst (sstate p0))) t = true) ->
  (forall t, In t (waiters (snd (sstate p0))) <-> saved p0 !! t <> None) ->
  run p0 evs = Some p ->
  waiters (snd (sstate p)) = skipn (ups evs) (waiters (snd (sstate p0))) /\
  unblocked (calls (fst (sstate p))) =
    unblocked (calls (fst (sstate p0))) ++
    firstn (ups evs) (waiters (snd (sstate p0))) /\
  (resumes evs <= ups evs)%nat /\
  value (snd (sstate p)) =
    value (snd (sstate p0)) + Z.of_nat (ups evs) - Z.of_nat (resumes evs).
Proof.
  intros Hv Hmax Hnd Hb Hs Hrun.
  assert (Hp0 : progress (waiters (snd (sstate p0))) (value (snd (sstate p0)))
                  (calls (fst (sstate p0))) 0 0 p0).
  { split; cbn [firstn skipn length suspended List.filter Nat.add];
      try reflexivity.
    - lia.
    - intros t Ht. split; [apply Hb | apply Hs]; exact Ht.
    - intros t Ht. apply Hs. exact Ht.
    - rewrite app_nil_r. reflexivity. }
  pose proof (progress_run _ _ _ Hnd Hv evs 0 0 p0 p Hp0 ltac:(lia) Hrun)
    as Hp.
  cbn [Nat.add] in Hp.
  pose proof (progress_bounds _ _ _ _ _ _ Hp) as [Hr Hk].
  destruct Hp as [Hq Hval _ _ _ Hc].
  split; [exact Hq |]. split; [exact Hc |]. split; [lia | exact Hval].
Qed.

Lemma sema_ups_wake_in_order_witness :
  run three_blocked three_ups = Some three_ups_end /\
  waiters (snd (sstate three_blocked)) = [3; 2; 1]%nat /\
  waiters (snd (sstate three_ups_end)) = [] /\
  unblocked (calls (fst (sstate three_ups_end))) = [3; 2; 1]%nat /\
  value (snd (sstate three_ups_end)) = 1.
Proof.
  assert (Hrun : run three_blocked three_ups = Some three_ups_end)
    by (vm_compute; reflexivity).
  assert (Hq0 : waiters (snd (sstate three_blocked)) = [3; 2; 1]%nat)
    by (vm_compute; reflexivity).
  assert (Hv0 : value (snd (sstate three_blocked)) = 0)
    by (vm_compute; reflexivity).
  assert (Hc0 : unblocked (calls (fst (sstate three_blocked))) = [])
    by (vm_compute; reflexivity).
  destruct (sema_ups_wake_in_order three_blocked three_ups_end three_ups)
    as (Hq & Hc & _ & Hval).
  - rewrite Hv0. lia.
  - rewrite Hv0. vm_compute. discriminate.
  - rewrite Hq0. repeat constructor; cbn; intuition discriminate.
  - rewrite Hq0. intros t [<- | [<- | [<- | []]]]; vm_compute; reflexivity.
  - rewrite Hq0. intros t. split.
    + intros [<- | [<- | [<- | []]]]; vm_compute; discriminate.
    + unfold three_blocked. cbn [saved]. intros Ht.
      destruct (list_to_map (M := gmap tid intr_level)
                  [(1%nat, INTR_ON); (2%nat, INTR_ON); (3%nat, INTR_ON)]
                  !! t) as [lv |] eqn:E; [| congruence].
      apply elem_of_list_to_map_2, list_elem_of_In in E.
      destruct E as [E | [E | [E | []]]]; injection E as <- _;
        [right; right; left | right; left | left]; reflexivity.
  - exact Hrun.
  - split; [exact Hrun |]. split; [exact Hq0 |].
    rewrite Hq0, Hv0, Hc0 in *.
    split; [exact Hq |]. split; [exact Hc |]. exact Hval.
Defined.

End SemaSchedFacts.

(** * More on locks *)

Module LockMore.
Import Queue QueueFacts Scenario LockInv.

Lemma lock_try_acquire_free (c : kctx) (s : semaphore) :
  value s = 1 ->
  lock_try_acquire (c, mkLock None s) =
  Ret true (c, mkLock (Some (cur c)) (set_value 0 s)).
Proof.
  intros Hv. destruct c as [ts cu ii lv cl], s as [v w p].
  cbn in Hv. subst v. reflexivity.
Qed.

Lemma lock_try_acquire_held (c : kctx) (h : tid) (s : semaphore) :
  h <> cur c ->
  value s = 0 ->
  lock_try_acquire (c, mkLock (Some h) s) = Ret false (c, mkLock (Some h) s).
Proof.
  intros Hh Hv. destruct c as [ts cu ii lv cl], s as [v w p].
  cbn in Hh, Hv. subst v. kernel_eval.
  rewrite bool_decide_eq_false_2 by (intros [=]; auto). reflexivity.
Qed.

Lemma lock_acquire_free (c : kctx) (s : semaphore) :
  in_intr c = false ->
  value s = 1 ->
  lock_acquire (c, mkLock None s) =
  Ret tt (c, mkLock (Some (cur c)) (set_value 0 s)).
Proof.
  intros Hi Hv. destruct c as [ts cu ii lv cl], s as [v w p].
  cbn in Hi, Hv. subst ii v. reflexivity.
Qed.

Lemma lock_acquire_held (c : kctx) (h : tid) (s : semaphore) :
  in_intr c = false ->
  h <> cur c ->
  value s = 0 ->
  lock_acquire (c, mkLock (Some h) s) =
  Blk (mkCtx
         (alter (set_status THREAD_BLOCKED) (cur c)
            (alter (set_eff_priority (priority_of (threads c) (cur c))) h
               (threads c)))
         (cur c) false INTR_OFF (calls c ++ [CallBlock (cur c)]),
       mkLock (Some h)
         (set_waiters
            (list_insert_ordered
               (priority_ordering_wait
                  (alter (set_eff_priority (priority_of (threads c) (cur c))) h
                     (threads c)))
               (waiters s) (cur c))
            s)).
Proof.
  intros Hi Hh Hv. destruct c as [ts cu ii lv cl], s as [v w p].
  cbn in Hi, Hh, Hv. subst ii v. kernel_eval.
  rewrite bool_decide_eq_false_2 by (intros [=]; auto). kernel_eval. reflexivity.
Qed.

Lemma lock_release_result (c : kctx) (s : semaphore) :
  lock_release (c, mkLock (Some (cur c)) s) =
  Ret tt
    (fst (sema_up_result
            (with_threads (alter (set_eff_priority 0) (cur c)) c) s),
     mkLock None
       (snd (sema_up_result
               (with_threads (alter (set_eff_priority 0) (cur c)) c) s))).
Proof.
  destruct c as [ts cu ii lv cl], s as [v w p]. kernel_eval.
  rewrite bool_decide_eq_true_2 by reflexivity. unfold sema_up_result.
  destruct w as [| t rest]; kernel_eval; [reflexivity |].
  rewrite <- app_assoc. reflexivity.
Qed.

Lemma lock_acquire_resume_free (c : kctx) (s : semaphore)
    (old_level : intr_level) :
  value s = 1 ->
  lock_acquire_resume old_level (c, mkLock None s) =
  Ret tt (with_level old_level c, mkLock (Some (cur c)) (set_value 0 s)).
Proof.
  intros Hv. destruct c as [ts cu ii lv cl], s as [v w p].
  cbn in Hv. subst v. reflexivity.
Qed.

Lemma lock_acquire_resume_held (c : kctx) (h : option tid) (s : semaphore)
    (old_level : intr_level) :
  value s = 0 ->
  lock_acquire_resume old_level (c, mkLock h s) =
  Blk (mkCtx (alter (set_status THREAD_BLOCKED) (cur c) (threads c))
             (cur c) (in_intr c) (level c) (calls c ++ [CallBlock (cur c)]),
       mkLock h
         (set_waiters
            (list_insert_ordered (priority_ordering_wait (threads c))
               (waiters s) (cur c)) s)).
Proof.
  intros Hv. destruct c as [ts cu ii lv cl], s as [v w p].
  cbn in Hv. subst v. reflexivity.
Qed.

Lemma lock_acquire_in_intr (c : kctx) (lk : lock) :
  in_intr c = true -> lock_acquire (c, lk) = Panic.
Proof.
  intros Hi. destruct c as [ts cu ii lv cl]. cbn in Hi. subst ii. reflexivity.
Qed.

Lemma lock_acquire_self (c : kctx) (s : semaphore) :
  lock_acquire (c, mkLock (Some (cur c)) s) = Panic.
Proof.
  destruct c as [ts cu ii lv cl]. destruct ii; kernel_eval;
    rewrite ?bool_decide_eq_true_2 by reflexivity; reflexivity.
Qed.

Lemma lock_try_acquire_self (c : kctx) (s : semaphore) :
  lock_try_acquire (c, mkLock (Some (cur c)) s) = Panic.
Proof.
  destruct c as [ts cu ii lv cl]. kernel_eval.
  rewrite bool_decide_eq_true_2 by reflexivity. reflexivity.
Qed.

Lemma lock_release_foreign (c : kctx) (lk : lock) :
  holder lk <> Some (cur c) -> lock_release (c, lk) = Panic.
Proof.
  intros Hh. destruct c as [ts cu ii lv cl], lk as [h s]. cbn in Hh.
  kernel_eval. rewrite bool_decide_eq_false_2 by exact Hh. reflexivity.
Qed.

(** X8.  [lock_try_acquire] on a lock that is free with count 1 or
    held with count 0.  On a free lock it returns true and the caller
    is the holder; on a lock held by another thread it returns false
    and changes nothing; called by the holder itself it fails its
    assertion.  In no case is a priority donated, a thread queued or
    the scheduler called. *)
Theorem lock_try_acquire_spec (c : kctx) (lk : lock) :
  lock_ok lk ->
  lock_try_acquire (c, lk) =
  match holder lk with
  | None =>
      Ret true (c, mkLock (Some (cur c)) (set_value 0 (semaphore_of lk)))
  | Some h =>
      if bool_decide (h = cur c) then Panic else Ret false (c, lk)
  end.
Proof.
  intros Hok. destruct lk as [[h |] s]; cbn [holder semaphore_of].
  - destruct Hok as [[Hh _] | [_ Hv]]; [discriminate |]. cbn in Hv.
    destruct (bool_decide_reflect (h = cur c)) as [-> | Hne].
    + destruct c, s. kernel_eval.
      rewrite bool_decide_eq_true_2 by reflexivity. reflexivity.
    + apply lock_try_acquire_held; assumption.
  - destruct Hok as [[_ Hv] | [Hh _]]; [| cbn in Hh; congruence].
    apply lock_try_acquire_free. exact Hv.
Qed.

Lemma lock_try_acquire_spec_witness :
  lock_try_acquire (four_threads, mkLock (Some 1%nat) (mkSema 0 [] 0)) =
  Ret false (four_threads, mkLock (Some 1%nat) (mkSema 0 [] 0)).
Proof.
  apply (lock_try_acquire_spec four_threads
           (mkLock (Some 1%nat) (mkSema 0 [] 0))).
  right. split; [discriminate | reflexivity].
Defined.

(** X9.  [lock_acquire] outside interrupt context.  On a free lock
    (count 1) it returns at once with the caller as holder and the
    count at 0, without touching any thread or calling the scheduler.
    On a lock held by another thread (count 0) it does not return: the
    holder keeps the lock, the caller is queued on the lock's
    semaphore and suspended with interrupts off, and the holder's
    [eff_priority] is the caller's effective priority. *)
Theorem lock_acquire_spec (c : kctx) (lk : lock) :
  in_intr c = false ->
  lock_ok lk ->
  holder lk <> Some (cur c) ->
  match holder lk with
  | None =>
      lock_acquire (c, lk) =
      Ret tt (c, mkLock (Some (cur c)) (set_value 0 (semaphore_of lk)))
  | Some h =>
      exists c' lk',
        lock_acquire (c, lk) = Blk (c', lk') /\
        holder lk' = Some h /\
        value (semaphore_of lk') = 0 /\
        In (cur c) (waiters (semaphore_of lk')) /\
        (forall x, In x (waiters (semaphore_of lk)) ->
                   In x (waiters (semaphore_of lk'))) /\
        is_blocked (threads c') (cur c) = true /\
        level c' = INTR_OFF /\
        calls c' = calls c ++ [CallBlock (cur c)] /\
        (forall th, threads c !! h = Some th ->
           eff_priority (thread_at (threads c') h)
             = priority_of (threads c) (cur c))
  end.
Proof.
  intros Hi Hok Hne. destruct lk as [[h |] s]; cbn [holder semaphore_of] in *.
  - destruct Hok as [[Hh _] | [_ Hv]]; [discriminate |]. cbn in Hv.
    assert (Hh : h <> cur c) by congruence.
    rewrite (lock_acquire_held c h s Hi Hh Hv).
    eexists _, _. split; [reflexivity |].
    cbn [holder semaphore_of value waiters set_waiters threads level calls].
    split; [reflexivity |]. split; [exact Hv |].
    split; [apply insert_In; left; reflexivity |].
    split; [intros x Hx; apply insert_In; right; exact Hx |].
    split; [apply TimerFacts.is_blocked_self |].
    split; [reflexivity |]. split; [reflexivity |].
    intros th Hth. unfold thread_at.
    rewrite lookup_alter_ne by (intros Heq; apply Hh; symmetry; exact Heq).
    rewrite lookup_alter_eq, Hth. reflexivity.
  - destruct Hok as [[_ Hv] | [Hh _]]; [| cbn in Hh; congruence].
    apply lock_acquire_free; assumption.
Qed.

Lemma lock_acquire_spec_witness :
  exists c' lk',
    lock_acquire (as_thread 3 four_threads,
                  mkLock (Some 1%nat) (mkSema 0 [2%nat] 0)) = Blk (c', lk') /\
    holder lk' = Some 1%nat /\
    In 3%nat (waiters (semaphore_of lk')).
Proof.
  pose proof (lock_acquire_spec (as_thread 3 four_threads)
                (mkLock (Some 1%nat) (mkSema 0 [2%nat] 0)) eq_refl) as H.
  cbn [holder] in H.
  destruct H as (c' & lk' & Hrun & Hh & _ & Hin & _).
  - right. split; [discriminate | reflexivity].
  - discriminate.
  - exists c', lk'. split; [exact Hrun |]. split; [exact Hh | exact Hin].
Defined.


(** X10.  Acquiring a lock twice is fatal: [lock_acquire] and
    [lock_try_acquire] called by the thread that holds the lock fail
    their assertion, whatever the state of the lock's semaphore. *)
Theorem lock_recursive_acquire_panics (c : kctx) (lk : lock) :
  holder lk = Some (cur c) ->
  lock_acquire (c, lk) = Panic /\ lock_try_acquire (c, lk) = Panic.
Proof.
  intros Hh. destruct c as [ts cu ii lv cl], lk as [h s].
  cbn in Hh. subst h. split; destruct ii; kernel_eval;
    rewrite ?bool_decide_eq_true_2 by reflexivity; reflexivity.
Qed.

Lemma lock_recursive_acquire_panics_witness :
  lock_acquire (as_thread 1 four_threads, mkLock (Some 1%nat) (mkSema 0 [] 0))
    = Panic /\
  lock_try_acquire (as_thread 1 four_threads,
                    mkLock (Some 1%nat) (mkSema 0 [] 0)) = Panic.
Proof.
  apply (lock_recursive_acquire_panics (as_thread 1 four_threads)
           (mkLock (Some 1%nat) (mkSema 0 [] 0))).
  reflexivity.
Defined.

(** X11.  The operations that need the lock are fatal without it:
    [lock_release], [cond_wait] and [cond_signal] called by a thread
    that is not the holder of the lock (or on a free lock) fail their
    assertion before they change anything. *)
Theorem lock_required_panics (c : kctx) (m : monitor) (w : addr) :
  holder (cond_lock m) <> Some (cur c) ->
  lock_release (c, cond_lock m) = Panic /\
  Cond.cond_wait w (c, m) = Panic /\
  Cond.cond_signal (c, m) = Panic.
Proof.
  intros Hh. destruct c as [ts cu ii lv cl], m as [q [h s] el].
  cbn in Hh. repeat split; destruct ii; kernel_eval;
    rewrite ?bool_decide_eq_false_2 by exact Hh; reflexivity.
Qed.

Lemma lock_required_panics_witness :
  lock_release (as_thread 1 four_threads, cond_lock three_waiters) = Panic /\
  Cond.cond_wait 1%nat (as_thread 1 four_threads, three_waiters) = Panic /\
  Cond.cond_signal (as_thread 1 four_threads, three_waiters) = Panic.
Proof.
  apply (lock_required_panics (as_thread 1 four_threads) three_waiters 1%nat).
  discriminate.
Defined.

(** X12.  The operations that may sleep, and [cond_signal], are fatal
    in an interrupt handler: [sema_down], [lock_acquire], [cond_wait]
    and [cond_signal] fail their assertion when an interrupt is being
    handled, even where they would not have had to wait. *)
Theorem interrupt_context_panics (c : kctx) (s : semaphore) (lk : lock)
    (m : monitor) (w : addr) :
  in_intr c = true ->
  sema_down (c, s) = Panic /\
  lock_acquire (c, lk) = Panic /\
  Cond.cond_wait w (c, m) = Panic /\
  Cond.cond_signal (c, m) = Panic.
Proof.
  intros Hi. destruct c as [ts cu ii lv cl]. cbn in Hi. subst ii.
  repeat split; reflexivity.
Qed.

Lemma interrupt_context_panics_witness :
  sema_down (mkCtx (threads four_threads) 4%nat true INTR_OFF [],
             mkSema 1 [] 0) = Panic /\
  lock_acquire (mkCtx (threads four_threads) 4%nat true INTR_OFF [],
                mkLock None (mkSema 1 [] 0)) = Panic /\
  Cond.cond_wait 4%nat (mkCtx (threads four_threads) 4%nat true INTR_OFF [],
                        three_waiters) = Panic /\
  Cond.cond_signal (mkCtx (threads four_threads) 4%nat true INTR_OFF [],
                    three_waiters) = Panic.
Proof.
  apply (interrupt_context_panics
           (mkCtx (threads four_threads) 4%nat true INTR_OFF [])).
  reflexivity.
Defined.

(** X13.  Handing a lock over.  The holder releases a lock on which
    [t] is the first waiter: the lock becomes free (no holder, count
    1), [t] leaves the queue and is made runnable, and the releasing
    thread's [eff_priority] is reset.  When [t] runs next, it takes
    the lock: it is the holder, the count is 0, the other waiters are
    still queued and [t] has the interrupt level it had saved. *)
Theorem lock_release_hands_over (c : kctx) (s : semaphore) (t : tid)
    (rest : list tid) (old_level : intr_level) :
  value s = 0 ->
  waiters s = t :: rest ->
  exists c1 lk1 c2,
    lock_release (c, mkLock (Some (cur c)) s) = Ret tt (c1, lk1) /\
    lk1 = mkLock None (mkSema 1 rest (sema_priority s)) /\
    threads c1 =
      alter (set_status THREAD_READY) t
        (alter (set_eff_priority 0) (cur c) (threads c)) /\
    calls c1 = calls c ++ [CallUnblock t; CallYield (cur c)] /\
    lock_acquire_resume old_level
      (mkCtx (threads c1) t false INTR_OFF (calls c1), lk1) =
    Ret tt (c2, mkLock (Some t) (mkSema 0 rest (sema_priority s))) /\
    c2 = mkCtx (threads c1) t false old_level (calls c1).
Proof.
  intros Hv Hw. rewrite lock_release_result. unfold sema_up_result.
  rewrite Hw, Hv. cbn [fst snd with_threads threads cur in_intr level calls].
  eexists _, _, _. split; [reflexivity |]. split; [reflexivity |].
  cbn [threads calls]. split; [reflexivity |]. split; [reflexivity |].
  split; reflexivity.
Qed.

Lemma lock_release_hands_over_witness :
  exists c1 lk1 c2,
    lock_release (as_thread 1 four_threads,
                  mkLock (Some 1%nat) (mkSema 0 [3; 2]%nat 0))
      = Ret tt (c1, lk1) /\
    lock_acquire_resume INTR_ON
      (mkCtx (threads c1) 3%nat false INTR_OFF (calls c1), lk1) =
    Ret tt (c2, mkLock (Some 3%nat) (mkSema 0 [2%nat] 0)).
Proof.
  destruct (lock_release_hands_over (as_thread 1 four_threads)
              (mkSema 0 [3; 2]%nat 0) 3%nat [2%nat] INTR_ON eq_refl eq_refl)
    as (c1 & lk1 & c2 & Hrel & _ & _ & _ & Hres & _).
  exists c1, lk1, c2. split; [exact Hrel | exact Hres].
Defined.

(** X14.  No hand-off is guaranteed.  After the holder has released a
    lock and woken its first waiter [t], another thread [u] that calls
    [lock_try_acquire] before [t] runs gets the lock.  When [t] then
    runs, it finds the count at 0 and is queued and blocked again; on
    this path it makes no donation: the thread table changes only in
    the status of [t]. *)
Theorem lock_release_allows_barging (c : kctx) (s : semaphore) (t u : tid)
    (rest : list tid) (old_level : intr_level) :
  value s = 0 ->
  waiters s = t :: rest ->
  exists c1 lk1 lk2 c3 lk3,
    lock_release (c, mkLock (Some (cur c)) s) = Ret tt (c1, lk1) /\
    lock_try_acquire (as_thread u c1, lk1) = Ret true (as_thread u c1, lk2) /\
    holder lk2 = Some u /\
    lock_acquire_resume old_level
      (mkCtx (threads c1) t false INTR_OFF (calls c1), lk2) = Blk (c3, lk3) /\
    holder lk3 = Some u /\
    value (semaphore_of lk3) = 0 /\
    waiters (semaphore_of lk3) =
      list_insert_ordered (priority_ordering_wait (threads c1)) rest t /\
    threads c3 = alter (set_status THREAD_BLOCKED) t (threads c1).
Proof.
  intros Hv Hw. rewrite lock_release_result. unfold sema_up_result.
  rewrite Hw, Hv. cbn [fst snd with_threads threads cur in_intr level calls].
  eexists _, _, _, _, _. split; [reflexivity |].
  rewrite lock_try_acquire_free by reflexivity.
  split; [reflexivity |]. split; [reflexivity |].
  rewrite lock_acquire_resume_held by reflexivity.
  split; [reflexivity |]. repeat split.
Qed.

Lemma lock_release_allows_barging_witness :
  exists c1 lk1 lk2 c3 lk3,
    lock_release (as_thread 1 four_threads,
                  mkLock (Some 1%nat) (mkSema 0 [3; 2]%nat 0))
      = Ret tt (c1, lk1) /\
    lock_try_acquire (as_thread 4 c1, lk1) = Ret true (as_thread 4 c1, lk2) /\
    lock_acquire_resume INTR_ON
      (mkCtx (threads c1) 3%nat false INTR_OFF (calls c1), lk2) = Blk (c3, lk3) /\
    holder lk3 = Some 4%nat /\
    waiters (semaphore_of lk3) = [3; 2]%nat.
Proof.
  destruct (lock_release_allows_barging (as_thread 1 four_threads)
              (mkSema 0 [3; 2]%nat 0) 3%nat 4%nat [2%nat] INTR_ON
              eq_refl eq_refl)
    as (c1 & lk1 & lk2 & c3 & lk3 & Hrel & Htry & _ & Hres & Hh & _ & Hq & Hts).
  exists c1, lk1, lk2, c3, lk3.
  split; [exact Hrel |]. split; [exact Htry |]. split; [exact Hres |].
  split; [exact Hh |]. rewrite Hq.
  rewrite lock_release_result in Hrel. inversion Hrel. subst c1.
  vm_compute. reflexivity.
Defined.

End LockMore.

(** * Waiter queues of locks over whole runs *)

Module WaitInvFacts.
Import Sys LockInv WaitInv Scenario.

Lemma is_blocked_alter_eff (p : Z) (h x : tid) (ts : gmap tid thread) :
  is_blocked (alter (set_eff_priority p) h ts) x = is_blocked ts x.
Proof.
  unfold is_blocked, thread_at. destruct (decide (h = x)) as [-> | Hne].
  - rewrite lookup_alter_eq. destruct (ts !! x); reflexivity.
  - rewrite lookup_alter_ne by exact Hne. reflexivity.
Qed.

Lemma is_blocked_alter_ne (f : thread -> thread) (t x : tid)
    (ts : gmap tid thread) :
  t <> x -> is_blocked (alter f t ts) x = is_blocked ts x.
Proof.
  intros Hne. unfold is_blocked. rewrite TimerFacts.thread_at_alter_ne by exact Hne.
  reflexivity.
Qed.

(** The lock at [l] is replaced, the thread table and the suspended
    threads change: what is needed for [waiters_ok] to be kept. *)
Lemma waiters_ok_update (ts ts' : gmap tid thread) (lks : gmap lid lock)
    (pd pd' : gmap tid (lid * intr_level)) (l : lid) (lk' : lock) :
  waiters_ok ts lks pd ->
  (forall l0 lk0 t, lks !! l0 = Some lk0 -> l0 <> l ->
     In t (waiters (semaphore_of lk0)) ->
     is_blocked ts' t = true /\ pd' !! t = pd !! t) ->
  (forall l0 lk0 h old, lks !! l0 = Some lk0 -> l0 <> l ->
     holder lk0 = Some h -> pd !! h <> Some (l0, old) ->
     pd' !! h <> Some (l0, old)) ->
  List.NoDup (waiters (semaphore_of lk')) ->
  (forall t, In t (waiters (semaphore_of lk')) ->
     is_blocked ts' t = true /\ exists old, pd' !! t = Some (l, old)) ->
  (forall h old, holder lk' = Some h -> pd' !! h <> Some (l, old)) ->
  waiters_ok ts' (<[l := lk']> lks) pd'.
Proof.
  intros Hok Hother Hholder Hnd Hw Hh l0 lk0. rewrite lookup_insert.
  case_decide as Hl.
  - intros [= <-]. subst l0.
    split; [exact Hnd | split; [exact Hw | exact Hh]].
  - intros Hl0. destruct (Hok l0 lk0 Hl0) as (Hnd0 & Hw0 & Hh0).
    split; [exact Hnd0 |]. split.
    + intros t Ht. destruct (Hother l0 lk0 t Hl0 ltac:(congruence) Ht) as [Hb Hp].
      split; [exact Hb |]. rewrite Hp. apply (Hw0 t Ht).
    + intros h old Hhold. apply (Hholder l0 lk0 h old Hl0 ltac:(congruence) Hhold).
      apply Hh0. exact Hhold.
Qed.


Lemma idle_inv (s : system) (t : tid) :
  idle s t = true ->
  is_blocked (threads (kc s)) t = false /\ pending s !! t = None.
Proof.
  unfold idle, runnable. intros H. apply andb_true_iff in H.
  destruct H as [Hr Hp]. apply negb_true_iff in Hr.
  apply bool_decide_eq_true in Hp. split; assumption.
Qed.

(** A thread that can run is in no waiter queue. *)
Lemma runnable_not_queued (s : system) (t : tid) (l : lid) (lk : lock) :
  sys_waiters_ok s ->
  is_blocked (threads (kc s)) t = false ->
  locks s !! l = Some lk ->
  ~ In t (waiters (semaphore_of lk)).
Proof.
  intros Hok Ht Hl Hin. destruct (Hok l lk Hl) as (_ & Hw & _).
  destruct (Hw t Hin) as [Hb _]. congruence.
Qed.

Lemma step_init_ok (s s' : system) (l : lid) :
  sys_waiters_ok s -> step s (EvInit l) = Some s' -> sys_waiters_ok s'.
Proof.
  intros Hok. unfold step, init_lock.
  replace (lock_init (kc s, mkLock None (mkSema 0 [] 0)))
    with (Ret tt (kc s, mkLock None (mkSema 1 [] 0)))
    by (destruct (kc s); reflexivity).
  intros [= <-]. unfold sys_waiters_ok. cbn [kc locks pending fst snd].
  eapply waiters_ok_update; [exact Hok | | | | |].
  - intros l0 lk0 t Hl0 _ Ht. destruct (Hok l0 lk0 Hl0) as (_ & Hw & _).
    split; [apply (Hw t Ht) | reflexivity].
  - intros l0 lk0 h old _ _ _ H. exact H.
  - constructor.
  - intros t [].
  - intros h old [=].
Qed.

Lemma step_acquire_ok (s s' : system) (t : tid) (l : lid) :
  sys_ok s -> sys_waiters_ok s ->
  step s (EvAcquire t l) = Some s' -> sys_waiters_ok s'.
Proof.
  intros Hsok Hok. unfold sys_waiters_ok in Hok. unfold step.
  destruct (idle s t) eqn:Hidle; [| discriminate].
  apply idle_inv in Hidle. destruct Hidle as [Hrun Hpend].
  unfold at_lock, zoom_opt, dispatch. cbn [kc locks pending].
  destruct (locks s !! l) as [lk |] eqn:Hl; cbn [fmap option_fmap option_map];
    [| discriminate].
  destruct s as [[ts cu ii lv cl] lks pd].
  cbn [kc locks pending threads with_level with_cur cur in_intr level calls] in *.
  pose proof (Hsok l lk Hl) as Hlk. pose proof (Hok l lk Hl) as (Hnd & Hw & Hh).
  destruct ii.
  { rewrite LockMore.lock_acquire_in_intr by reflexivity. discriminate. }
  destruct lk as [[h |] sm]; cbn [holder semaphore_of] in *.
  - destruct Hlk as [[Hnone _] | [_ Hv]]; [discriminate |]. cbn in Hv.
    destruct (decide (h = t)) as [-> | Hne].
    { rewrite (LockMore.lock_acquire_self (mkCtx ts t false INTR_ON cl)).
      discriminate. }
    rewrite LockMore.lock_acquire_held by (cbn; auto).
    cbn [fst snd threads cur calls]. intros [= <-].
    unfold sys_waiters_ok, with_pending. cbn [kc locks pending threads].
    assert (Hnotin : ~ In t (waiters sm)).
    { intros Hin. destruct (Hw t Hin) as [Hb _]. congruence. }
    eapply waiters_ok_update; [exact Hok | | | | |];
      cbn [holder semaphore_of waiters set_waiters].
    + intros l0 lk0 x Hl0 _ Hx. destruct (Hok l0 lk0 Hl0) as (_ & Hw0 & _).
      destruct (Hw0 x Hx) as [Hb _]. split.
      * apply TimerFacts.is_blocked_after_block.
        rewrite is_blocked_alter_eff. exact Hb.
      * apply lookup_insert_ne. intros ->. congruence.
    + intros l0 lk0 h0 old Hl0 Hne0 Hh0 Hp. rewrite lookup_insert.
      case_decide; [intros [= -> _]; congruence | exact Hp].
    + apply TimerFacts.insert_NoDup; assumption.
    + intros x Hx. apply (QueueFacts.insert_In) in Hx.
      destruct Hx as [-> | Hx].
      * split; [apply TimerFacts.is_blocked_self |].
        exists INTR_ON. apply lookup_insert_eq.
      * destruct (Hw x Hx) as [Hb [old Hp]]. split.
        -- apply TimerFacts.is_blocked_after_block.
           rewrite is_blocked_alter_eff. exact Hb.
        -- exists old. rewrite lookup_insert_ne; [exact Hp |].
           intros ->. congruence.
    + intros h0 old [= <-]. rewrite lookup_insert_ne by congruence.
      apply Hh. reflexivity.
  - destruct Hlk as [[_ Hv] | [Hnone _]]; [| cbn in Hnone; congruence].
    cbn in Hv. rewrite LockMore.lock_acquire_free by (cbn; auto).
    intros [= <-]. unfold sys_waiters_ok. cbn [kc locks pending threads fst snd].
    eapply waiters_ok_update; [exact Hok | | | | |];
      cbn [holder semaphore_of waiters set_value].
    + intros l0 lk0 x Hl0 _ Hx. destruct (Hok l0 lk0 Hl0) as (_ & Hw0 & _).
      split; [apply (Hw0 x Hx) | reflexivity].
    + intros l0 lk0 h0 old _ _ _ H. exact H.
    + exact Hnd.
    + exact Hw.
    + intros h0 old [= <-]. rewrite Hpend. discriminate.
Qed.


Lemma step_resume_ok (s s' : system) (t : tid) :
  sys_ok s -> sys_waiters_ok s ->
  step s (EvResume t) = Some s' -> sys_waiters_ok s'.
Proof.
  intros Hsok Hok. unfold sys_waiters_ok in Hok. unfold step.
  destruct (pending s !! t) as [[l old_level] |] eqn:Hpend; [| discriminate].
  destruct (runnable s t) eqn:Hrun; [| discriminate].
  unfold runnable in Hrun. apply negb_true_iff in Hrun.
  unfold at_lock, zoom_opt, dispatch. cbn [kc locks pending].
  destruct (locks s !! l) as [lk |] eqn:Hl; cbn [fmap option_fmap option_map];
    [| discriminate].
  destruct s as [[ts cu ii lv cl] lks pd].
  cbn [kc locks pending threads with_level with_cur cur in_intr level calls] in *.
  pose proof (Hsok l lk Hl) as Hlk. pose proof (Hok l lk Hl) as (Hnd & Hw & Hh).
  assert (Hnotin : ~ In t (waiters (semaphore_of lk))).
  { intros Hin. destruct (Hw t Hin) as [Hb _]. congruence. }
  destruct lk as [h sm]; cbn [holder semaphore_of] in *.
  destruct Hlk as [[Hnone Hv] | [Hsome Hv]]; cbn in Hv.
  - cbn in Hnone. subst h. rewrite LockMore.lock_acquire_resume_free by exact Hv.
    cbn [fst snd]. intros [= <-].
    unfold sys_waiters_ok, with_pending.
    cbn [kc locks pending threads with_level].
    eapply waiters_ok_update; [exact Hok | | | | |];
      cbn [holder semaphore_of waiters set_value].
    + intros l0 lk0 x Hl0 _ Hx. destruct (Hok l0 lk0 Hl0) as (_ & Hw0 & _).
      destruct (Hw0 x Hx) as [Hb _]. split; [exact Hb |].
      apply lookup_delete_ne. intros ->. congruence.
    + intros l0 lk0 h0 old _ _ _ Hp. rewrite lookup_delete.
      case_decide; [discriminate | exact Hp].
    + exact Hnd.
    + intros x Hx. destruct (Hw x Hx) as [Hb [old Hp]].
      split; [exact Hb |]. exists old.
      rewrite lookup_delete_ne; [exact Hp |]. intros ->. congruence.
    + intros h0 old [= <-]. rewrite lookup_delete_eq. discriminate.
  - rewrite LockMore.lock_acquire_resume_held by exact Hv.
    cbn [fst snd threads cur calls]. intros [= <-].
    unfold sys_waiters_ok. cbn [kc locks pending threads].
    eapply waiters_ok_update; [exact Hok | | | | |];
      cbn [holder semaphore_of waiters set_waiters].
    + intros l0 lk0 x Hl0 _ Hx. destruct (Hok l0 lk0 Hl0) as (_ & Hw0 & _).
      destruct (Hw0 x Hx) as [Hb _].
      split; [apply TimerFacts.is_blocked_after_block; exact Hb | reflexivity].
    + intros l0 lk0 h0 old _ _ _ Hp. exact Hp.
    + apply TimerFacts.insert_NoDup; assumption.
    + intros x Hx. apply (QueueFacts.insert_In) in Hx.
      destruct Hx as [-> | Hx].
      * split; [apply TimerFacts.is_blocked_self |].
        exists old_level. exact Hpend.
      * destruct (Hw x Hx) as [Hb Hp].
        split; [apply TimerFacts.is_blocked_after_block; exact Hb | exact Hp].
    + exact Hh.
Qed.

Lemma step_try_acquire_ok (s s' : system) (t : tid) (l : lid) :
  sys_ok s -> sys_waiters_ok s ->
  step s (EvTryAcquire t l) = Some s' -> sys_waiters_ok s'.
Proof.
  intros Hsok Hok. unfold sys_waiters_ok in Hok. unfold step.
  destruct (idle s t) eqn:Hidle; [| discriminate].
  apply idle_inv in Hidle. destruct Hidle as [Hrun Hpend].
  unfold at_lock, zoom_opt, dispatch. cbn [kc locks pending].
  destruct (locks s !! l) as [lk |] eqn:Hl; cbn [fmap option_fmap option_map];
    [| discriminate].
  destruct s as [[ts cu ii lv cl] lks pd].
  cbn [kc locks pending threads with_level with_cur cur in_intr level calls] in *.
  pose proof (Hsok l lk Hl) as Hlk. pose proof (Hok l lk Hl) as (Hnd & Hw & Hh).
  assert (Hkeep : forall lk',
            waiters (semaphore_of lk') = waiters (semaphore_of lk) ->
            (forall h old, holder lk' = Some h -> pd !! h <> Some (l, old)) ->
            waiters_ok ts (<[l := lk']> lks) pd).
  { intros lk' Hq Hh'.
    eapply waiters_ok_update; [exact Hok | | | | |]; rewrite ?Hq.
    - intros l0 lk0 x Hl0 _ Hx. destruct (Hok l0 lk0 Hl0) as (_ & Hw0 & _).
      split; [apply (Hw0 x Hx) | reflexivity].
    - intros l0 lk0 h0 old _ _ _ Hp. exact Hp.
    - exact Hnd.
    - exact Hw.
    - exact Hh'. }
  destruct lk as [[h |] sm]; cbn [holder semaphore_of] in *.
  - destruct Hlk as [[Hnone _] | [_ Hv]]; [discriminate |]. cbn in Hv.
    destruct (decide (h = t)) as [-> | Hne].
    { rewrite (LockMore.lock_try_acquire_self (mkCtx ts t ii INTR_ON cl)).
      discriminate. }
    rewrite LockMore.lock_try_acquire_held by (cbn; auto).
    cbn [fst snd]. intros [= <-].
    unfold sys_waiters_ok. cbn [kc locks pending threads].
    apply Hkeep; [reflexivity | exact Hh].
  - destruct Hlk as [[_ Hv] | [Hnone _]]; [| cbn in Hnone; congruence].
    cbn in Hv. rewrite LockMore.lock_try_acquire_free by exact Hv.
    cbn [fst snd]. intros [= <-].
    unfold sys_waiters_ok. cbn [kc locks pending threads cur].
    apply Hkeep; [reflexivity |].
    intros h0 old [= <-]. rewrite Hpend. discriminate.
Qed.

Lemma step_release_ok (s s' : system) (t : tid) (l : lid) :
  sys_ok s -> sys_waiters_ok s ->
  step s (EvRelease t l) = Some s' -> sys_waiters_ok s'.
Proof.
  intros Hsok Hok. unfold sys_waiters_ok in Hok. unfold step.
  destruct (idle s t) eqn:Hidle; [| discriminate].
  unfold at_lock, zoom_opt, dispatch. cbn [kc locks pending].
  destruct (locks s !! l) as [lk |] eqn:Hl; cbn [fmap option_fmap option_map];
    [| discriminate].
  destruct s as [[ts cu ii lv cl] lks pd].
  cbn [kc locks pending threads with_level with_cur cur in_intr level calls] in *.
  pose proof (Hok l lk Hl) as (Hnd & Hw & Hh).
  destruct lk as [h sm]; cbn [holder semaphore_of] in *.
  destruct (decide (h = Some t)) as [-> | Hne].
  2: { rewrite LockMore.lock_release_foreign by (cbn; exact Hne). discriminate. }
  rewrite (LockMore.lock_release_result (mkCtx ts t ii INTR_ON cl)).
  unfold sema_up_result.
  cbn [with_threads threads cur in_intr level calls].
  destruct (waiters sm) as [| u rest] eqn:Hq;
    cbn [fst snd]; intros [= <-];
    unfold sys_waiters_ok; cbn [kc locks pending threads];
    (eapply waiters_ok_update; [exact Hok | | | | |]);
    cbn [holder semaphore_of waiters].
  - intros l0 lk0 x Hl0 _ Hx. destruct (Hok l0 lk0 Hl0) as (_ & Hw0 & _).
    destruct (Hw0 x Hx) as [Hb _].
    split; [rewrite is_blocked_alter_eff; exact Hb | reflexivity].
  - intros l0 lk0 h0 old _ _ _ Hp. exact Hp.
  - constructor.
  - intros x [].
  - intros h0 old [=].
  - intros l0 lk0 x Hl0 Hne0 Hx. destruct (Hok l0 lk0 Hl0) as (_ & Hw0 & _).
    destruct (Hw0 x Hx) as [Hb [old Hp]]. split; [| reflexivity].
    destruct (Hw u (or_introl eq_refl)) as [_ [old' Hpu]].
    rewrite is_blocked_alter_ne by (intros ->; congruence).
    rewrite is_blocked_alter_eff. exact Hb.
  - intros l0 lk0 h0 old _ _ _ Hp. exact Hp.
  - apply List.NoDup_cons_iff in Hnd. apply Hnd.
  - intros x Hx. apply List.NoDup_cons_iff in Hnd. destruct Hnd as [Hu _].
    destruct (Hw x (or_intror Hx)) as [Hb Hp]. split; [| exact Hp].
    rewrite is_blocked_alter_ne by (intros ->; contradiction).
    rewrite is_blocked_alter_eff. exact Hb.
  - intros h0 old [=].
Qed.

Lemma step_waiters_ok (s s' : system) (e : event) :
  sys_ok s -> sys_waiters_ok s -> step s e = Some s' -> sys_waiters_ok s'.
Proof.
  intros Hsok Hok. destruct e as [l | t l | t | t l | t l].
  - apply step_init_ok. exact Hok.
  - apply step_acquire_ok; assumption.
  - apply step_resume_ok; assumption.
  - apply step_try_acquire_ok; assumption.
  - apply step_release_ok; assumption.
Qed.

Lemma run_waiters_ok (evs : list event) : forall s s',
  sys_ok s -> sys_waiters_ok s -> run s evs = Some s' -> sys_waiters_ok s'.
Proof.
  induction evs as [| e evs IH]; intros s s' Hsok Hok; cbn [run].
  - intros [= <-]. exact Hok.
  - destruct (step s e) as [s1 |] eqn:He; [| discriminate].
    apply IH.
    + eapply LockInvFacts.step_ok; eassumption.
    + eapply step_waiters_ok; eassumption.
Qed.

(** X15.  Start from a kernel in which no lock has been initialised
    and let threads call [lock_init], [lock_acquire],
    [lock_try_acquire] and [lock_release] in any order the scheduler
    allows.  In every state this leads to, and for every lock: no
    thread is in the waiter queue twice; every thread in the queue is
    blocked and is suspended in [lock_acquire] on that lock; and the
    holder of the lock is not in its queue. *)
Theorem lock_waiters_are_blocked (s0 s : system) (evs : list event)
    (l : lid) (lk : lock) :
  locks s0 = ∅ ->
  run s0 evs = Some s ->
  locks s !! l = Some lk ->
  List.NoDup (waiters (semaphore_of lk)) /\
  (forall t, In t (waiters (semaphore_of lk)) ->
     is_blocked (threads (kc s)) t = true /\
     exists old, pending s !! t = Some (l, old)) /\
  (forall h, holder lk = Some h -> ~ In h (waiters (semaphore_of lk))).
Proof.
  intros Hempty Hrun Hl.
  assert (Hok : sys_waiters_ok s).
  { apply (run_waiters_ok evs s0 s); [| | exact Hrun].
    - intros l' lk'. rewrite Hempty, lookup_empty. discriminate.
    - intros l' lk'. rewrite Hempty, lookup_empty. discriminate. }
  destruct (Hok l lk Hl) as (Hnd & Hw & Hh).
  split; [exact Hnd |]. split; [exact Hw |].
  intros h Hhold Hin. destruct (Hw h Hin) as [_ [old Hp]].
  exact (Hh h old Hhold Hp).
Qed.

Lemma lock_waiters_are_blocked_witness :
  run (boot [(1%nat, 1); (2%nat, 5); (3%nat, 10)]) contention
    = Some contention_state /\
  locks contention_state !! 1%nat
    = Some (mkLock (Some 1%nat) (mkSema 0 [3; 2]%nat 0)) /\
  is_blocked (threads (kc contention_state)) 3%nat = true /\
  is_blocked (threads (kc contention_state)) 2%nat = true.
Proof.
  split; [vm_compute; reflexivity |].
  split; [vm_compute; reflexivity |].
  destruct (lock_waiters_are_blocked
              (boot [(1%nat, 1); (2%nat, 5); (3%nat, 10)]) contention_state
              contention 1%nat (mkLock (Some 1%nat) (mkSema 0 [3; 2]%nat 0)))
    as (_ & Hw & _).
  - reflexivity.
  - vm_compute. reflexivity.
  - vm_compute. reflexivity.
  - split.
    + apply (Hw 3%nat). left. reflexivity.
    + apply (Hw 2%nat). right. left. reflexivity.
Defined.

End WaitInvFacts.

(** * Locks under preemption *)

Module PreemptFacts.
Import Sys LockInv Preempt.

(** The pieces put together are the operations. *)
Lemma lock_acquire_pieces (s : lock_state) :
  lock_acquire s =
  (lock_acquire_enter ;;; in_semaphore sema_down ;;; lock_take) s.
Proof.
  unfold lock_acquire, lock_acquire_enter, bind.
  destruct (intr_context lctx s) as [i s1 | s1 |]; try reflexivity.
  destruct (ASSERT (negb i) s1) as [u s2 | s2 |]; try reflexivity.
  destruct (lock_held_by_current_thread s2) as [h s3 | s3 |]; try reflexivity.
  destruct (ASSERT (negb h) s3) as [u' s4 | s4 |]; reflexivity.
Qed.

Lemma lock_try_acquire_pieces (s : lock_state) :
  lock_try_acquire s =
  (success <- lock_try_acquire_enter ;;
   (if success : bool then lock_take else ret tt) ;;;
   ret success) s.
Proof.
  unfold lock_try_acquire, lock_try_acquire_enter, bind.
  destruct (lock_held_by_current_thread s) as [h s1 | s1 |]; try reflexivity.
  destruct (ASSERT (negb h) s1) as [u s2 | s2 |]; reflexivity.
Qed.

Lemma lock_release_pieces (s : lock_state) :
  lock_release s =
  (lock_release_enter ;;; lock_release_clear ;;; in_semaphore sema_up) s.
Proof.
  unfold lock_release, lock_release_enter, lock_release_clear, bind.
  destruct (lock_held_by_current_thread s) as [h s1 | s1 |]; try reflexivity.
  destruct (ASSERT h s1) as [u s2 | s2 |]; reflexivity.
Qed.

(** ** What each piece does to the lock *)

Ltac piece_eval :=
  unfold lock_acquire_enter, lock_try_acquire_enter, lock_release_enter,
    lock_release_clear;
  LockInvFacts.lock_eval.

Lemma lock_acquire_enter_lock c lk :
  match lock_acquire_enter (c, lk) with
  | Ret _ s' => snd s' = lk
  | Blk _ => False
  | Panic => True
  end.
Proof.
  destruct lk as [h sm]. piece_eval.
  destruct (in_intr c); cbn; [exact I |].
  destruct (bool_decide (h = Some (cur c))); cbn; [exact I |].
  destruct h; reflexivity.
Qed.

Lemma sema_down_loop_lock old c lk :
  match in_semaphore (sema_down_loop old) (c, lk) with
  | Ret _ s' =>
      value (semaphore_of lk) <> 0 /\ holder (snd s') = holder lk /\
      value (semaphore_of (snd s')) =
        CInt.wrapu32 (value (semaphore_of lk) - 1)
  | Blk s' =>
      value (semaphore_of lk) = 0 /\ holder (snd s') = holder lk /\
      value (semaphore_of (snd s')) = 0
  | Panic => True
  end.
Proof.
  destruct lk as [h [v w pr]]. piece_eval.
  destruct (Z.eqb_spec v 0) as [-> | Hv]; cbn; auto.
Qed.

Lemma sema_down_lock c lk :
  match in_semaphore sema_down (c, lk) with
  | Ret _ s' =>
      value (semaphore_of lk) <> 0 /\ holder (snd s') = holder lk /\
      value (semaphore_of (snd s')) =
        CInt.wrapu32 (value (semaphore_of lk) - 1)
  | Blk s' =>
      value (semaphore_of lk) = 0 /\ holder (snd s') = holder lk /\
      value (semaphore_of (snd s')) = 0
  | Panic => True
  end.
Proof.
  destruct lk as [h [v w pr]]. piece_eval.
  destruct (in_intr c); cbn; [exact I |].
  destruct (Z.eqb_spec v 0) as [-> | Hv]; cbn; auto.
Qed.

Lemma lock_take_lock c lk :
  lock_take (c, lk) = Ret tt (c, set_holder (Some (cur c)) lk).
Proof. reflexivity. Qed.

Lemma lock_try_acquire_enter_lock c lk :
  match lock_try_acquire_enter (c, lk) with
  | Ret b s' =>
      holder (snd s') = holder lk /\
      if b then
        value (semaphore_of lk) <> 0 /\
        value (semaphore_of (snd s')) =
          CInt.wrapu32 (value (semaphore_of lk) - 1)
      else value (semaphore_of (snd s')) = value (semaphore_of lk)
  | Blk _ => False
  | Panic => True
  end.
Proof.
  destruct lk as [h [v w pr]]. piece_eval.
  destruct (bool_decide (h = Some (cur c))); cbn; [exact I |].
  destruct (Z.gtb_spec v 0) as [Hv | Hv]; cbn; repeat split; lia.
Qed.

Lemma lock_release_enter_lock c lk :
  match lock_release_enter (c, lk) with
  | Ret _ s' => holder lk = Some (cur c) /\ snd s' = lk
  | Blk _ => False
  | Panic => True
  end.
Proof.
  destruct lk as [h sm]. piece_eval.
  destruct (bool_decide_reflect (h = Some (cur c))) as [-> | Hn]; cbn;
    [| exact I].
  split; reflexivity.
Qed.

Lemma lock_release_clear_lock c lk :
  lock_release_clear (c, lk) = Ret tt (c, set_holder None lk).
Proof. reflexivity. Qed.

Lemma sema_up_lock c lk :
  match in_semaphore sema_up (c, lk) with
  | Ret _ s' =>
      holder (snd s') = holder lk /\
      value (semaphore_of (snd s')) =
        CInt.wrapu32 (value (semaphore_of lk) + 1)
  | Blk _ => False
  | Panic => False
  end.
Proof.
  destruct lk as [h [v w pr]]. piece_eval.
  destruct w as [| t w']; cbn; auto.
Qed.

Lemma lock_try_acquire_lock c lk :
  match lock_try_acquire (c, lk) with
  | Ret b s' =>
      if b then
        value (semaphore_of lk) <> 0 /\
        holder (snd s') = Some (cur c) /\
        value (semaphore_of (snd s')) =
          CInt.wrapu32 (value (semaphore_of lk) - 1)
      else
        holder (snd s') = holder lk /\
        value (semaphore_of (snd s')) = value (semaphore_of lk)
  | Blk _ => False
  | Panic => True
  end.
Proof.
  destruct lk as [h [v w pr]]. piece_eval.
  destruct (bool_decide (h = Some (cur c))); cbn; [exact I |].
  destruct (Z.gtb_spec v 0) as [Hv | Hv]; cbn; repeat split; lia.
Qed.

(** Code run on the lock at [l] changes that lock and nothing else of
    the lock table. *)
Lemma at_lock_inv {A} l (m : M lock_state A) s :
  match at_lock l m s with
  | Ret a s' =>
      exists lk c' lk',
        locks s !! l = Some lk /\ m (kc s, lk) = Ret a (c', lk') /\
        locks s' = <[l := lk']> (locks s) /\ pending s' = pending s
  | Blk s' =>
      exists lk c' lk',
        locks s !! l = Some lk /\ m (kc s, lk) = Blk (c', lk') /\
        locks s' = <[l := lk']> (locks s) /\ pending s' = pending s
  | Panic => True
  end.
Proof.
  unfold at_lock, zoom_opt.
  destruct (locks s !! l) as [lk |] eqn:Hl; cbn; [| exact I].
  destruct (m (kc s, lk)) as [a [c' lk'] | [c' lk'] |] eqn:Hm;
    try exact I; exists lk, c', lk'; auto.
Qed.


(** ** How the condition of a lock changes *)

(** A free lock has count 1, the others count 0. *)
Lemma lock_mode_value fl l lk :
  lock_mode fl l lk ->
  value (semaphore_of lk) = 1 \/ value (semaphore_of lk) = 0.
Proof.
  intros [(_ & H & _) | [(h & _ & H & _) | (t & _ & H & _)]]; auto.
Qed.

Lemma lock_mode_ext fl fl' l lk lk' :
  holder lk' = holder lk ->
  value (semaphore_of lk') = value (semaphore_of lk) ->
  (forall t, fl' !! t = Some (BeforeTake l) <-> fl !! t = Some (BeforeTake l)) ->
  (forall t, fl' !! t = Some (BeforeUp l) <-> fl !! t = Some (BeforeUp l)) ->
  (forall t, fl' !! t = Some (BeforeClear l) <-> fl !! t = Some (BeforeClear l)) ->
  lock_mode fl l lk -> lock_mode fl' l lk'.
Proof.
  intros Hh Hv H1 H2 H3. unfold lock_mode, in_window.
  rewrite Hh, Hv.
  setoid_rewrite H1. setoid_rewrite H2. setoid_rewrite H3. auto.
Qed.

(** The semaphore is taken: a free lock passes into the hands of
    [t]. *)
Lemma lock_mode_down fl l lk lk' t :
  lock_mode fl l lk ->
  value (semaphore_of lk) <> 0 ->
  holder lk' = holder lk ->
  value (semaphore_of lk') = CInt.wrapu32 (value (semaphore_of lk) - 1) ->
  lock_mode (<[t := BeforeTake l]> fl) l lk'.
Proof.
  unfold lock_mode, in_window. intros Hm Hv Hh Hv'. rewrite Hh, Hv'.
  destruct Hm as [(Hn & H1 & Hw & Hc) | [(h & _ & H0 & _) | (t0 & _ & H0 & _)]];
    [| congruence | congruence].
  right. right. exists t. rewrite H1.
  split; [exact Hn |]. split; [reflexivity |].
  split; [left; apply lookup_insert_eq |].
  split.
  - intros t'. destruct (decide (t' = t)) as [-> | Hne]; [auto |].
    rewrite lookup_insert_ne by auto. intros Hw'. destruct (Hw t' Hw').
  - intros t'. destruct (decide (t' = t)) as [-> | Hne].
    + rewrite lookup_insert_eq. discriminate.
    + rewrite lookup_insert_ne by auto. apply Hc.
Qed.

(** [lock->holder = thread_current ()] ends the window. *)
Lemma lock_mode_take fl l lk t :
  lock_mode fl l lk ->
  fl !! t = Some (BeforeTake l) ->
  lock_mode (delete t fl) l (set_holder (Some t) lk).
Proof.
  unfold lock_mode, in_window. intros Hm Ht. cbn.
  destruct Hm as [(_ & _ & Hw & _) | [(h & _ & _ & Hw & _) | (t0 & Hn & H0 & _ & Hu & Hc)]];
    [destruct (Hw t); auto | destruct (Hw t); auto |].
  right. left. exists t.
  split; [reflexivity |]. split; [exact H0 |].
  split.
  - intros t'. destruct (decide (t' = t)) as [-> | Hne].
    + rewrite lookup_delete_eq. intros [H | H]; discriminate.
    + rewrite lookup_delete_ne by auto. intros Hw'.
      apply Hne. rewrite (Hu t' Hw'). symmetry. apply Hu. auto.
  - intros t'. destruct (decide (t' = t)) as [-> | Hne]; [auto |].
    rewrite lookup_delete_ne by auto. intros H. destruct (Hc t' H).
Qed.

(** The holder enters [lock_release]. *)
Lemma lock_mode_release fl l lk t :
  lock_mode fl l lk ->
  holder lk = Some t ->
  lock_mode (<[t := BeforeClear l]> fl) l lk.
Proof.
  unfold lock_mode, in_window. intros Hm Hh.
  destruct Hm as [(Hn & _) | [(h & Hh' & H0 & Hw & Hc) | (t0 & Hn & _)]];
    [congruence | | congruence].
  right. left. exists t.
  split; [exact Hh |]. split; [exact H0 |].
  split.
  - intros t'. destruct (decide (t' = t)) as [-> | Hne].
    + rewrite lookup_insert_eq. intros [H | H]; discriminate.
    + rewrite lookup_insert_ne by auto. apply Hw.
  - intros t'. destruct (decide (t' = t)) as [-> | Hne]; [auto |].
    rewrite lookup_insert_ne by auto. intros H.
    rewrite (Hc t' H). congruence.
Qed.

(** [lock->holder = NULL] opens the window of [lock_release]. *)
Lemma lock_mode_clear fl l lk t :
  lock_mode fl l lk ->
  fl !! t = Some (BeforeClear l) ->
  lock_mode (<[t := BeforeUp l]> fl) l (set_holder None lk).
Proof.
  unfold lock_mode, in_window. intros Hm Ht. cbn.
  destruct Hm as [(_ & _ & _ & Hc) | [(h & Hh & H0 & Hw & Hc) | (t0 & _ & _ & _ & _ & Hc)]];
    [destruct (Hc t Ht) | | destruct (Hc t Ht)].
  right. right. exists t.
  split; [reflexivity |]. split; [exact H0 |].
  split; [right; apply lookup_insert_eq |].
  split.
  - intros t'. destruct (decide (t' = t)) as [-> | Hne]; [auto |].
    rewrite lookup_insert_ne by auto. intros Hw'. destruct (Hw t' Hw').
  - intros t'. destruct (decide (t' = t)) as [-> | Hne].
    + rewrite lookup_insert_eq. discriminate.
    + rewrite lookup_insert_ne by auto. intros H.
      apply Hne. rewrite (Hc t' H). symmetry. apply Hc. exact Ht.
Qed.

(** [sema_up] ends the window of [lock_release]: the lock is free. *)
Lemma lock_mode_up fl l lk lk' t :
  lock_mode fl l lk ->
  fl !! t = Some (BeforeUp l) ->
  holder lk' = holder lk ->
  value (semaphore_of lk') = CInt.wrapu32 (value (semaphore_of lk) + 1) ->
  lock_mode (delete t fl) l lk'.
Proof.
  unfold lock_mode, in_window. intros Hm Ht Hh Hv'. rewrite Hh, Hv'.
  destruct Hm as [(_ & _ & Hw & _) | [(h & _ & _ & Hw & _) | (t0 & Hn & H0 & _ & Hu & Hc)]];
    [destruct (Hw t); auto | destruct (Hw t); auto |].
  left. rewrite H0.
  split; [exact Hn |]. split; [reflexivity |].
  split.
  - intros t'. destruct (decide (t' = t)) as [-> | Hne].
    + rewrite lookup_delete_eq. intros [H | H]; discriminate.
    + rewrite lookup_delete_ne by auto. intros Hw'.
      apply Hne. rewrite (Hu t' Hw'). symmetry. apply Hu. auto.
  - intros t'. destruct (decide (t' = t)) as [-> | Hne].
    + rewrite lookup_delete_eq. discriminate.
    + rewrite lookup_delete_ne by auto. apply Hc.
Qed.

(** A whole [lock_try_acquire] that succeeds: from free to held. *)
Lemma lock_mode_try fl l lk lk' t :
  lock_mode fl l lk ->
  value (semaphore_of lk) <> 0 ->
  holder lk' = Some t ->
  value (semaphore_of lk') = CInt.wrapu32 (value (semaphore_of lk) - 1) ->
  lock_mode fl l lk'.
Proof.
  unfold lock_mode, in_window. intros Hm Hv Hh Hv'. rewrite Hh, Hv'.
  destruct Hm as [(Hn & H1 & Hw & Hc) | [(h & _ & H0 & _) | (t0 & _ & H0 & _)]];
    [| congruence | congruence].
  right. left. exists t. rewrite H1.
  split; [reflexivity |]. split; [reflexivity |].
  split; [exact Hw |].
  intros t' H. destruct (Hc t' H).
Qed.


(** ** The invariant *)

(** A piece run by [t] on lock [l] moves [t] from one point of an
    operation on [l] to another and rewrites [l]: what is to be shown
    is the condition of [l] alone. *)
Lemma locks_ok_piece p l lk lk' s' fl' t :
  locks_ok p ->
  locks (sys p) !! l = Some lk ->
  locks s' = <[l := lk']> (locks (sys p)) ->
  (forall t', t' <> t -> fl' !! t' = inflight p !! t') ->
  (forall st, inflight p !! t = Some st -> stage_lock st = l) ->
  (forall st, fl' !! t = Some st -> stage_lock st = l) ->
  (forall t', pending s' !! t' <> None -> fl' !! t' = None) ->
  lock_mode fl' l lk' ->
  locks_ok (mkPSystem s' fl').
Proof.
  intros (Hmodes & _) Hl Hlocks Hother Hold Hnew Hpd Hmode.
  split; cbn [sys inflight].
  - intros l2 lk2. rewrite Hlocks, lookup_insert.
    case_decide as Hl2; [intros [= <-]; subst l2; exact Hmode |].
    intros H2.
    apply (lock_mode_ext (inflight p) fl' l2 lk2 lk2); auto.
    + intros t'. destruct (decide (t' = t)) as [-> | Hne];
        [| rewrite Hother by auto; reflexivity].
      split; intros H; [apply Hnew in H | apply Hold in H];
        cbn in H; congruence.
    + intros t'. destruct (decide (t' = t)) as [-> | Hne];
        [| rewrite Hother by auto; reflexivity].
      split; intros H; [apply Hnew in H | apply Hold in H];
        cbn in H; congruence.
    + intros t'. destruct (decide (t' = t)) as [-> | Hne];
        [| rewrite Hother by auto; reflexivity].
      split; intros H; [apply Hnew in H | apply Hold in H];
        cbn in H; congruence.
  - exact Hpd.
Qed.

(** The same when no thread moves. *)
Lemma locks_ok_lock p l lk' s' :
  locks_ok p ->
  locks s' = <[l := lk']> (locks (sys p)) ->
  (forall t', pending s' !! t' <> None -> inflight p !! t' = None) ->
  lock_mode (inflight p) l lk' ->
  locks_ok (mkPSystem s' (inflight p)).
Proof.
  intros (Hmodes & _) Hlocks Hpd Hmode.
  split; cbn [sys inflight].
  - intros l2 lk2. rewrite Hlocks, lookup_insert.
    case_decide as Hl2; [intros [= <-]; subst l2; exact Hmode | apply Hmodes].
  - exact Hpd.
Qed.

Lemma lock_piece_inv p t l m next p' :
  lock_piece p t l m next = Some p' ->
  exists lk c' lk' s',
    locks (sys p) !! l = Some lk /\
    m (kc (dispatch t INTR_ON (sys p)), lk) = Ret tt (c', lk') /\
    locks s' = <[l := lk']> (locks (sys p)) /\
    pending s' = pending (sys p) /\
    p' = mkPSystem s'
           (match next with
            | Some st => <[t := st]> (inflight p)
            | None => delete t (inflight p)
            end).
Proof.
  unfold lock_piece. destruct (runnable (sys p) t); [| discriminate].
  pose proof (at_lock_inv l m (dispatch t INTR_ON (sys p))) as H.
  destruct (at_lock l m (dispatch t INTR_ON (sys p))) as [[] s' | s' |];
    try discriminate.
  destruct H as (lk & c' & lk' & Hl & Hm & Hlocks & Hpd).
    cbn [dispatch interrupt locks pending] in Hl, Hlocks, Hpd.
  intros [= <-]. exists lk, c', lk', s'. auto.
Qed.

Lemma free_inv p t :
  free p t = true ->
  pending (sys p) !! t = None /\ inflight p !! t = None.
Proof.
  unfold free, idle. intros H.
  apply andb_true_iff in H as [H Hf]. apply andb_true_iff in H as [_ Hp].
  apply bool_decide_eq_true in Hf. apply bool_decide_eq_true in Hp. auto.
Qed.


(** A thread that moves between points outside the windows leaves the
    condition of every lock as it is. *)
Lemma lock_mode_outside fl fl' l lk lk' t :
  holder lk' = holder lk ->
  value (semaphore_of lk') = value (semaphore_of lk) ->
  (forall t', t' <> t -> fl' !! t' = fl !! t') ->
  (forall st, fl !! t = Some st -> exists l1, st = BeforeDown l1) ->
  (forall st, fl' !! t = Some st -> exists l1, st = BeforeDown l1) ->
  lock_mode fl l lk -> lock_mode fl' l lk'.
Proof.
  intros Hh Hv Hother Hold Hnew.
  apply lock_mode_ext; auto; intros t';
    (destruct (decide (t' = t)) as [-> | Hne];
     [| rewrite Hother by auto; reflexivity]);
    split; intros H;
    [apply Hnew in H | apply Hold in H | apply Hnew in H | apply Hold in H
     | apply Hnew in H | apply Hold in H];
    destruct H as [l1 H]; discriminate.
Qed.

Lemma step_locks_ok p e p' : locks_ok p -> step p e = Some p' -> locks_ok p'.
Proof.
  intros Hok.
  pose proof Hok as (Hmodes & Hpend).
  destruct e as [l | t l | t | t | t | t l | t l | t | t | t l];
    unfold step.
  - (* lock_init *)
    unfold unused.
    destruct (bool_decide_reflect
                (map_Forall (fun _ st => stage_lock st <> l) (inflight p)))
      as [Hun |]; [| discriminate].
    unfold init_lock. LockInvFacts.lock_eval. intros [= <-].
    eapply (locks_ok_lock p l);
      [exact Hok | cbn; reflexivity | cbn; exact Hpend |].
    left. cbn.
    split; [reflexivity |]. split; [reflexivity |].
    split.
    + intros t [H | H]; apply Hun in H; cbn in H; congruence.
    + intros t H. apply Hun in H. cbn in H. congruence.
  - (* lock_acquire is entered *)
    destruct (free p t) eqn:Hfree; [| discriminate].
    apply free_inv in Hfree as [Hp Hf].
    intros Hstep. apply lock_piece_inv in Hstep
      as (lk & c' & lk' & s' & Hl & Hm & Hlocks & Hpd & ->).
    pose proof (lock_acquire_enter_lock
                  (kc (dispatch t INTR_ON (sys p))) lk) as Hpiece.
    rewrite Hm in Hpiece. cbn in Hpiece. subst lk'.
    apply (locks_ok_piece p l lk lk s' _ t); auto.
    + intros t' Hne. apply lookup_insert_ne. auto.
    + rewrite Hf. discriminate.
    + rewrite lookup_insert_eq. intros st [= <-]. reflexivity.
    + rewrite Hpd. intros t' Ht'.
      rewrite lookup_insert_ne by congruence. auto.
    + apply (lock_mode_outside (inflight p) _ l lk lk t); auto.
      * intros t' Hne. apply lookup_insert_ne. auto.
      * rewrite Hf. discriminate.
      * rewrite lookup_insert_eq. intros st [= <-]. eauto.
  - (* sema_down *)
    destruct (inflight p !! t) as [[l | | |] |] eqn:Hf; try discriminate.
    destruct (runnable (sys p) t); [| discriminate].
    pose proof (at_lock_inv l (in_semaphore sema_down)
                  (dispatch t INTR_ON (sys p))) as H.
    destruct (at_lock l (in_semaphore sema_down)
                (dispatch t INTR_ON (sys p))) as [[] s' | s' |];
      [| | discriminate];
      destruct H as (lk & c' & lk' & Hl & Hm & Hlocks & Hpd);
      cbn [dispatch interrupt locks pending] in Hl, Hlocks, Hpd;
      pose proof (sema_down_lock (kc (dispatch t INTR_ON (sys p))) lk)
        as Hpiece;
      rewrite Hm in Hpiece; cbn [snd] in Hpiece;
      destruct Hpiece as (Hv & Hh & Hv'); intros [= <-].
    + apply (locks_ok_piece p l lk lk' s' _ t); auto.
      * intros t' Hne. apply lookup_insert_ne. auto.
      * rewrite Hf. intros st [= <-]. reflexivity.
      * rewrite lookup_insert_eq. intros st [= <-]. reflexivity.
      * rewrite Hpd. intros t' Ht'.
        rewrite lookup_insert_ne; [auto |].
        intros <-. apply Hpend in Ht'. congruence.
      * apply (lock_mode_down (inflight p) l lk); auto.
    + apply (locks_ok_piece p l lk lk' _ _ t); auto.
      * intros t' Hne. apply lookup_delete_ne. auto.
      * rewrite Hf. intros st [= <-]. reflexivity.
      * rewrite lookup_delete_eq. discriminate.
      * cbn. rewrite Hpd. intros t'.
        destruct (decide (t' = t)) as [-> | Hne];
          [intros _; apply lookup_delete_eq |].
        rewrite lookup_insert_ne, lookup_delete_ne by auto. auto.
      * apply (lock_mode_outside (inflight p) _ l lk lk' t); auto.
        -- congruence.
        -- intros t' Hne. apply lookup_delete_ne. auto.
        -- rewrite Hf. intros st [= <-]. eauto.
        -- rewrite lookup_delete_eq. discriminate.
  - (* a woken thread goes on in sema_down *)
    destruct (pending (sys p) !! t) as [[l old] |] eqn:Hp; [| discriminate].
    assert (Hf : inflight p !! t = None) by (apply Hpend; congruence).
    destruct (runnable (sys p) t); [| discriminate].
    pose proof (at_lock_inv l (in_semaphore (sema_down_loop old))
                  (dispatch t INTR_OFF (sys p))) as H.
    destruct (at_lock l (in_semaphore (sema_down_loop old))
                (dispatch t INTR_OFF (sys p))) as [[] s' | s' |];
      [| | discriminate];
      destruct H as (lk & c' & lk' & Hl & Hm & Hlocks & Hpd);
      cbn [dispatch interrupt locks pending] in Hl, Hlocks, Hpd;
      pose proof (sema_down_loop_lock old
                    (kc (dispatch t INTR_OFF (sys p))) lk) as Hpiece;
      rewrite Hm in Hpiece; cbn [snd] in Hpiece;
      destruct Hpiece as (Hv & Hh & Hv'); intros [= <-].
    + apply (locks_ok_piece p l lk lk' _ _ t); auto.
      * intros t' Hne. apply lookup_insert_ne. auto.
      * rewrite Hf. discriminate.
      * rewrite lookup_insert_eq. intros st [= <-]. reflexivity.
      * cbn. rewrite Hpd. intros t'.
        destruct (decide (t' = t)) as [-> | Hne];
          [rewrite lookup_delete_eq; congruence |].
        rewrite lookup_delete_ne, lookup_insert_ne by auto. auto.
      * apply (lock_mode_down (inflight p) l lk); auto.
    + apply (locks_ok_lock p l lk' s'); auto.
      * rewrite Hpd. auto.
      * apply (lock_mode_ext (inflight p) (inflight p) l lk lk');
          auto; try reflexivity. congruence.
  - (* lock->holder = thread_current () *)
    destruct (inflight p !! t) as [[| l | |] |] eqn:Hf; try discriminate.
    intros Hstep. apply lock_piece_inv in Hstep
      as (lk & c' & lk' & s' & Hl & Hm & Hlocks & Hpd & ->).
    rewrite lock_take_lock in Hm. injection Hm as <- <-.
    apply (locks_ok_piece p l lk (set_holder (Some t) lk) s' _ t); auto.
    + intros t' Hne. apply lookup_delete_ne. auto.
    + rewrite Hf. intros st [= <-]. reflexivity.
    + rewrite lookup_delete_eq. discriminate.
    + rewrite Hpd. intros t' Ht'. apply lookup_delete_None. auto.
    + apply lock_mode_take; auto.
  - (* lock_try_acquire up to sema_try_down *)
    destruct (free p t) eqn:Hfree; [| discriminate].
    apply free_inv in Hfree as [Hp Hf].
    pose proof (at_lock_inv l lock_try_acquire_enter
                  (dispatch t INTR_ON (sys p))) as H.
    destruct (at_lock l lock_try_acquire_enter
                (dispatch t INTR_ON (sys p))) as [b s' | s' |];
      [| discriminate | discriminate].
    destruct H as (lk & c' & lk' & Hl & Hm & Hlocks & Hpd).
    cbn [dispatch interrupt locks pending] in Hl, Hlocks, Hpd.
    pose proof (lock_try_acquire_enter_lock
                  (kc (dispatch t INTR_ON (sys p))) lk) as Hpiece.
    rewrite Hm in Hpiece. cbn [snd] in Hpiece.
    destruct Hpiece as (Hh & Hb).
    destruct b; intros [= <-].
    + destruct Hb as (Hv & Hv').
      apply (locks_ok_piece p l lk lk' s' _ t); auto.
      * intros t' Hne. apply lookup_insert_ne. auto.
      * rewrite Hf. discriminate.
      * rewrite lookup_insert_eq. intros st [= <-]. reflexivity.
      * rewrite Hpd. intros t' Ht'.
        rewrite lookup_insert_ne by congruence. auto.
      * apply (lock_mode_down (inflight p) l lk); auto.
    + apply (locks_ok_lock p l lk' s'); auto.
      * rewrite Hpd. auto.
      * apply (lock_mode_ext (inflight p) (inflight p) l lk lk');
          auto; reflexivity.
  - (* lock_release is entered *)
    destruct (free p t) eqn:Hfree; [| discriminate].
    apply free_inv in Hfree as [Hp Hf].
    intros Hstep. apply lock_piece_inv in Hstep
      as (lk & c' & lk' & s' & Hl & Hm & Hlocks & Hpd & ->).
    pose proof (lock_release_enter_lock
                  (kc (dispatch t INTR_ON (sys p))) lk) as Hpiece.
    rewrite Hm in Hpiece. cbn in Hpiece. destruct Hpiece as [Hh ->].
    apply (locks_ok_piece p l lk lk s' _ t); auto.
    + intros t' Hne. apply lookup_insert_ne. auto.
    + rewrite Hf. discriminate.
    + rewrite lookup_insert_eq. intros st [= <-]. reflexivity.
    + rewrite Hpd. intros t' Ht'.
      rewrite lookup_insert_ne by congruence. auto.
    + apply lock_mode_release; auto.
  - (* lock->holder = NULL *)
    destruct (inflight p !! t) as [[| | l |] |] eqn:Hf; try discriminate.
    intros Hstep. apply lock_piece_inv in Hstep
      as (lk & c' & lk' & s' & Hl & Hm & Hlocks & Hpd & ->).
    rewrite lock_release_clear_lock in Hm. injection Hm as <- <-.
    apply (locks_ok_piece p l lk (set_holder None lk) s' _ t); auto.
    + intros t' Hne. apply lookup_insert_ne. auto.
    + rewrite Hf. intros st [= <-]. reflexivity.
    + rewrite lookup_insert_eq. intros st [= <-]. reflexivity.
    + rewrite Hpd. intros t' Ht'.
      rewrite lookup_insert_ne; [auto |].
      intros <-. apply Hpend in Ht'. congruence.
    + apply lock_mode_clear; auto.
  - (* sema_up of lock_release *)
    destruct (inflight p !! t) as [[| | | l] |] eqn:Hf; try discriminate.
    intros Hstep. apply lock_piece_inv in Hstep
      as (lk & c' & lk' & s' & Hl & Hm & Hlocks & Hpd & ->).
    pose proof (sema_up_lock (kc (dispatch t INTR_ON (sys p))) lk) as Hpiece.
    rewrite Hm in Hpiece. cbn [snd] in Hpiece. destruct Hpiece as [Hh Hv'].
    apply (locks_ok_piece p l lk lk' s' _ t); auto.
    + intros t' Hne. apply lookup_delete_ne. auto.
    + rewrite Hf. intros st [= <-]. reflexivity.
    + rewrite lookup_delete_eq. discriminate.
    + rewrite Hpd. intros t' Ht'. apply lookup_delete_None. auto.
    + apply (lock_mode_up (inflight p) l lk); auto.
  - (* lock_try_acquire in an interrupt handler *)
    destruct (idle (sys p) t); [| discriminate].
    pose proof (at_lock_inv l lock_try_acquire (interrupt t (sys p))) as H.
    destruct (at_lock l lock_try_acquire (interrupt t (sys p)))
      as [b s' | s' |]; [| discriminate | discriminate].
    destruct H as (lk & c' & lk' & Hl & Hm & Hlocks & Hpd).
    cbn [dispatch interrupt locks pending] in Hl, Hlocks, Hpd.
    pose proof (lock_try_acquire_lock (kc (interrupt t (sys p))) lk)
      as Hpiece.
    rewrite Hm in Hpiece. cbn [snd] in Hpiece.
    intros [= <-].
    apply (locks_ok_lock p l lk' s'); auto.
    + rewrite Hpd. auto.
    + destruct b.
      * destruct Hpiece as (Hv & Hh & Hv').
        apply (lock_mode_try (inflight p) l lk lk' t); auto.
      * destruct Hpiece as (Hh & Hv').
        apply (lock_mode_ext (inflight p) (inflight p) l lk lk');
          auto; reflexivity.
Qed.

Lemma run_locks_ok evs : forall p p',
  locks_ok p -> run p evs = Some p' -> locks_ok p'.
Proof.
  induction evs as [| e evs IH]; intros p p' Hok; cbn.
  - intros [= <-]. exact Hok.
  - destruct (step p e) as [p1 |] eqn:He; [| discriminate].
    apply IH. eapply step_locks_ok; eassumption.
Qed.




End PreemptFacts.

(** * More on condition variables *)

Module CondMoreFacts.
Import Queue QueueFacts Scenario Cond CondMore.

Ltac cond_eval :=
  repeat (kernel_eval;
          cbv [at_elem zoom_opt set_elem elems cond_waiters cond_lock fst snd];
          rewrite ?lookup_insert_eq, ?Z.eqb_refl;
          cbn [fmap option_fmap option_map list_insert_ordered];
          rewrite ?bool_decide_eq_true_2 by reflexivity);
  rewrite ?insert_insert_eq.

(** [cond_wait] in full, up to the point where the caller blocks. *)
Lemma cond_wait_result (c : kctx) (m : monitor) (w : addr) :
  in_intr c = false ->
  holder (cond_lock m) = Some (cur c) ->
  cond_wait w (c, m) =
  Blk (mkCtx
         (alter (set_status THREAD_BLOCKED) (cur c)
            (threads (fst (sema_up_result
                             (with_threads (alter (set_eff_priority 0) (cur c)) c)
                             (semaphore_of (cond_lock m))))))
         (cur c) false INTR_OFF
         (calls (fst (sema_up_result
                        (with_threads (alter (set_eff_priority 0) (cur c)) c)
                        (semaphore_of (cond_lock m))))
            ++ [CallBlock (cur c)]),
       mkMonitor
         (list_insert_ordered
            (priority_sort_cond_waiter
               (<[w := mkSema 0 [] (priority_of (threads c) (cur c))]>
                  (elems m)))
            (cond_waiters m) w)
         (mkLock None
            (snd (sema_up_result
                    (with_threads (alter (set_eff_priority 0) (cur c)) c)
                    (semaphore_of (cond_lock m)))))
         (<[w := mkSema 0 [cur c] (priority_of (threads c) (cur c))]>
            (elems m))).
Proof.
  intros Hi Hh.
  destruct c as [ts cu ii lv cl], m as [q [h [v lw p]] el].
  cbn in Hi, Hh. subst. unfold sema_up_result.
  destruct lw as [| t rest]; cond_eval; [reflexivity |].
  rewrite <- !app_assoc. reflexivity.
Qed.


(** The pieces put together are [cond_wait]. *)
Lemma cond_wait_pieces (w : addr) (s : cond_state) :
  cond_wait w s =
  (cond_wait_enter w ;;; at_elem w sema_down ;;; in_lock lock_acquire) s.
Proof.
  unfold cond_wait, cond_wait_enter, bind.
  repeat match goal with
         | |- context [match ?m ?x with Ret _ _ => _ | Blk _ => _ | Panic => _ end] =>
             destruct (m x); try reflexivity
         end.
Qed.

(** [cond_wait] up to the return of its [lock_release]. *)
Lemma cond_wait_enter_result (c : kctx) (m : monitor) (w : addr) :
  in_intr c = false ->
  holder (cond_lock m) = Some (cur c) ->
  cond_wait_enter w (c, m) =
  Ret tt
    (fst (sema_up_result
            (with_threads (alter (set_eff_priority 0) (cur c)) c)
            (semaphore_of (cond_lock m))),
     mkMonitor
       (list_insert_ordered
          (priority_sort_cond_waiter
             (<[w := mkSema 0 [] (priority_of (threads c) (cur c))]>
                (elems m)))
          (cond_waiters m) w)
       (mkLock None
          (snd (sema_up_result
                  (with_threads (alter (set_eff_priority 0) (cur c)) c)
                  (semaphore_of (cond_lock m)))))
       (<[w := mkSema 0 [] (priority_of (threads c) (cur c))]> (elems m))).
Proof.
  intros Hi Hh.
  destruct c as [ts cu ii lv cl], m as [q [h [v lw p]] el].
  cbn in Hi, Hh. subst. unfold sema_up_result, cond_wait_enter.
  destruct lw as [| t rest]; cond_eval; [reflexivity |].
  rewrite <- !app_assoc. reflexivity.
Qed.

(** The caller's [sema_down] on its own entry, which nobody has
    signalled. *)
Lemma sema_down_own_entry (c : kctx) (m : monitor) (w : addr) (p : Z) :
  in_intr c = false ->
  elems m !! w = Some (mkSema 0 [] p) ->
  at_elem w sema_down (c, m) =
  Blk (mkCtx (alter (set_status THREAD_BLOCKED) (cur c) (threads c))
             (cur c) false INTR_OFF (calls c ++ [CallBlock (cur c)]),
       mkMonitor (cond_waiters m) (cond_lock m)
         (<[w := mkSema 0 [cur c] p]> (elems m))).
Proof.
  intros Hi He. destruct c as [ts cu ii lv cl], m as [q lk el].
  cbn in Hi, He. subst ii.
  unfold at_elem, zoom_opt. cbn [fst snd elems]. rewrite He.
  cbn [fmap option_fmap option_map]. kernel_eval. reflexivity.
Qed.



(** One turn of [cond_broadcast] on a queue that is not empty. *)
Lemma cond_broadcast_turn_result (c : kctx) (m : monitor) (w : addr)
    (rest : list addr) (e : semaphore) :
  in_intr c = false ->
  holder (cond_lock m) = Some (cur c) ->
  cond_waiters m = w :: rest ->
  elems m !! w = Some e ->
  cond_broadcast_turn (c, m) =
  Ret (Some (w, Some e))
    (fst (sema_up_result c e),
     mkMonitor rest (cond_lock m)
       (<[w := snd (sema_up_result c e)]> (elems m))).
Proof.
  intros Hi Hh Hq He.
  pose proof (CondFacts.cond_signal_spec c m w rest e Hi Hh Hq He) as Hsig.
  destruct m as [q lk el]. cbn [cond_waiters elems cond_lock] in *. subst q.
  unfold cond_broadcast_turn, bind, gets. cbn [snd cond_waiters elems].
  rewrite He, Hsig. reflexivity.
Qed.

Lemma sema_up_result_ctx (c : kctx) (e : semaphore) :
  cur (fst (sema_up_result c e)) = cur c /\
  in_intr (fst (sema_up_result c e)) = in_intr c.
Proof. unfold sema_up_result. destruct (waiters e); split; reflexivity. Qed.

Lemma cond_broadcast_result (q : list addr) : forall others c m,
  cond_waiters m = q ->
  (q <> [] -> in_intr c = false /\ holder (cond_lock m) = Some (cur c)) ->
  List.NoDup q ->
  (forall w, In w q -> elems m !! w <> None) ->
  (length q <= length others)%nat ->
  relies others (c, m) ->
  exists c' m',
    cond_broadcast others (c, m) =
      Some (map (fun w => (w, elems m !! w)) q, Ret tt (c', m')) /\
    cond_waiters m' = [] /\
    holder (cond_lock m') = holder (cond_lock m) /\
    cur c' = cur c.
Proof.
  induction q as [| w q IH]; intros others c m Hq Hpre Hnd Hel Hlen Hrel.
  - exists c, m.
    assert (Hturn : cond_broadcast_turn (c, m) = Ret None (c, m)).
    { destruct m as [q0 lk el]. cbn [cond_waiters] in Hq. subst q0.
      reflexivity. }
    destruct others as [| f rest]; cbn [cond_broadcast]; rewrite Hturn; auto.
  - destruct Hpre as [Hi Hh]; [discriminate |].
    apply List.NoDup_cons_iff in Hnd as [Hw Hnd].
    destruct (elems m !! w) as [e |] eqn:He;
      [| exfalso; apply (Hel w (or_introl eq_refl)); exact He].
    destruct others as [| f rest]; [cbn in Hlen; lia |].
    pose proof (cond_broadcast_turn_result c m w q e Hi Hh Hq He) as Hturn.
    cbn [relies] in Hrel. rewrite Hturn in Hrel.
    destruct Hrel as [(Hcur & Hin & Hhold & Hqueue & Hsame) Hrel].
    cbn [fst snd cond_waiters cond_lock elems] in *.
    destruct (sema_up_result_ctx c e) as [Hc1 Hi1].
    destruct (f (fst (sema_up_result c e),
                 mkMonitor q (cond_lock m)
                   (<[w := snd (sema_up_result c e)]> (elems m))))
      as [c2 m2] eqn:Hf.
    cbn [fst snd] in *.
    destruct (IH rest c2 m2) as (c' & m' & Hrun & Hq' & Hh' & Hc').
    + exact Hqueue.
    + intros _. split; congruence.
    + exact Hnd.
    + intros x Hx. rewrite (Hsame x Hx).
      rewrite lookup_insert_ne by (intros ->; contradiction).
      apply Hel. right. exact Hx.
    + cbn in Hlen. lia.
    + exact Hrel.
    + exists c', m'. cbn [cond_broadcast]. rewrite Hturn, Hf, Hrun.
      split; [| split; [exact Hq' | split; congruence]].
      cbn [map]. rewrite He. do 3 f_equal.
      apply map_ext_in. intros x Hx. rewrite (Hsame x Hx).
      rewrite lookup_insert_ne by (intros ->; contradiction). reflexivity.
Qed.

Lemma undisturbed_refl (s : cond_state) : undisturbed s s.
Proof. repeat split. Qed.

(** X17.  [cond_broadcast], with the other threads running in every
    turn of its loop.  On an empty waiter queue it returns without
    doing anything, whoever calls it.  On a queue that is not empty,
    called by the holder of the lock outside interrupt context, and
    left undisturbed by the others each time it is off the CPU (it is
    still the holder and the entries still queued are untouched), it
    returns after exactly one [cond_signal] for each entry that was in
    the queue when it was called, made from the head of the queue to
    its end, each on an entry whose semaphore is still as it was at the
    call.  On return the queue is empty and the caller still holds
    the lock. *)
Theorem cond_broadcast_signals_each
    (others : list (cond_state -> cond_state)) (c : kctx) (m : monitor) :
  (cond_waiters m <> [] ->
     in_intr c = false /\ holder (cond_lock m) = Some (cur c)) ->
  List.NoDup (cond_waiters m) ->
  (forall w, In w (cond_waiters m) -> elems m !! w <> None) ->
  (length (cond_waiters m) <= length others)%nat ->
  relies others (c, m) ->
  exists c' m',
    cond_broadcast others (c, m) =
      Some (map (fun w => (w, elems m !! w)) (cond_waiters m),
            Ret tt (c', m')) /\
    cond_waiters m' = [] /\
    holder (cond_lock m') = holder (cond_lock m) /\
    cur c' = cur c.
Proof.
  intros Hpre Hnd Hel Hlen Hrel.
  apply (cond_broadcast_result (cond_waiters m)); auto.
Qed.

Lemma cond_broadcast_signals_each_witness :
  exists c' m',
    cond_broadcast broadcast_others broadcast_start =
      Some ([(2%nat, Some (mkSema 0 [2%nat] 7));
             (3%nat, Some (mkSema 0 [3%nat] 7));
             (1%nat, Some (mkSema 0 [1%nat] 5))],
            Ret tt (c', m')) /\
    cond_waiters m' = [] /\
    holder (cond_lock m') = Some 4%nat /\
    (c', m') = broadcast_end /\
    waiters (semaphore_of (cond_lock (snd broadcast_end))) = [2%nat] /\
    elems (snd broadcast_end) !! 2%nat = Some (mkSema 0 [] 7) /\
    elems (snd broadcast_end) !! 3%nat = Some (mkSema 1 [] 7).
Proof.
  assert (Ht1 : cond_broadcast_turn broadcast_start =
                Ret (Some (2%nat, Some (mkSema 0 [2%nat] 7))) first_yield)
    by (vm_compute; reflexivity).
  assert (Ht2 : cond_broadcast_turn second_test =
                Ret (Some (3%nat, Some (mkSema 0 [3%nat] 7))) second_yield)
    by (vm_compute; reflexivity).
  assert (Ht3 : cond_broadcast_turn second_yield =
                Ret (Some (1%nat, Some (mkSema 0 [1%nat] 5))) broadcast_end)
    by (vm_compute; reflexivity).
  assert (Hrel : relies broadcast_others broadcast_start).
  { unfold broadcast_others. cbn [relies]. rewrite Ht1.
    split.
    - fold second_test. unfold undisturbed.
      split; [vm_compute; reflexivity |].
      split; [vm_compute; reflexivity |].
      split; [vm_compute; reflexivity |].
      split; [vm_compute; reflexivity |].
      intros x Hx. vm_compute in Hx.
      destruct Hx as [<- | [<- | []]]; vm_compute; reflexivity.
    - fold second_test. rewrite Ht2.
      split; [apply undisturbed_refl |].
      rewrite Ht3. split; [apply undisturbed_refl | exact I]. }
  destruct (cond_broadcast_signals_each broadcast_others
              four_threads three_waiters)
    as (c' & m' & Hrun & Hq & Hh & _).
  - intros _. split; reflexivity.
  - vm_compute. repeat constructor; cbn; intuition discriminate.
  - intros x Hx. vm_compute in Hx.
    destruct Hx as [<- | [<- | [<- | []]]]; vm_compute; discriminate.
  - cbn. lia.
  - exact Hrel.
  - assert (Hval : cond_broadcast broadcast_others broadcast_start =
                   Some ([(2%nat, Some (mkSema 0 [2%nat] 7));
                          (3%nat, Some (mkSema 0 [3%nat] 7));
                          (1%nat, Some (mkSema 0 [1%nat] 5))],
                         Ret tt broadcast_end))
      by (vm_compute; reflexivity).
    assert (Heq : (c', m') = broadcast_end).
    { unfold broadcast_start in Hval. rewrite Hval in Hrun.
      congruence. }
    exists c', m'.
    split; [rewrite Heq; exact Hval |]. split; [exact Hq |].
    split; [exact Hh |]. split; [exact Heq |].
    split; [vm_compute; reflexivity |]. split; vm_compute; reflexivity.
Defined.

(** X18.  A wait and its signal.  Thread [t] holds the lock, on which
    nobody waits, and calls [cond_wait] on an empty condition; thread
    [u] then takes the lock, calls [cond_signal] and releases the
    lock; [t] runs again.  [t] blocks in the wait; [u] gets the lock
    without waiting; its signal unblocks [t] and empties the queue;
    and [t], once back in [cond_wait], passes its semaphore and
    returns holding the lock, at the interrupt level it had saved. *)
Theorem cond_wait_signal_round_trip (ts : gmap tid thread) (cl : list sched_call)
    (t u : tid) (w : addr) (p : Z) (el : gmap addr semaphore)
    (old_level : intr_level) :
  exists c1 m1 c2 m2 c3 m3 c4 m4 c5 m5,
    cond_wait w (mkCtx ts t false INTR_ON cl,
                 mkMonitor [] (mkLock (Some t) (mkSema 0 [] p)) el)
      = Blk (c1, m1) /\
    is_blocked (threads c1) t = true /\
    in_lock lock_acquire (as_thread u c1, m1) = Ret tt (c2, m2) /\
    holder (cond_lock m2) = Some u /\
    cond_signal (c2, m2) = Ret tt (c3, m3) /\
    cond_waiters m3 = [] /\
    calls c3 = calls c2 ++ [CallUnblock t; CallYield u] /\
    in_lock lock_release (c3, m3) = Ret tt (c4, m4) /\
    cond_wait_resume w old_level
      (mkCtx (threads c4) t false INTR_OFF (calls c4), m4) = Ret tt (c5, m5) /\
    holder (cond_lock m5) = Some t /\
    value (semaphore_of (cond_lock m5)) = 0 /\
    cond_waiters m5 = [] /\
    elems m5 !! w = Some (mkSema 0 [] (priority_of ts t)) /\
    level c5 = old_level.
Proof.
  eexists _, _, _, _, _, _, _, _, _, _.
  split.
  { rewrite cond_wait_result by reflexivity. unfold sema_up_result.
    cbn [cond_lock semaphore_of waiters fst snd with_threads threads cur
         in_intr level calls cond_waiters elems list_insert_ordered
         value sema_priority]. reflexivity. }
  split; [apply TimerFacts.is_blocked_self |].
  split.
  { unfold in_lock, zoom, as_thread. cbn [fst snd cond_lock threads calls].
    rewrite LockMore.lock_acquire_free by reflexivity.
    cbn [fst snd cond_waiters elems cur]. reflexivity. }
  split; [reflexivity |].
  split.
  { rewrite (CondFacts.cond_signal_spec _ _ w [] (mkSema 0 [t] (priority_of ts t)));
      [| reflexivity | reflexivity | reflexivity | apply lookup_insert_eq].
    unfold sema_up_result.
    cbn [waiters value sema_priority fst snd cond_lock elems threads cur
         in_intr level calls].
    rewrite insert_insert_eq. reflexivity. }
  split; [reflexivity |]. split; [reflexivity |].
  split.
  { unfold in_lock, zoom. cbn [fst snd cond_lock cond_waiters elems].
    rewrite (LockMore.lock_release_result
               (mkCtx _ u false INTR_ON _)).
    unfold sema_up_result.
    cbn [waiters value sema_priority fst snd set_value with_threads threads cur
         in_intr level calls]. reflexivity. }
  split.
  { unfold cond_wait_resume. cond_eval. reflexivity. }
  repeat split. cbn [elems]. apply lookup_insert_eq.
Qed.

End CondMoreFacts.

(** * More on the timer *)

Module TimerMoreFacts.
Import Timer TimerInv TimerMore TimerFacts.

Lemma timer_ticks_result (s : timer_state) :
  timer_ticks s = Ret (ticks (snd s)) s.
Proof. destruct s as [[ts cu ii lv cl] tm]. reflexivity. Qed.

Lemma timer_wake_ticks (q : list tid) : forall s,
  exists s', timer_wake q s = Ret tt s' /\ ticks (snd s') = ticks (snd s).
Proof.
  induction q as [| t rest IH]; intros s.
  - exists s. split; reflexivity.
  - cbn [timer_wake]. unfold bind at 1, gets at 1. unfold bind at 1, gets at 1.
    destruct (ticks (snd s) >=? wakeup_time (thread_at (threads (fst s)) t)).
    + unfold bind at 1, on_timer, modify. unfold bind at 1, thread_unblock,
        on_ctx, modify.
      match goal with
      | |- context [timer_wake rest ?s1] =>
          destruct (IH s1) as (s' & Hrun & Htk)
      end.
      exists s'. split; [exact Hrun |]. rewrite Htk. reflexivity.
    + exists s. split; reflexivity.
Qed.

Lemma step_ticks (s s' : timer_state) (e : event) :
  step s e = Some s' ->
  ticks (snd s') =
    match e with
    | EvTick => CInt.wrap64 (ticks (snd s) + 1)
    | EvSleep _ _ => ticks (snd s)
    end.
Proof.
  destruct e as [t n |]; unfold step.
  - destruct (is_blocked (threads (fst s)) t); [discriminate |].
    destruct s as [c tm]. unfold dispatch. cbn [fst snd].
    destruct (Z.leb_spec n 0) as [Hn | Hn].
    + rewrite timer_sleep_nonpos by exact Hn. intros [= <-]. reflexivity.
    + rewrite timer_sleep_pos by exact Hn. intros [= <-]. reflexivity.
  - unfold timer_interrupt, bind at 1, on_timer at 1, modify at 1.
    unfold bind at 1, thread_tick at 1, on_ctx, modify.
    unfold bind at 1, gets at 1.
    match goal with
    | |- context [timer_wake ?q ?s1] =>
        destruct (timer_wake_ticks q s1) as (s2 & Hrun & Htk)
    end.
    rewrite Hrun. intros [= <-]. unfold leave_intr. cbn [snd].
    rewrite Htk. destruct s as [c tm]. reflexivity.
Qed.

Lemma interrupts_cons (e : event) (evs : list event) :
  interrupts (e :: evs) =
  match e with EvTick => 1 | EvSleep _ _ => 0 end + interrupts evs.
Proof.
  unfold interrupts. destruct e; cbn [List.filter length];
    rewrite ?Nat2Z.inj_succ; lia.
Qed.

Lemma interrupts_nonneg (evs : list event) : 0 <= interrupts evs.
Proof. unfold interrupts. apply Nat2Z.is_nonneg. Qed.

Lemma run_ticks (evs : list event) : forall s s',
  run s evs = Some s' ->
  CInt.INT64_MIN <= ticks (snd s) ->
  ticks (snd s) + interrupts evs <= CInt.INT64_MAX ->
  ticks (snd s') = ticks (snd s) + interrupts evs.
Proof.
  induction evs as [| e evs IH]; intros s s' Hrun Hmin Hmax.
  - cbn in Hrun. inversion Hrun. unfold interrupts. cbn. lia.
  - cbn [run] in Hrun. destruct (step s e) as [s1 |] eqn:He; [| discriminate].
    rewrite interrupts_cons in Hmax |- *.
    pose proof (interrupts_nonneg evs) as Hnn.
    pose proof (step_ticks s s1 e He) as Htk.
    destruct e as [t n |].
    + rewrite (IH s1 s' Hrun) by lia. lia.
    + rewrite CIntFacts.wrap64_id in Htk by lia.
      rewrite (IH s1 s' Hrun) by lia. lia.
Qed.

(** X19.  The tick counter counts the timer interrupts: over any run
    of [timer_sleep] calls and timer interrupts that starts at a
    non-negative count and stays within [int64_t], [timer_ticks]
    returns the start value plus the number of interrupts and
    [timer_elapsed] of the start value returns the number of
    interrupts; both leave the state, interrupt level included, as it
    was, and [timer_sleep] never moves the counter. *)
Theorem ticks_count_interrupts (s0 s : timer_state) (evs : list event) :
  run s0 evs = Some s ->
  0 <= ticks (snd s0) ->
  ticks (snd s0) + interrupts evs <= CInt.INT64_MAX ->
  timer_ticks s = Ret (ticks (snd s0) + interrupts evs) s /\
  timer_elapsed (ticks (snd s0)) s = Ret (interrupts evs) s.
Proof.
  intros Hrun Hmin Hmax.
  assert (Hmin' : CInt.INT64_MIN <= ticks (snd s0))
    by (unfold CInt.INT64_MIN; lia).
  pose proof (run_ticks evs s0 s Hrun Hmin' Hmax) as Htk.
  pose proof (interrupts_nonneg evs) as Hnn.
  unfold timer_elapsed, bind. rewrite timer_ticks_result, Htk.
  split; [reflexivity |]. unfold ret. f_equal.
  rewrite CIntFacts.wrap64_id; [lia |].
  unfold CInt.INT64_MIN, CInt.INT64_MAX in *. lia.
Qed.

Lemma ticks_count_interrupts_witness :
  timer_ticks nap_state = Ret 2 nap_state /\
  timer_elapsed 0 nap_state = Ret 2 nap_state.
Proof.
  apply (ticks_count_interrupts (boot [1; 2; 3]%nat) nap_state naps).
  - vm_compute. reflexivity.
  - vm_compute. discriminate.
  - vm_compute. discriminate.
Defined.

Lemma lookup_alter_None (f : thread -> thread) (x t : tid)
    (ts : gmap tid thread) :
  ts !! t <> None -> alter f x ts !! t <> None.
Proof.
  intros Ht. destruct (decide (x = t)) as [-> | Hne].
  - rewrite lookup_alter_eq. destruct (ts !! t); [discriminate | congruence].
  - rewrite lookup_alter_ne by exact Hne. exact Ht.
Qed.

Lemma unblock_all_lookup (woken : list tid) : forall ts t,
  ts !! t <> None -> unblock_all woken ts !! t <> None.
Proof.
  induction woken as [| x woken IH]; intros ts t Ht; [exact Ht |].
  cbn. apply IH. apply lookup_alter_None. exact Ht.
Qed.

Lemma unblock_all_runnable (woken : list tid) : forall ts t,
  is_blocked ts t = false -> is_blocked (unblock_all woken ts) t = false.
Proof.
  induction woken as [| x woken IH]; intros ts t Ht; [exact Ht |].
  cbn. apply IH. unfold is_blocked, thread_at in *.
  destruct (decide (x = t)) as [-> | Hne].
  - rewrite lookup_alter_eq. destruct (ts !! t); [reflexivity | exact Ht].
  - rewrite lookup_alter_ne by exact Hne. exact Ht.
Qed.

Lemma unblock_all_in (woken : list tid) : forall ts t,
  In t woken -> ts !! t <> None ->
  is_blocked (unblock_all woken ts) t = false.
Proof.
  induction woken as [| x woken IH]; intros ts t Hin Ht; [destruct Hin |].
  cbn. destruct (decide (x = t)) as [-> | Hne].
  - apply unblock_all_runnable. unfold is_blocked, thread_at.
    rewrite lookup_alter_eq. destruct (ts !! t); [reflexivity | congruence].
  - destruct Hin as [-> | Hin]; [congruence |].
    apply IH; [exact Hin | apply lookup_alter_None; exact Ht].
Qed.

Section RealTimeFacts.
Variable TIMER_FREQ : Z.
Variable loops_per_tick : Z.

Lemma busy_wait_returns (loops : Z) (s : timer_state) :
  busy_wait loops s = Ret tt s.
Proof.
  unfold busy_wait. induction (Z.to_nat loops) as [| k IH]; [reflexivity |].
  cbn [busy_wait_loop]. unfold bind, barrier, ret. exact IH.
Qed.

Lemma real_time_delay_returns (num denom : Z) (s : timer_state) :
  Z.rem denom 1000 = 0 ->
  real_time_delay TIMER_FREQ loops_per_tick num denom s = Ret tt s.
Proof.
  intros Hd. unfold real_time_delay, bind, ASSERT. rewrite Hd.
  cbn [Z.eqb]. unfold ret. apply busy_wait_returns.
Qed.

Lemma real_time_sleep_result (num denom : Z) (c : kctx) (tm : timer) :
  level c = INTR_ON ->
  0 < denom ->
  Z.rem denom 1000 = 0 ->
  0 <= num * TIMER_FREQ <= CInt.INT64_MAX ->
  real_time_sleep TIMER_FREQ loops_per_tick num denom (c, tm) =
  if num * TIMER_FREQ <? denom then Ret tt (c, tm)
  else timer_sleep (num * TIMER_FREQ / denom) (c, tm).
Proof.
  intros Hlv Hpos Hrem Hrange.
  assert (Hq : div64 (mul64 num TIMER_FREQ) denom = num * TIMER_FREQ / denom).
  { unfold div64, mul64.
    rewrite (CIntFacts.wrap64_id (num * TIMER_FREQ))
      by (unfold CInt.INT64_MIN; lia).
    rewrite Z.quot_div_nonneg by lia.
    apply CIntFacts.wrap64_id.
    pose proof (Z.div_pos (num * TIMER_FREQ) denom ltac:(lia) Hpos).
    pose proof (Z.div_le_upper_bound (num * TIMER_FREQ) denom CInt.INT64_MAX
                  Hpos ltac:(unfold CInt.INT64_MAX in *; nia)).
    unfold CInt.INT64_MIN. lia. }
  unfold real_time_sleep. rewrite Hq.
  unfold bind, intr_get_level, gets, tctx. cbn [fst]. rewrite Hlv.
  cbn [ASSERT]. unfold ret. rewrite Z.gtb_ltb.
  destruct (Z.ltb_spec (num * TIMER_FREQ) denom) as [Hlt | Hge].
  - rewrite Z.div_small by lia. cbn [Z.ltb Z.compare].
    apply real_time_delay_returns. exact Hrem.
  - replace (0 <? num * TIMER_FREQ / denom) with true; [reflexivity |].
    symmetry. apply Z.ltb_lt. apply Z.div_str_pos. lia.
Qed.

(** X23.  [timer_msleep], [timer_usleep] and [timer_nsleep] called
    with interrupts on, for a time [x] with [x * TIMER_FREQ] in
    [0, INT64_MAX].  The time is turned into ticks rounding down.
    When that is less than one tick the function busy-waits and
    returns in the state it was called in, nobody being queued or
    blocked; otherwise it is [timer_sleep] for that many ticks. *)
Theorem real_time_sleep_rounds_down (x : Z) (c : kctx) (tm : timer) :
  level c = INTR_ON ->
  0 <= x * TIMER_FREQ <= CInt.INT64_MAX ->
  timer_msleep TIMER_FREQ loops_per_tick x (c, tm) =
    (if x * TIMER_FREQ <? 1000 then Ret tt (c, tm)
     else timer_sleep (x * TIMER_FREQ / 1000) (c, tm)) /\
  timer_usleep TIMER_FREQ loops_per_tick x (c, tm) =
    (if x * TIMER_FREQ <? 1000000 then Ret tt (c, tm)
     else timer_sleep (x * TIMER_FREQ / 1000000) (c, tm)) /\
  timer_nsleep TIMER_FREQ loops_per_tick x (c, tm) =
    (if x * TIMER_FREQ <? 1000000000 then Ret tt (c, tm)
     else timer_sleep (x * TIMER_FREQ / 1000000000) (c, tm)).
Proof.
  intros Hlv Hrange. unfold timer_msleep, timer_usleep, timer_nsleep.
  change (1000 * 1000 * 1000) with 1000000000.
  change (1000 * 1000) with 1000000.
  repeat split; apply real_time_sleep_result;
    try assumption; try reflexivity; lia.
Qed.

(** X24.  [timer_msleep], [timer_usleep] and [timer_nsleep] check
    that interrupts are on: called with interrupts off they fail
    their assertion, whatever the time asked for. *)
Theorem real_time_sleep_checks_level (x : Z) (c : kctx) (tm : timer) :
  level c = INTR_OFF ->
  timer_msleep TIMER_FREQ loops_per_tick x (c, tm) = Panic /\
  timer_usleep TIMER_FREQ loops_per_tick x (c, tm) = Panic /\
  timer_nsleep TIMER_FREQ loops_per_tick x (c, tm) = Panic.
Proof.
  intros Hlv. unfold timer_msleep, timer_usleep, timer_nsleep, real_time_sleep.
  unfold bind, intr_get_level, gets, tctx. cbn [fst]. rewrite Hlv.
  repeat split.
Qed.

(** X25.  [timer_mdelay], [timer_udelay] and [timer_ndelay] never
    suspend the caller and have no precondition on the interrupt
    level: for every argument and in every state they return in the
    state they were called in. *)
Theorem delays_return (x : Z) (s : timer_state) :
  timer_mdelay TIMER_FREQ loops_per_tick x s = Ret tt s /\
  timer_udelay TIMER_FREQ loops_per_tick x s = Ret tt s /\
  timer_ndelay TIMER_FREQ loops_per_tick x s = Ret tt s.
Proof.
  unfold timer_mdelay, timer_udelay, timer_ndelay.
  repeat split; apply real_time_delay_returns; reflexivity.
Qed.

End RealTimeFacts.

Lemma real_time_sleep_rounds_down_witness :
  timer_msleep 100 1024 5 (boot [1%nat]) = Ret tt (boot [1%nat]) /\
  timer_msleep 100 1024 25 (boot [1%nat]) = timer_sleep 2 (boot [1%nat]).
Proof.
  split.
  - apply (real_time_sleep_rounds_down 100 1024 5
             (fst (boot [1%nat])) (snd (boot [1%nat]))).
    + reflexivity.
    + vm_compute. split; discriminate.
  - apply (real_time_sleep_rounds_down 100 1024 25
             (fst (boot [1%nat])) (snd (boot [1%nat]))).
    + reflexivity.
    + vm_compute. split; discriminate.
Defined.

Lemma real_time_sleep_checks_level_witness :
  timer_msleep 100 1024 25 (with_level INTR_OFF (fst (boot [1%nat])),
                            snd (boot [1%nat])) = Panic.
Proof.
  apply (real_time_sleep_checks_level 100 1024 25
           (with_level INTR_OFF (fst (boot [1%nat]))) (snd (boot [1%nat]))).
  reflexivity.
Defined.

End TimerMoreFacts.

(** * The sleep queue under preemption *)

Module SleepPreemptFacts.
Import Timer TimerInv SleepPreempt TimerFacts.

(** The pieces put together are [timer_sleep]. *)
Lemma timer_sleep_pieces (n : Z) (s : timer_state) :
  timer_sleep n s =
  (o <- timer_sleep_enter n ;;
   match o with
   | Some start =>
       timer_sleep_store start n ;;;
       timer_sleep_insert ;;;
       timer_sleep_block
   | None => ret tt
   end) s.
Proof.
  unfold timer_sleep, timer_sleep_enter.
  destruct (n <=? 0); [reflexivity |].
  destruct s as [[ts cu ii lv cl] tm]. reflexivity.
Qed.

(** ** What each piece does *)

Lemma timer_sleep_enter_result (n : Z) (s : timer_state) :
  timer_sleep_enter n s =
  Ret (if n <=? 0 then None else Some (ticks (snd s))) s.
Proof.
  unfold timer_sleep_enter. destruct (n <=? 0); [reflexivity |].
  destruct s as [[ts cu ii lv cl] tm]. reflexivity.
Qed.

Lemma timer_sleep_store_result (start n : Z) (t : tid) (s : timer_state) :
  timer_sleep_store start n (dispatch t s) =
  Ret tt
    (mkCtx (alter (set_wakeup_time (CInt.wrap64 (start + n))) t
              (threads (fst s)))
           t false INTR_ON (calls (fst s)),
     snd s).
Proof. destruct s as [[ts cu ii lv cl] tm]. reflexivity. Qed.

Lemma timer_sleep_insert_result (t : tid) (s : timer_state) :
  timer_sleep_insert (dispatch t s) =
  Ret tt
    (mkCtx (threads (fst s)) t false INTR_ON (calls (fst s)),
     mkTimer (ticks (snd s))
       (list_insert_ordered (compare (threads (fst s)))
          (sleeping_threads (snd s)) t)).
Proof. destruct s as [[ts cu ii lv cl] tm]. reflexivity. Qed.

Lemma timer_sleep_block_result (t : tid) (s : timer_state) :
  timer_sleep_block (dispatch t s) =
  Blk
    (mkCtx (alter (set_status THREAD_BLOCKED) t (threads (fst s)))
           t false INTR_OFF (calls (fst s) ++ [CallBlock t]),
     snd s).
Proof. destruct s as [[ts cu ii lv cl] tm]. reflexivity. Qed.

Lemma timer_sleep_wake_result (t : tid) (s : timer_state) :
  timer_sleep_wake INTR_ON (resume t s) = Ret tt (dispatch t s).
Proof. destruct s as [[ts cu ii lv cl] tm]. reflexivity. Qed.

(** ** The steps, inverted *)

Lemma step_sleep_inv p t n p' :
  step p (EvSleep t n) = Some p' ->
  sleepers p !! t = None /\ blocked p t = false /\
  p' = mkPTimer (dispatch t (tstate p))
         (if n <=? 0 then sleepers p
          else <[t := HasStart (now p) n]> (sleepers p)).
Proof.
  unfold step, blocked, now.
  destruct (bool_decide_reflect (sleepers p !! t = None)) as [Hs |];
    [| discriminate].
  destruct (is_blocked (threads (fst (tstate p))) t); [discriminate |].
  cbn [andb negb]. rewrite timer_sleep_enter_result.
  destruct (n <=? 0); intros [= <-]; auto.
Qed.

Lemma sleep_piece_inv p t from m next p' :
  sleep_piece p t from m next = Some p' ->
  sleepers p !! t = from /\ blocked p t = false /\
  exists s',
    (m (dispatch t (tstate p)) = Ret tt s' \/
     m (dispatch t (tstate p)) = Blk s') /\
    p' = mkPTimer s' (<[t := next]> (sleepers p)).
Proof.
  unfold sleep_piece, blocked.
  destruct (bool_decide_reflect (sleepers p !! t = from)) as [Hs |];
    [| discriminate].
  destruct (is_blocked (threads (fst (tstate p))) t); [discriminate |].
  cbn [andb negb].
  destruct (m (dispatch t (tstate p))) as [[] s' | s' |];
    intros [= <-]; eauto 6.
Qed.

Lemma step_store_inv p t p' :
  step p (EvStore t) = Some p' ->
  exists start n,
    sleepers p !! t = Some (HasStart start n) /\ blocked p t = false /\
    p' = mkPTimer
           (mkCtx (alter (set_wakeup_time (CInt.wrap64 (start + n))) t
                     (threads (fst (tstate p))))
                  t false INTR_ON (calls (fst (tstate p))),
            snd (tstate p))
           (<[t := HasDeadline]> (sleepers p)).
Proof.
  unfold step.
  destruct (sleepers p !! t) as [[start n | | |] |] eqn:Hs; try discriminate.
  intros H. apply sleep_piece_inv in H as (_ & Hb & s' & Hm & ->).
  rewrite timer_sleep_store_result in Hm.
  exists start, n. destruct Hm as [[= <-] | [=]]. auto.
Qed.

Lemma step_insert_inv p t p' :
  step p (EvInsert t) = Some p' ->
  sleepers p !! t = Some HasDeadline /\ blocked p t = false /\
  p' = mkPTimer
         (mkCtx (threads (fst (tstate p))) t false INTR_ON
                (calls (fst (tstate p))),
          mkTimer (now p)
            (list_insert_ordered (compare (threads (fst (tstate p))))
               (queue p) t))
         (<[t := Queued]> (sleepers p)).
Proof.
  unfold step. intros H. apply sleep_piece_inv in H as (Hs & Hb & s' & Hm & ->).
  rewrite timer_sleep_insert_result in Hm.
  destruct Hm as [[= <-] | [=]]. auto.
Qed.

Lemma step_block_inv p t p' :
  step p (EvBlock t) = Some p' ->
  sleepers p !! t = Some Queued /\ blocked p t = false /\
  p' = mkPTimer
         (mkCtx (alter (set_status THREAD_BLOCKED) t
                   (threads (fst (tstate p))))
                t false INTR_OFF (calls (fst (tstate p)) ++ [CallBlock t]),
          snd (tstate p))
         (<[t := Asleep]> (sleepers p)).
Proof.
  unfold step. intros H. apply sleep_piece_inv in H as (Hs & Hb & s' & Hm & ->).
  rewrite timer_sleep_block_result in Hm.
  destruct Hm as [[=] | [= <-]]. auto.
Qed.

Lemma step_wake_inv p t p' :
  step p (EvWake t) = Some p' ->
  sleepers p !! t = Some Asleep /\ blocked p t = false /\
  p' = mkPTimer (dispatch t (tstate p)) (delete t (sleepers p)).
Proof.
  unfold step, blocked.
  destruct (bool_decide_reflect (sleepers p !! t = Some Asleep)) as [Hs |];
    [| discriminate].
  destruct (is_blocked (threads (fst (tstate p))) t); [discriminate |].
  cbn [andb negb]. rewrite timer_sleep_wake_result. intros [= <-]. auto.
Qed.

(** The timer interrupt on a sorted queue. *)
Lemma step_tick_result p :
  ascending (threads (fst (tstate p))) (queue p) ->
  step p EvTick =
  Some
    (mkPTimer
       (mkCtx
          (unblock_all
             (List.filter (due_at (tstate p) (CInt.wrap64 (now p + 1)))
                (queue p))
             (threads (fst (tstate p))))
          (cur (fst (tstate p))) false INTR_ON
          (calls (fst (tstate p)) ++ CallTick ::
             map CallUnblock
               (List.filter (due_at (tstate p) (CInt.wrap64 (now p + 1)))
                  (queue p))),
        mkTimer (CInt.wrap64 (now p + 1))
          (List.filter
             (fun t => negb (due_at (tstate p) (CInt.wrap64 (now p + 1)) t))
             (queue p)))
       (sleepers p)).
Proof.
  intros Hsort. unfold step, queue, now.
  destruct p as [[c tm] sl]. cbn [tstate fst snd sleepers] in *.
  unfold enter_intr. cbn [fst snd].
  rewrite timer_interrupt_spec by exact Hsort.
  reflexivity.
Qed.

(** ** The queue invariant *)

Lemma member_stage p t :
  queue_ok p -> In t (queue p) ->
  sleepers p !! t = Some Queued \/ sleepers p !! t = Some Asleep.
Proof.
  intros Hok Hin. destruct (qok_member p Hok t Hin) as [H | [H _]]; auto.
Qed.

Lemma queue_ok_step p e p' : queue_ok p -> step p e = Some p' -> queue_ok p'.
Proof.
  intros Hok Hstep.
  pose proof Hok as [Hsort Hnd Hmem Htk].
  destruct e as [t n | t | t | t | t |].
  - (* timer_sleep is called *)
    apply step_sleep_inv in Hstep as (Hs & Hb & ->).
    split; cbn; try assumption.
    intros x Hx. assert (Hne : t <> x).
    { intros <-. destruct (member_stage p t Hok Hx); congruence. }
    unfold blocked. cbn.
    destruct (n <=? 0); [| rewrite lookup_insert_ne by exact Hne];
      apply Hmem; exact Hx.
  - (* the wake-up time is written *)
    apply step_store_inv in Hstep as (start & n & Hs & Hb & ->).
    assert (Hout : forall x, In x (queue p) -> t <> x).
    { intros x Hx <-. destruct (member_stage p t Hok Hx); congruence. }
    split; unfold queue, now, blocked in *; cbn [tstate sleepers fst snd threads] in *;
      try assumption.
    + apply (ascending_ext (threads (fst (tstate p)))); [| exact Hsort].
      intros x Hx. rewrite thread_at_alter_ne by (apply Hout; exact Hx).
      reflexivity.
    + intros x Hx. pose proof (Hout x Hx) as Hne.
      rewrite lookup_insert_ne by exact Hne.
      rewrite WaitInvFacts.is_blocked_alter_ne by exact Hne.
      apply Hmem. exact Hx.
  - (* the thread is put in the queue *)
    apply step_insert_inv in Hstep as (Hs & Hb & ->).
    assert (Hout : ~ In t (queue p)).
    { intros Hx. destruct (member_stage p t Hok Hx); congruence. }
    split; unfold queue, now, blocked in *; cbn [tstate sleepers fst snd threads ticks sleeping_threads] in *;
      try assumption.
    + apply insert_ascending. exact Hsort.
    + apply insert_NoDup; assumption.
    + intros x Hx. apply QueueFacts.insert_In in Hx.
      destruct (decide (t = x)) as [<- | Hne].
      * left. apply lookup_insert_eq.
      * rewrite lookup_insert_ne by exact Hne.
        apply Hmem. destruct Hx as [-> | Hx]; [congruence | exact Hx].
  - (* intr_disable (); thread_block () *)
    apply step_block_inv in Hstep as (Hs & Hb & ->).
    split; unfold queue, now, blocked in *; cbn [tstate sleepers fst snd threads] in *;
      try assumption.
    + apply (ascending_ext (threads (fst (tstate p)))); [| exact Hsort].
      intros x _. apply wakeup_alter_status.
    + intros x Hx. destruct (decide (t = x)) as [<- | Hne].
      * right. split; [apply lookup_insert_eq | apply is_blocked_self].
      * rewrite lookup_insert_ne by exact Hne.
        rewrite WaitInvFacts.is_blocked_alter_ne by exact Hne.
        apply Hmem. exact Hx.
  - (* thread_block () returns *)
    apply step_wake_inv in Hstep as (Hs & Hb & ->).
    split; cbn; try assumption.
    intros x Hx. assert (Hne : t <> x).
    { intros <-. destruct (Hmem t Hx) as [H | [_ H]]; congruence. }
    unfold blocked. cbn. rewrite lookup_delete_ne by exact Hne.
    apply Hmem. exact Hx.
  - (* the timer interrupt *)
    rewrite step_tick_result in Hstep by exact Hsort.
    injection Hstep as <-.
    split; unfold queue, now, blocked in *; cbn [tstate sleepers fst snd threads ticks sleeping_threads] in *.
    + apply (ascending_ext (threads (fst (tstate p)))).
      * intros x _. apply unblock_all_wakeup.
      * apply filter_sorted. exact Hsort.
    + apply List.NoDup_filter. exact Hnd.
    + intros x Hx. apply List.filter_In in Hx as [Hx Hdue].
      assert (Hnot : ~ In x (List.filter
                               (due_at (tstate p)
                                  (CInt.wrap64 (ticks (snd (tstate p)) + 1)))
                               (sleeping_threads (snd (tstate p))))).
      { intros H. apply List.filter_In in H as [_ H].
        rewrite H in Hdue. discriminate. }
      unfold is_blocked. rewrite unblock_all_other by exact Hnot.
      apply Hmem. exact Hx.
    + apply CIntFacts.wrap64_range.
Qed.

Lemma queue_ok_run evs : forall p p',
  queue_ok p -> run p evs = Some p' -> queue_ok p'.
Proof.
  induction evs as [| e evs IH]; intros p p' Hok; cbn.
  - intros [= <-]. exact Hok.
  - destruct (step p e) as [p1 |] eqn:He; [| discriminate].
    apply IH. eapply queue_ok_step; eassumption.
Qed.

Lemma queue_ok_init p :
  queue p = [] ->
  CInt.INT64_MIN <= now p <= CInt.INT64_MAX ->
  queue_ok p.
Proof.
  intros Hq Htk. split; rewrite ?Hq; try assumption.
  - constructor.
  - constructor.
  - intros t [].
Qed.




(** ** One sleeper *)

Lemma interrupts_in_cons (e : event) (evs : list event) :
  interrupts_in (e :: evs) =
  match e with EvTick => 1 | _ => 0 end + interrupts_in evs.
Proof.
  unfold interrupts_in. destruct e; cbn [List.filter length];
    rewrite ?Nat2Z.inj_succ; lia.
Qed.

Lemma interrupts_in_nonneg (evs : list event) : 0 <= interrupts_in evs.
Proof. unfold interrupts_in. apply Nat2Z.is_nonneg. Qed.

Lemma step_now p e p' :
  queue_ok p ->
  step p e = Some p' ->
  now p' = match e with EvTick => CInt.wrap64 (now p + 1) | _ => now p end.
Proof.
  intros Hok Hstep. destruct e as [t n | t | t | t | t |].
  - apply step_sleep_inv in Hstep as (_ & _ & ->). reflexivity.
  - apply step_store_inv in Hstep as (start & n & _ & _ & ->). reflexivity.
  - apply step_insert_inv in Hstep as (_ & _ & ->). reflexivity.
  - apply step_block_inv in Hstep as (_ & _ & ->). reflexivity.
  - apply step_wake_inv in Hstep as (_ & _ & ->). reflexivity.
  - rewrite step_tick_result in Hstep by apply (qok_sorted p Hok).
    injection Hstep as <-. reflexivity.
Qed.

Lemma runnable_live (ts : gmap tid thread) (t : tid) :
  is_blocked ts t = false -> ts !! t <> None.
Proof.
  unfold is_blocked, thread_at. intros H Hn. rewrite Hn in H. discriminate.
Qed.

Lemma deadline_alter_eq (w : Z) (t : tid) (ts : gmap tid thread) :
  ts !! t <> None ->
  wakeup_time (thread_at (alter (set_wakeup_time w) t ts) t) = w.
Proof.
  intros H. unfold thread_at. rewrite lookup_alter_eq.
  destruct (ts !! t); [reflexivity | congruence].
Qed.

(** A sleeper whose wake-up time is still ahead stays where the
    queue can find it. *)
Lemma sleeping_step (t : tid) (start n : Z) p e p' :
  sleeping t start n p ->
  CInt.INT64_MIN <= start -> 0 < n -> start + n <= CInt.INT64_MAX ->
  now p + match e with EvTick => 1 | _ => 0 end < start + n ->
  step p e = Some p' ->
  sleeping t start n p'.
Proof.
  intros [Hok Hlive Hst] Hmin Hn Hmax Hlt Hstep.
  pose proof (queue_ok_step p e p' Hok Hstep) as Hok'.
  pose proof Hok as [Hsort Hnd Hmem Htk].
  assert (Hsome : sleepers p !! t <> None).
  { destruct Hst as [H | [[H _] | [[H | H] _]]]; congruence. }
  destruct e as [x m | x | x | x | x |].
  - (* timer_sleep is called *)
    apply step_sleep_inv in Hstep as (Hs & Hb & ->).
    assert (Hne : x <> t) by congruence.
    split; [exact Hok' | exact Hlive |].
    unfold queue, deadline in *. cbn [tstate sleepers fst snd threads] in *.
    destruct (m <=? 0); [exact Hst |].
    rewrite lookup_insert_ne by exact Hne. exact Hst.
  - (* the wake-up time is written *)
    apply step_store_inv in Hstep as (start' & n' & Hs & Hb & ->).
    split; [exact Hok' | apply TimerMoreFacts.lookup_alter_None; exact Hlive |].
    unfold queue, deadline in *. cbn [tstate sleepers fst snd threads] in *.
    destruct (decide (x = t)) as [-> | Hne].
    + rewrite lookup_insert_eq.
      destruct Hst as [H | [[H _] | [[H | H] _]]]; try congruence.
      rewrite H in Hs. injection Hs as <- <-.
      right. left. split; [reflexivity |].
      rewrite deadline_alter_eq by exact Hlive.
      apply CIntFacts.wrap64_id. lia.
    + rewrite lookup_insert_ne by exact Hne.
      rewrite thread_at_alter_ne by exact Hne. exact Hst.
  - (* the thread is put in the queue *)
    apply step_insert_inv in Hstep as (Hs & Hb & ->).
    split; [exact Hok' | exact Hlive |].
    unfold queue, deadline, now in *.
    cbn [tstate sleepers fst snd threads sleeping_threads] in *.
    destruct (decide (x = t)) as [-> | Hne].
    + rewrite lookup_insert_eq.
      destruct Hst as [H | [[H Hd] | [[H | H] _]]]; try congruence.
      right. right. split; [auto |]. split; [| exact Hd].
      apply QueueFacts.insert_In. auto.
    + rewrite lookup_insert_ne by exact Hne.
      destruct Hst as [H | [H | (H & Hin & Hd)]]; auto.
      right. right. split; [exact H |]. split; [| exact Hd].
      apply QueueFacts.insert_In. auto.
  - (* intr_disable (); thread_block () *)
    apply step_block_inv in Hstep as (Hs & Hb & ->).
    split; [exact Hok' | apply TimerMoreFacts.lookup_alter_None; exact Hlive |].
    unfold queue, deadline in *. cbn [tstate sleepers fst snd threads] in *.
    rewrite wakeup_alter_status.
    destruct (decide (x = t)) as [-> | Hne].
    + rewrite lookup_insert_eq.
      destruct Hst as [H | [[H _] | (_ & Hin & Hd)]]; try congruence.
      right. right. auto.
    + rewrite lookup_insert_ne by exact Hne. exact Hst.
  - (* thread_block () returns *)
    apply step_wake_inv in Hstep as (Hs & Hb & ->).
    assert (Hne : x <> t).
    { intros ->.
      destruct Hst as [H | [[H _] | (_ & Hin & _)]]; try congruence.
      destruct (Hmem t Hin) as [H | [_ H]]; congruence. }
    split; [exact Hok' | exact Hlive |].
    unfold queue, deadline in *. cbn [tstate sleepers fst snd threads] in *.
    rewrite lookup_delete_ne by exact Hne. exact Hst.
  - (* the timer interrupt *)
    rewrite step_tick_result in Hstep by exact Hsort.
    injection Hstep as <-.
    split; [exact Hok' | apply TimerMoreFacts.unblock_all_lookup; exact Hlive |].
    unfold queue, deadline, now in *.
    cbn [tstate sleepers fst snd threads sleeping_threads] in *.
    rewrite unblock_all_wakeup.
    destruct Hst as [H | [H | (H & Hin & Hd)]]; auto.
    right. right. split; [exact H |]. split; [| exact Hd].
    apply List.filter_In. split; [exact Hin |].
    apply negb_true_iff. unfold due_at, deadline. rewrite Hd.
    apply Z.leb_gt. rewrite CIntFacts.wrap64_id by lia. lia.
Qed.

Lemma sleeping_run (t : tid) (start n : Z) (evs : list event) : forall p p',
  sleeping t start n p ->
  CInt.INT64_MIN <= start -> 0 < n -> start + n <= CInt.INT64_MAX ->
  now p + interrupts_in evs < start + n ->
  run p evs = Some p' ->
  sleeping t start n p' /\ now p' = now p + interrupts_in evs.
Proof.
  induction evs as [| e evs IH]; intros p p' Hsl Hmin Hn Hmax Hlt Hrun.
  - cbn in Hrun. injection Hrun as <-. split; [exact Hsl |].
    unfold interrupts_in. cbn. lia.
  - cbn [run] in Hrun. destruct (step p e) as [p1 |] eqn:He; [| discriminate].
    rewrite interrupts_in_cons in Hlt |- *.
    pose proof (interrupts_in_nonneg evs) as Hnn.
    pose proof (step_now p e p1 (sl_ok t start n p Hsl) He) as Hnow.
    pose proof (qok_ticks p (sl_ok t start n p Hsl)) as Htk.
    assert (Hsl1 : sleeping t start n p1).
    { apply (sleeping_step t start n p e p1); auto.
      destruct e; lia. }
    assert (Hnow1 : now p1 = now p + match e with EvTick => 1 | _ => 0 end).
    { rewrite Hnow. destruct e; try lia.
      apply CIntFacts.wrap64_id. lia. }
    destruct (IH p1 p' Hsl1 Hmin Hn Hmax ltac:(lia) Hrun) as [Hsl' Hnow'].
    split; [exact Hsl' | lia].
Qed.

(** The call itself. *)
Lemma sleeping_start (t : tid) (n : Z) p p1 :
  queue_ok p -> 0 < n ->
  step p (EvSleep t n) = Some p1 ->
  sleeping t (now p) n p1 /\ now p1 = now p.
Proof.
  intros Hok Hn Hstep.
  pose proof (queue_ok_step p _ p1 Hok Hstep) as Hok1.
  apply step_sleep_inv in Hstep as (Hs & Hb & ->).
  split; [| reflexivity].
  split; [exact Hok1 | apply runnable_live; exact Hb |].
  left. cbn. destruct (Z.leb_spec n 0); [lia |]. apply lookup_insert_eq.
Qed.

(** X21.  No early return, whatever the interleaving.  In a state
    reached from an empty sleep queue a thread calls [timer_sleep]
    with a positive number [n] of ticks (the wake-up time fitting in
    [int64_t]).  Whatever it and the other threads then do, and
    wherever the timer interrupts fall, as long as fewer than [n]
    interrupts have arrived since its call the thread has not
    returned from [timer_sleep]; from its insertion on it is in the
    sleep queue with wake-up time the tick count of its call plus
    [n]; and once it has called [thread_block] it is blocked. *)
Theorem sleeper_not_woken_early (p0 p p1 p2 : ptimer)
    (evs0 evs : list event) (t : tid) (n : Z) :
  queue p0 = [] ->
  CInt.INT64_MIN <= now p0 <= CInt.INT64_MAX ->
  run p0 evs0 = Some p ->
  0 < n ->
  now p + n <= CInt.INT64_MAX ->
  step p (EvSleep t n) = Some p1 ->
  run p1 evs = Some p2 ->
  interrupts_in evs < n ->
  sleepers p2 !! t <> None /\
  now p2 = now p + interrupts_in evs /\
  (sleepers p2 !! t = Some Queued \/ sleepers p2 !! t = Some Asleep ->
   In t (queue p2) /\ deadline (tstate p2) t = now p + n) /\
  (sleepers p2 !! t = Some Asleep -> blocked p2 t = true).
Proof.
  intros Hq Htk Hrun0 Hn Hmax Hstep Hrun Hlt.
  pose proof (queue_ok_run evs0 p0 p (queue_ok_init p0 Hq Htk) Hrun0) as Hok.
  pose proof (qok_ticks p Hok) as Hrange.
  destruct (sleeping_start t n p p1 Hok Hn Hstep) as [Hsl1 Hnow1].
  destruct (sleeping_run t (now p) n evs p1 p2 Hsl1) as [[Hok2 Hlive Hst] Hnow2];
    try lia; try assumption.
  split.
  { destruct Hst as [H | [[H _] | [[H | H] _]]]; congruence. }
  split; [lia |].
  split.
  - intros Hs. destruct Hst as [H | [[H _] | (_ & Hin & Hd)]]; auto;
      destruct Hs; congruence.
  - intros Hs. destruct Hst as [H | [[H _] | (_ & Hin & Hd)]];
      try congruence.
    destruct (qok_member p2 Hok2 t Hin) as [H | [_ H]];
      [congruence | exact H].
Qed.

Lemma sleeper_not_woken_early_witness :
  sleepers nap_end !! 1%nat = Some Asleep /\
  In 1%nat (queue nap_end) /\
  deadline (tstate nap_end) 1%nat = 2 /\
  blocked nap_end 1%nat = true.
Proof.
  assert (Hs : sleepers nap_end !! 1%nat = Some Asleep)
    by (vm_compute; reflexivity).
  destruct (sleeper_not_woken_early (boot [1; 2; 3]%nat) (boot [1; 2; 3]%nat)
              nap_start nap_end [] nap 1%nat 2)
    as (_ & _ & Hin & Hb).
  - reflexivity.
  - vm_compute. split; discriminate.
  - reflexivity.
  - lia.
  - vm_compute. discriminate.
  - vm_compute. reflexivity.
  - vm_compute. reflexivity.
  - vm_compute. reflexivity.
  - split; [exact Hs |].
    destruct (Hin (or_intror Hs)) as [Hq Hd].
    split; [exact Hq |]. split; [exact Hd | exact (Hb Hs)].
Defined.




(** ** The lost wake-up *)

(** A thread that is inside [timer_sleep] past its insertion and is
    not in the queue is never put back and never unblocked. *)
Lemma stranded_step (t : tid) p e p' :
  stranded t p -> step p e = Some p' -> stranded t p'.
Proof.
  intros [Hok Hout Hst] Hstep.
  pose proof (queue_ok_step p e p' Hok Hstep) as Hok'.
  assert (Hsome : sleepers p !! t = Some Queued \/
                  sleepers p !! t = Some Asleep) by (destruct Hst as [H | [H _]]; auto).
  destruct e as [x m | x | x | x | x |].
  - apply step_sleep_inv in Hstep as (Hs & Hb & ->).
    assert (Hne : x <> t) by (destruct Hsome; congruence).
    split; [exact Hok' | exact Hout |].
    unfold blocked in *. cbn [tstate sleepers fst snd threads] in *.
    destruct (m <=? 0); [exact Hst |].
    rewrite lookup_insert_ne by exact Hne. exact Hst.
  - apply step_store_inv in Hstep as (start' & n' & Hs & Hb & ->).
    assert (Hne : x <> t) by (destruct Hsome; congruence).
    split; [exact Hok' | exact Hout |].
    unfold blocked in *. cbn [tstate sleepers fst snd threads] in *.
    rewrite lookup_insert_ne by exact Hne.
    rewrite WaitInvFacts.is_blocked_alter_ne by exact Hne. exact Hst.
  - apply step_insert_inv in Hstep as (Hs & Hb & ->).
    assert (Hne : x <> t) by (destruct Hsome; congruence).
    split; [exact Hok' | |].
    + unfold queue in *. cbn [tstate snd sleeping_threads].
      intros H. apply QueueFacts.insert_In in H as [-> | H]; auto.
    + unfold blocked in *. cbn [tstate sleepers fst snd threads] in *.
      rewrite lookup_insert_ne by exact Hne. exact Hst.
  - apply step_block_inv in Hstep as (Hs & Hb & ->).
    split; [exact Hok' | exact Hout |].
    unfold blocked in *. cbn [tstate sleepers fst snd threads] in *.
    destruct (decide (x = t)) as [-> | Hne].
    + right. split; [apply lookup_insert_eq | apply is_blocked_self].
    + rewrite lookup_insert_ne by exact Hne.
      rewrite WaitInvFacts.is_blocked_alter_ne by exact Hne. exact Hst.
  - apply step_wake_inv in Hstep as (Hs & Hb & ->).
    assert (Hne : x <> t).
    { intros ->. destruct Hst as [H | [_ H]]; congruence. }
    split; [exact Hok' | exact Hout |].
    unfold blocked in *. cbn [tstate sleepers fst snd threads] in *.
    rewrite lookup_delete_ne by exact Hne. exact Hst.
  - rewrite step_tick_result in Hstep by apply (qok_sorted p Hok).
    injection Hstep as <-.
    split; [exact Hok' | |].
    + unfold queue in *. cbn [tstate snd sleeping_threads].
      intros H. apply List.filter_In in H as [H _]. auto.
    + unfold blocked, queue in *.
      cbn [tstate sleepers fst snd threads] in *.
      unfold is_blocked. rewrite unblock_all_other; [exact Hst |].
      intros H. apply List.filter_In in H as [H _]. auto.
Qed.

Lemma stranded_run (t : tid) (evs : list event) : forall p p',
  stranded t p -> run p evs = Some p' -> stranded t p'.
Proof.
  induction evs as [| e evs IH]; intros p p' Hst; cbn.
  - intros [= <-]. exact Hst.
  - destruct (step p e) as [p1 |] eqn:He; [| discriminate].
    apply IH. eapply stranded_step; eassumption.
Qed.



End SleepPreemptFacts.
